(** * Hydrogen storefront template: utilities, redirect lookup, project setup

    A shallow embedding of
      - [app/lib/utils.ts]  (menus and their links, text formatting, order
        status, class names, languages),
      - [packages/hydrogen/src/routing/redirect.ts]  (storefrontRedirect),
      - the local starter-template flow (setupLocalStarterTemplate),
    together with the properties the specification states about them and
    further properties of the code. *)

From Stdlib Require Import ZArith NArith Ascii String Lia.
From stdpp Require Import base option list gmap strings fin_maps.

Set Default Proof Using "Type".

(** ** The fragment of JavaScript the sources rely on *)

Module JS.

(** A JavaScript string is a sequence of UTF-16 code units. *)
Abbreviation text := (list N).

(** String literals of the sources (all of them are ASCII). *)
Definition lit (s : string) : text :=
  (λ a : ascii, N_of_ascii a) <$> list_ascii_of_string s.

Definition slash : N := 47.
Definition dquote : N := 34.
Definition dollar : N := 36.
Definition less_than : N := 60.
Definition nbsp : N := 160.

(** The values a property read of a string table can produce.  [VObject]
    stands for an object or function, named by the property that holds it. *)
Inductive value :=
| VUndefined
| VString (s : text)
| VObject (tag : text).

#[global] Instance value_eq_dec : EqDecision value.
Proof. solve_decision. Defined.

(** ToBoolean. *)
Definition truthy (v : value) : bool :=
  match v with
  | VUndefined => false
  | VString s => negb (bool_decide (s = []))
  | VObject _ => true
  end.

(** Completion of an expression: a value or a thrown error. *)
Inductive completion (A : Type) :=
| Normal (a : A)
| Throw (e : text).
Arguments Normal {A} a.
Arguments Throw {A} e.

Definition try_catch {A} (body : completion A) (handler : text → completion A)
  : completion A :=
  match body with
  | Normal a => Normal a
  | Throw e => handler e
  end.

(** [s.split(sep)] for a separator of one code unit: never empty. *)
Fixpoint split (sep : N) (s : text) : list text :=
  match s with
  | [] => [[]]
  | c :: s' =>
      if (c =? sep)%N then [] :: split sep s'
      else match split sep s' with
           | seg :: segs => (c :: seg) :: segs
           | [] => [[c]]
           end
  end.

(** The longest run of characters of class [p] at the start of [s], and
    what follows it. *)
Fixpoint span (p : N → bool) (s : text) : text * text :=
  match s with
  | c :: s' =>
      if p c then let '(run, rest) := span p s' in (c :: run, rest)
      else ([], s)
  | [] => ([], [])
  end.

(** [a.pop()]: the last element (undefined on an empty array) and the
    array that is left. *)
Definition pop {A} (l : list A) : option A * list A :=
  (last l, removelast l).

(** Members every ordinary object inherits from [Object.prototype]; a
    property read that finds no own property finds these. *)
Definition object_prototype_names : list text :=
  lit <$> [ "constructor"; "hasOwnProperty"; "isPrototypeOf";
            "propertyIsEnumerable"; "toLocaleString"; "toString"; "valueOf";
            "__proto__"; "__defineGetter__"; "__defineSetter__";
            "__lookupGetter__"; "__lookupSetter__" ]%string.

(** [o[k]] on an object literal whose own properties are the string-valued
    entries of [o]. Reading a property of such an object never throws. *)
Definition get (o : gmap text text) (k : text) : value :=
  match o !! k with
  | Some s => VString s
  | None =>
      if bool_decide (k ∈ object_prototype_names) then VObject k
      else VUndefined
  end.

(** [o?.[k]]: undefined when the receiver is missing. *)
Definition get_optional (o : option (gmap text text)) (k : text)
  : completion value :=
  match o with
  | None => Normal VUndefined
  | Some o => Normal (get o k)
  end.

(** Closed decidable propositions, by evaluation. *)
Ltac decide_closed :=
  match goal with
  | |- ?P => apply (@bool_decide_unpack P _); by vm_compute
  end.

End JS.

(** ** Numbers and dates: time values and the calendar functions of
    ECMAScript

    A time value is a whole number of milliseconds since the epoch, at most
    8.64e15 in magnitude; [None] stands for NaN (an invalid date). *)

Module JSDate.

Local Open Scope Z_scope.

(** A number is NaN, an infinity or a finite binary64 value; [Finite m e]
    stands for [m] times 2 to the power [e]. *)
Inductive number :=
| NaN
| Infinity (negative : bool)
| Finite (m e : Z).

Definition whole (n : Z) : number := Finite n 0.

(** [m / 2^k] rounded to the nearest integer, ties to even ([0 < k]). *)
Definition round_half_even (m k : Z) : Z :=
  let q := m `div` 2 ^ k in
  let r := m `mod` 2 ^ k in
  let half := 2 ^ (k - 1) in
  if r <? half then q
  else if half <? r then q + 1
  else if Z.even q then q else q + 1.

(** The binary64 value nearest to [m] times 2 to the power [e]: 53
    significant bits are kept, and what lies beyond the largest finite
    value is an infinity.  (No result of the subtraction below is small
    enough to be subnormal.) *)
Definition round53 (m e : Z) : number :=
  let k := Z.log2 (Z.abs m) - 52 in
  let '(m', e') := if 0 <? k then (round_half_even m k, e + k) else (m, e) in
  if (0 <=? e') && (2 ^ 1024 <=? Z.abs m' * 2 ^ e')
  then Infinity (m' <? 0)
  else Finite m' e'.

(** [a - b] for a whole number [a] of small magnitude: the exact difference,
    rounded. *)
Definition subtract_from (a : Z) (b : number) : number :=
  match b with
  | NaN => NaN
  | Infinity negative => Infinity (negb negative)
  | Finite m e =>
      if 0 <=? e then round53 (a - m * 2 ^ e) 0
      else round53 (a * 2 ^ (- e) - m) e
  end.

(** ToIntegerOrInfinity on a finite number: the fraction is dropped.
    [MakeDay] gives NaN for any other number. *)
Definition truncate (x : number) : option Z :=
  match x with
  | Finite m e => Some (if 0 <=? e then m * 2 ^ e else m `quot` 2 ^ (- e))
  | _ => None
  end.

Definition msPerDay : Z := 86400000.

Definition Day (t : Z) : Z := t `div` msPerDay.
Definition TimeWithinDay (t : Z) : Z := t `mod` msPerDay.

Definition DaysInYear (y : Z) : Z :=
  if negb (y `mod` 4 =? 0) then 365
  else if negb (y `mod` 100 =? 0) then 366
  else if negb (y `mod` 400 =? 0) then 365
  else 366.

Definition DayFromYear (y : Z) : Z :=
  365 * (y - 1970) + (y - 1969) `div` 4 - (y - 1901) `div` 100
  + (y - 1601) `div` 400.

(** The year whose first day is the latest one not after day [d]: an
    estimate from the length of the 400-year cycle, corrected by one. *)
Definition year_of_day (d : Z) : Z :=
  let y := 1970 + (d * 400) `div` 146097 in
  if d <? DayFromYear y then y - 1
  else if DayFromYear (y + 1) <=? d then y + 1
  else y.

Definition YearFromTime (t : Z) : Z := year_of_day (Day t).
Definition InLeapYear (y : Z) : bool := DaysInYear y =? 366.
Definition DayWithinYear (t : Z) : Z := Day t - DayFromYear (YearFromTime t).

(** Days of the year that precede month [m] (0 = January). *)
Definition days_before_month (m : Z) (leap : bool) : Z :=
  let l := if leap then 1 else 0 in
  match m with
  | 0 => 0
  | 1 => 31
  | 2 => 59 + l
  | 3 => 90 + l
  | 4 => 120 + l
  | 5 => 151 + l
  | 6 => 181 + l
  | 7 => 212 + l
  | 8 => 243 + l
  | 9 => 273 + l
  | 10 => 304 + l
  | _ => 334 + l
  end.

Definition month_of (dayInYear : Z) (leap : bool) : Z :=
  let fix find (candidates : list Z) : Z :=
    match candidates with
    | [] => 0
    | m :: rest =>
        if days_before_month m leap <=? dayInYear then m else find rest
    end in
  find [11; 10; 9; 8; 7; 6; 5; 4; 3; 2; 1].

Definition MonthFromTime (t : Z) : Z :=
  month_of (DayWithinYear t) (InLeapYear (YearFromTime t)).

Definition DateFromTime (t : Z) : Z :=
  DayWithinYear t + 1
  - days_before_month (MonthFromTime t) (InLeapYear (YearFromTime t)).

(** The day number of [date] in the given month; [month] and [date] may
    lie outside their usual ranges and then carry over. *)
Definition MakeDay (year month date : Z) : Z :=
  let ym := year + month `div` 12 in
  let mn := month `mod` 12 in
  DayFromYear ym + days_before_month mn (InLeapYear ym) + date - 1.

Definition MakeDate (day time : Z) : Z := day * msPerDay + time.

(** A time beyond 8.64e15 milliseconds from the epoch is no time value. *)
Definition TimeClip (time : Z) : option Z :=
  if Z.abs time <=? 8640000000000000 then Some time else None.

Section LocalZone.

(** Offset of the local time zone at a time value (given in UTC when the
    flag is true, in local time otherwise). *)
Variable LocalTZA : Z → bool → Z.

Definition LocalTime (t : Z) : Z := t + LocalTZA t true.
Definition UTC (t : Z) : Z := t - LocalTZA t false.

(** [d.getDate()] and [d.setDate(date)] on a valid date with time value
    [t]; [setDate] returns the new time value, which is NaN when [date] is
    not finite or the new time lies beyond the range of time values. *)
Definition getDate (t : Z) : Z := DateFromTime (LocalTime t).

Definition setDate (t : Z) (date : number) : option Z :=
  dt ← truncate date;
  let lt := LocalTime t in
  TimeClip
    (UTC (MakeDate (MakeDay (YearFromTime lt) (MonthFromTime lt) dt)
            (TimeWithinDay lt))).

End LocalZone.

(** [a > b] on numbers: false as soon as one side is NaN. *)
Definition number_gt (a b : option Z) : bool :=
  match a, b with
  | Some a, Some b => b <? a
  | _, _ => false
  end.

End JSDate.

(** ** Regular expressions and [String.prototype.replace]

    The patterns of the sources are sequences of character classes, each
    taken once or under a greedy [+] or [*], with an optional [$] at the
    end and capture groups around single classes.  Matching is by
    backtracking, leftmost match first, as the language defines it. *)

Module JSRegExp.
Import JS.

Inductive quantifier := Once | OneOrMore | ZeroOrMore.

Record atom := Atom { accepts : N → bool; quant : quantifier }.

Record regexp := RegExp {
  atoms : list atom;
  at_end : bool;          (* the pattern ends in [$] *)
  groups : list nat;      (* indices of the atoms wrapped in ( ) *)
  global : bool;          (* the [g] flag *)
}.

(** As many characters of class [p] as possible, then the continuation
    [k]; on failure of [k] one character is given back at a time.
    Returns what the class consumed and what [k] returns. *)
Fixpoint greedy (p : N → bool) (k : text → option (list text)) (s : text)
  : option (text * list text) :=
  match s with
  | c :: s' =>
      if p c then
        match greedy p k s' with
        | Some (seg, segs) => Some (c :: seg, segs)
        | None => (λ segs, ([], segs)) <$> k s
        end
      else (λ segs, ([], segs)) <$> k s
  | [] => (λ segs, ([], segs)) <$> k s
  end.

(** A match starting at the beginning of [s]: the text matched by each
    atom, in order. *)
Fixpoint match_here (atoms : list atom) (at_end : bool) (s : text)
  : option (list text) :=
  match atoms with
  | [] =>
      if at_end then match s with [] => Some [] | _ :: _ => None end
      else Some []
  | a :: rest =>
      match quant a with
      | Once =>
          match s with
          | c :: s' =>
              if accepts a c
              then (λ segs, [c] :: segs) <$> match_here rest at_end s'
              else None
          | [] => None
          end
      | OneOrMore =>
          match s with
          | c :: s' =>
              if accepts a c
              then (λ '(seg, segs), (c :: seg) :: segs)
                     <$> greedy (accepts a) (match_here rest at_end) s'
              else None
          | [] => None
          end
      | ZeroOrMore =>
          (λ '(seg, segs), seg :: segs)
            <$> greedy (accepts a) (match_here rest at_end) s
      end
  end.

(** The leftmost match: what precedes it, the matched segments, and what
    follows it. *)
Fixpoint search (r : regexp) (s : text) : option (text * list text * text) :=
  match match_here (atoms r) (at_end r) s with
  | Some segs => Some ([], segs, drop (length (concat segs)) s)
  | None =>
      match s with
      | [] => None
      | c :: s' =>
          (λ '(pre, segs, post), (c :: pre, segs, post)) <$> search r s'
      end
  end.

Definition captures (r : regexp) (segs : list text) : list text :=
  (λ i, default [] (segs !! i)) <$> groups r.

Definition is_digit (c : N) : bool := (48 <=? c)%N && (c <=? 57)%N.
Definition digit_value (c : N) : nat := N.to_nat (c - 48).

Definition capture_ref (captures : list text) (index : nat) : option text :=
  if bool_decide (1 ≤ index ≤ length captures)
  then Some (default [] (captures !! (index - 1)))
  else None.

(** Expansion of a replacement string: [$$], [$&], [$`], [$'], [$n] and
    [$nn] are special; a [$] followed by anything else stands for itself. *)
Fixpoint substitute (template before matched after : text)
    (caps : list text) : text :=
  match template with
  | [] => []
  | c :: t =>
      if negb (c =? dollar)%N then c :: substitute t before matched after caps
      else
        match t with
        | [] => [dollar]
        | d :: t' =>
            if (d =? dollar)%N
            then dollar :: substitute t' before matched after caps
            else if (d =? 38)%N
            then matched ++ substitute t' before matched after caps
            else if (d =? 96)%N
            then before ++ substitute t' before matched after caps
            else if (d =? 39)%N
            then after ++ substitute t' before matched after caps
            else if is_digit d then
              let one_digit :=
                match capture_ref caps (digit_value d) with
                | Some cap => cap ++ substitute t' before matched after caps
                | None =>
                    dollar :: d :: substitute t' before matched after caps
                end in
              match t' with
              | d2 :: t'' =>
                  if is_digit d2 then
                    match capture_ref caps (10 * digit_value d + digit_value d2) with
                    | Some cap =>
                        cap ++ substitute t'' before matched after caps
                    | None => one_digit
                    end
                  else one_digit
              | [] => one_digit
              end
            else dollar :: substitute t before matched after caps
        end
  end.

(** Replacement of every match, left to right; an empty match moves on by
    one character.  [before] is the text already passed. *)
Fixpoint replace_all (fuel : nat) (r : regexp) (template before s : text)
  : text :=
  match fuel with
  | O => s
  | S fuel =>
      match search r s with
      | None => s
      | Some (pre, segs, post) =>
          let matched := concat segs in
          pre
          ++ substitute template (before ++ pre) matched post (captures r segs)
          ++ match matched, post with
             | [], [] => []
             | [], c :: post' =>
                 c :: replace_all fuel r template (before ++ pre ++ [c]) post'
             | _ :: _, _ =>
                 replace_all fuel r template (before ++ pre ++ matched) post
             end
      end
  end.

(** [s.replace(r, template)]: the first match only, unless [r] is global. *)
Definition replace (r : regexp) (template s : text) : text :=
  if global r then replace_all (S (length s)) r template [] s
  else
    match search r s with
    | None => s
    | Some (pre, segs, post) =>
        pre ++ substitute template pre (concat segs) post (captures r segs)
        ++ post
    end.

(** The class [\s]: white space and line terminators. *)
Definition is_white_space (c : N) : bool :=
  bool_decide (c ∈ [9; 10; 11; 12; 13; 32; 160; 5760; 8232; 8233; 8239;
                    8287; 12288; 65279]%N)
  || (8192 <=? c)%N && (c <=? 8202)%N.

(** The atoms of a literal piece of a pattern. *)
Definition literal (s : text) : list atom :=
  (λ c, Atom (N.eqb c) Once) <$> s.

(** [all p s]: every character of [s] is in the class [p]. *)
Abbreviation all p := (Forall (λ c : N, p c = true)).

(** [stops p s]: a run of [p]-characters cannot be extended into [s]. *)
Definition stops (p : N → bool) (s : text) : Prop :=
  match s with
  | [] => True
  | c :: _ => p c = false
  end.

End JSRegExp.

(** ** app/lib/utils.ts *)

Module Utils.
Import JS.

Section FormatText.
Import JSRegExp.

(** The [typographic-base] package: typographic quotes, dashes, ellipses. *)
Variable typographicBase : text → text.

(** What [formatText] is given: a string or a React node (numbers are
    represented by integers, elements by an identifier). *)
Inductive node :=
| NUndefined
| NNull
| NBoolean (b : bool)
| NNumber (n : Z)
| NString (s : text)
| NElement (id : nat).

Definition node_truthy (input : node) : bool :=
  match input with
  | NUndefined | NNull => false
  | NBoolean b => b
  | NNumber n => negb (n =? 0)%Z
  | NString s => negb (bool_decide (s = []))
  | NElement _ => true
  end.

(** The class [[^\s<]]. *)
Definition word_char (c : N) : bool :=
  negb (is_white_space c) && negb (c =? less_than)%N.

(** [/\s([^\s<]+)\s*$/g] *)
Definition final_word_re : regexp :=
  {| atoms :=
       [ Atom is_white_space Once;
         Atom word_char OneOrMore;
         Atom is_white_space ZeroOrMore ];
     at_end := true;
     groups := [1%nat];
     global := true |}.

Definition formatText (input : node) : node :=
  if negb (node_truthy input) then NUndefined
  else
    match input with
    | NString s =>
        NString (replace final_word_re (nbsp :: lit "$1") (typographicBase s))
    | _ => input
    end.

(** The sentence of the specification taken at its word, for comparison
    with [formatText]: the text in which the white space character before
    the final word (the last run of characters that are not white space) has
    become a non-breaking space, and nothing else differs. *)
Definition nbsp_before_final_word (t : text) : text :=
  let '(trail, r) := span is_white_space (rev t) in
  let '(word, r) := span (λ c, negb (is_white_space c)) r in
  match r with
  | _ :: pre => rev pre ++ [nbsp] ++ rev word ++ rev trail
  | [] => t
  end.

End FormatText.

Section IsNewArrival.
Import JSDate.

(** [Date.parse]: the time value of a date string, NaN when it cannot be
    parsed. *)
Variable parse : text → option Z.
Variable LocalTZA : Z → bool → Z.

(** The clock is read twice, by the two [new Date()]: [now] is the reading
    of the date that [setDate] is called on, [now'] the reading that
    [getDate] is called on.  [new Date(date)] keeps the parsed time if it
    is a time value. *)
Definition isNewArrival (now now' : Z) (date : text) (daysOld : option number)
  : bool :=
  let daysOld := default (whole 30) daysOld in
  number_gt (parse date ≫= TimeClip)
    (setDate LocalTZA now (subtract_from (getDate LocalTZA now') daysOld)).

End IsNewArrival.

Section ResolveTo.

(** How the engine prints an inherited member inside a template literal
    (the text of a native function, or [[object Object]]). *)
Variable native_text : text → text.

(** Template-literal interpolation of the values that occur. *)
Definition interpolate (v : value) : text :=
  match v with
  | VUndefined => lit "undefined"
  | VString s => s
  | VObject k => native_text k
  end.

Record ResolveArgs := {
  customPrefixes : gmap text text;
  pathname : option text;
  type : option text;
}.

Definition defaultPrefixes : gmap text text :=
  list_to_map
    [ (lit "BLOG", lit "blogs");
      (lit "COLLECTION", lit "collections");
      (lit "COLLECTIONS", lit "collections");
      (lit "FRONTPAGE", lit "frontpage");
      (lit "HTTP", lit "");
      (lit "PAGE", lit "pages");
      (lit "CATALOG", lit "collections/all");
      (lit "PRODUCT", lit "products");
      (lit "SEARCH", lit "search");
      (lit "SHOP_POLICY", lit "policies") ].

Definition of_option (o : option text) : value :=
  match o with
  | Some s => VString s
  | None => VUndefined
  end.

Definition resolveToFromType (args : option ResolveArgs) : text :=
  let args := default {| customPrefixes := ∅; pathname := None; type := None |} args in
  match pathname args, type args with
  | Some pathname, Some type =>
      if negb (truthy (VString pathname)) || negb (truthy (VString type))
      then []
      else
        let pathParts := split slash pathname in
        let '(popped, pathParts) := pop pathParts in
        let handle :=
          if truthy (of_option popped) then default [] popped else [] in
        (* {...defaultPrefixes, ...customPrefixes} *)
        let routePrefix := customPrefixes args ∪ defaultPrefixes in
        if bool_decide (type = lit "FRONTPAGE") then [slash]
        else if bool_decide (type = lit "ARTICLE") then
          let '(blogHandle, _) := pop pathParts in
          let blog := get routePrefix (lit "BLOG") in
          if truthy blog
          then [slash] ++ interpolate blog ++ [slash]
               ++ interpolate (of_option blogHandle) ++ [slash] ++ handle ++ [slash]
          else [slash] ++ interpolate (of_option blogHandle) ++ [slash]
               ++ handle ++ [slash]
        else if bool_decide (type = lit "COLLECTIONS") then
          [slash] ++ interpolate (get routePrefix (lit "COLLECTIONS"))
        else if bool_decide (type = lit "SEARCH") then
          [slash] ++ interpolate (get routePrefix (lit "SEARCH"))
        else if bool_decide (type = lit "CATALOG") then
          [slash] ++ interpolate (get routePrefix (lit "CATALOG"))
        else
          let prefix := get routePrefix type in
          if truthy prefix
          then [slash] ++ interpolate prefix ++ [slash] ++ handle
          else [slash] ++ handle
  | _, _ => []
  end.

(** A call with no custom prefixes: [{type, customPrefixes: {}, pathname}]. *)
Definition resolve_plain (pathname : text) (type : string) : text :=
  resolveToFromType
    (Some {| customPrefixes := ∅; pathname := Some pathname;
             type := Some (lit type) |}).

End ResolveTo.

Definition translations : gmap text text :=
  list_to_map
    [ (lit "ATTEMPTED_DELIVERY", lit "Attempted delivery");
      (lit "CANCELED", lit "Canceled");
      (lit "CONFIRMED", lit "Confirmed");
      (lit "DELIVERED", lit "Delivered");
      (lit "FAILURE", lit "Failure");
      (lit "FULFILLED", lit "Fulfilled");
      (lit "IN_PROGRESS", lit "In Progress");
      (lit "IN_TRANSIT", lit "In transit");
      (lit "LABEL_PRINTED", lit "Label printed");
      (lit "LABEL_PURCHASED", lit "Label purchased");
      (lit "LABEL_VOIDED", lit "Label voided");
      (lit "MARKED_AS_FULFILLED", lit "Marked as fulfilled");
      (lit "NOT_DELIVERED", lit "Not delivered");
      (lit "ON_HOLD", lit "On Hold");
      (lit "OPEN", lit "Open");
      (lit "OUT_FOR_DELIVERY", lit "Out for delivery");
      (lit "PARTIALLY_FULFILLED", lit "Partially Fulfilled");
      (lit "PENDING_FULFILLMENT", lit "Pending");
      (lit "PICKED_UP", lit "Displayed as Picked up");
      (lit "READY_FOR_PICKUP", lit "Ready for pickup");
      (lit "RESTOCKED", lit "Restocked");
      (lit "SCHEDULED", lit "Scheduled");
      (lit "SUBMITTED", lit "Submitted");
      (lit "UNFULFILLED", lit "Unfulfilled") ].

Definition statusMessage (status : text) : completion value :=
  try_catch
    (get_optional (Some translations) status)
    (λ _error, Normal (VString status)).

End Utils.


(** ** app/lib/utils.ts: class names, languages and the home path *)

Module UtilsMore.
Import JS JSRegExp.

(** *** Patterns built at run time *)

(** The characters that have a meaning of their own in the source of a
    pattern.  [new RegExp(source)] is covered for the sources that hold
    none of them: such a source matches its own text and nothing else. *)
Definition syntax_characters : text := lit "^$\.*+?()[]{}|".

Definition plain (source : text) : bool :=
  forallb (λ c, negb (bool_decide (c ∈ syntax_characters))) source.

(** A string or undefined inside a template literal. *)
Definition interpolate_text (v : option text) : text :=
  default (lit "undefined") v.

(** The text [key] at the start of [s]. *)
Definition starts_with (key s : text) : bool :=
  bool_decide (is_Some (match_here (literal key) false s)).

(** [x?] followed by [k]: the character is taken when it is there, and
    given back when [k] fails after it. *)
Definition optional (p : N → bool) (k : text → bool) (s : text) : bool :=
  match s with
  | c :: s' => if p c then k s' || k s else k s
  | [] => k s
  end.

(** A match somewhere in [s]: every index is tried, from left to right. *)
Fixpoint matches (m : text → bool) (s : text) : bool :=
  m s || match s with
         | [] => false
         | _ :: s' => matches m s'
         end.

Definition space : N := 32.
Definition hyphen : N := 45.

(** [missingClass]; the pattern is a space that may be missing and the
    prefix.  [None] stands for a prefix with syntax characters, which this
    development does not cover. *)
Definition missingClass (string prefix : option text) : option bool :=
  if negb (truthy (default VUndefined (VString <$> string))) then Some true
  else
    let prefix := interpolate_text prefix in
    if plain prefix then
      (* string.match(regex) === null *)
      Some (negb (matches (optional (N.eqb space) (starts_with prefix))
                    (default [] string)))
    else None.

(** *** getExcerpt *)

(** The class of [.]: any character but a line terminator. *)
Definition dot (c : N) : bool :=
  negb (bool_decide (c ∈ [10; 13; 8232; 8233]%N)).

(** A lazy loop: as few characters of class [p] as possible before the
    continuation [k] succeeds. *)
Fixpoint lazy (p : N → bool) (k : text → option (list text)) (s : text)
  : option (text * list text) :=
  match k s with
  | Some segs => Some ([], segs)
  | None =>
      match s with
      | c :: s' =>
          if p c then (λ '(seg, segs), (c :: seg, segs)) <$> lazy p k s'
          else None
      | [] => None
      end
  end.

Definition greater_than : N := 62.

(** [/<p.*>(.*?)<\/p>/] at the start of [s]: the text matched by each of
    its five parts. *)
Definition excerpt_here (s : text) : option (list text) :=
  let closing := match_here (literal (lit "</p>")) false in
  let inner r := (λ '(seg, segs), seg :: segs) <$> lazy dot closing r in
  let bracket r :=
    match r with
    | c :: r' => if (c =? greater_than)%N then cons [c] <$> inner r' else None
    | [] => None
    end in
  let rest r := (λ '(seg, segs), seg :: segs) <$> greedy dot bracket r in
  match s with
  | c1 :: c2 :: r =>
      if (c1 =? less_than)%N && (c2 =? 112)%N
      then cons [c1; c2] <$> rest r
      else None
  | _ => None
  end.

(** [regex.exec(text)]: the leftmost match. *)
Fixpoint exec (m : text → option (list text)) (s : text)
  : option (list text) :=
  match m s with
  | Some segs => Some segs
  | None =>
      match s with
      | [] => None
      | _ :: s' => exec m s'
      end
  end.

(** The array of a match is never empty, so [match?.length] is truthy for
    every match. *)
Definition getExcerpt (text : text) : JS.text :=
  match exec excerpt_here text with
  | Some segs => concat segs
  | None => text
  end.

(** *** getLocalizationFromLang *)

Section Localization.

(** [String.prototype.toUpperCase] *)
Variable toUpperCase : text → text.

(** The language is undefined when the first element of the split is. *)
Record Localization := { language : option text; country : text }.

Definition getLocalizationFromLang (lang : option text) : Localization :=
  match lang with
  | Some lang =>
      if truthy (VString lang) && bool_decide (hyphen ∈ lang) then
        let parts := split hyphen lang in
        (* const [language, country] = lang.split("-") *)
        let language := parts !! 0%nat in
        let country := parts !! 1%nat in
        {| language := toUpperCase <$> language;
           country :=
             match toUpperCase <$> country with
             | Some upper => if truthy (VString upper) then upper else lit "US"
             | None => lit "US"
             end |}
      else {| language := Some (lit "EN"); country := lit "US" |}
  | None => {| language := Some (lit "EN"); country := lit "US" |}
  end.

End Localization.

(** *** useIsHomePath *)

(** [s.replace(r, template)] for a pattern that starts with [^] and has no
    [g] or [m] flag: the only match is one at the start of [s]. *)
Definition replace_at_start (atoms : list atom) (template s : text) : text :=
  match match_here atoms false s with
  | Some segs =>
      let matched := concat segs in
      let post := drop (length matched) s in
      substitute template [] matched post [] ++ post
  | None => s
  end.

(** The hook, given the pathname of [useLocation] and the [lang] of
    [useParams].  [None] stands for a [lang] with syntax characters. *)
Definition useIsHomePath (pathname : text) (lang : option text)
  : option bool :=
  let lang := interpolate_text lang in
  if plain lang then
    let strippedPathname :=
      replace_at_start (literal ([slash] ++ lang ++ [slash])) [slash]
        pathname in
    Some (bool_decide (strippedPathname = [slash]))
  else None.

End UtilsMore.

(** ** app/lib/utils.ts: parseMenu *)

Module Menu.
Import JS JSRegExp.

(* The induction principle that fits these nested types is proved with
   the facts. *)
Local Unset Elimination Schemes.

(** A menu item of the Storefront API.  The code reads [url], [type] and
    [items]; [fields] holds the other properties (the id, the title, ...),
    which the object spreads copy. *)
Inductive MenuItem := {
  fields : gmap text text;
  url : option text;
  type : option text;
  items : option (list MenuItem);
}.

(** An item with [to], [target] and [isExternal] added.  An element of
    [enhanced_items] is undefined where [parseItem] gave nothing. *)
Inductive EnhancedMenuItem := {
  item_fields : gmap text text;
  item_url : option text;
  item_type : option text;
  isExternal : bool;
  target : text;
  to : text;
  enhanced_items : option (list (option EnhancedMenuItem));
}.

Local Set Elimination Schemes.

Record Menu := {
  menu_fields : gmap text text;
  menu_items : option (list MenuItem);
}.

(** What [parseMenu] returns: the menu it was given, or the menu with its
    items enhanced. *)
Inductive ParsedMenu :=
| Unchanged (menu : option Menu)
| EnhancedMenu (fields : gmap text text)
    (items : list (option EnhancedMenuItem)).

(** The result of a call and the lines it wrote with [console.warn]. *)
Definition effect (A : Type) : Type := completion A * list text.

(** [l.map(f)]: the elements in order; an exception ends the loop. *)
Definition map_effect {A B} (f : A → effect B) : list A → effect (list B) :=
  fix go (l : list A) : effect (list B) :=
    match l with
    | [] => (Normal [], [])
    | x :: rest =>
        match f x with
        | (Normal y, warned) =>
            match go rest with
            | (Normal ys, warned') => (Normal (y :: ys), warned ++ warned')
            | (Throw e, warned') => (Throw e, warned ++ warned')
            end
        | (Throw e, warned) => (Throw e, warned)
        end
    end.

(** [/\.myshopify\.com/g] *)
Definition myshopify_re : regexp :=
  {| atoms := literal (lit ".myshopify.com");
     at_end := false;
     groups := [];
     global := true |}.

(** [r.test(s)] on a pattern that has just been created. *)
Definition test (r : regexp) (s : text) : bool :=
  bool_decide (is_Some (search r s)).

(** [!item?.url || !item?.type] *)
Definition invalid (item : MenuItem) : bool :=
  negb (truthy (Utils.of_option (url item)))
  || negb (truthy (Utils.of_option (type item))).

Definition invalid_item_warning : text :=
  lit "Invalid menu item.  Must include a url and type.".

(** Every url of an item and of the items below it. *)
Fixpoint urls (item : MenuItem) : list text :=
  match item with
  | {| url := url; items := items |} =>
      match url with Some u => [u] | None => [] end
      ++ match items with
         | Some below => flat_map urls below
         | None => []
         end
  end.

Section ParseMenu.

(** The pathname of [new URL(url)], or the TypeError it throws. *)
Variable new_URL : text → completion text.
Variable native_text : text → text.

(** The function returned by [parseItem(customPrefixes)]. *)
Fixpoint parseItem (customPrefixes : gmap text text) (item : MenuItem)
  : effect (option EnhancedMenuItem) :=
  match item with
  | {| fields := fields; url := url; type := type; items := items |} =>
      if invalid item then (Normal None, [invalid_item_warning])
      else
        match new_URL (default [] url) with
        | Throw e => (Throw e, [])
        | Normal pathname =>
            let isInternalLink := test myshopify_re (default [] url) in
            let parsedItem below :=
              if isInternalLink then
                {| item_fields := fields; item_url := url; item_type := type;
                   isExternal := false;
                   target := lit "_self";
                   to := Utils.resolveToFromType native_text
                           (Some {| Utils.type := type;
                                    Utils.customPrefixes := customPrefixes;
                                    Utils.pathname := Some pathname |});
                   enhanced_items := below |}
              else
                {| item_fields := fields; item_url := url; item_type := type;
                   isExternal := true;
                   target := lit "_blank";
                   to := default [] url;
                   enhanced_items := below |} in
            match items with
            | None => (Normal (Some (parsedItem None)), [])
            | Some below =>
                match map_effect (parseItem customPrefixes) below with
                | (Normal below', warned) =>
                    (Normal (Some (parsedItem (Some below'))), warned)
                | (Throw e, warned) => (Throw e, warned)
                end
            end
        end
  end.

Definition parseMenu (menu : option Menu) (customPrefixes : gmap text text)
  : effect ParsedMenu :=
  match menu ≫= menu_items with
  | None => (Normal (Unchanged menu), [lit "Invalid menu passed to parseMenu"])
  | Some items =>
      match map_effect (parseItem customPrefixes) items with
      | (Normal items', warned) =>
          (Normal (EnhancedMenu (default ∅ (menu_fields <$> menu)) items'),
           warned)
      | (Throw e, warned) => (Throw e, warned)
      end
  end.

End ParseMenu.

(** A link to the shop, a link to another site with an item without a url
    below it, and the menu made of the two. *)
Definition shirts_item : MenuItem :=
  {| fields := {[ lit "title" := lit "Shirts" ]};
     url := Some (lit "https://snow.myshopify.com/collections/shirts");
     type := Some (lit "COLLECTION");
     items := Some [] |}.

Definition blog_item : MenuItem :=
  {| fields := {[ lit "title" := lit "Blog" ]};
     url := Some (lit "https://blog.example/");
     type := Some (lit "HTTP");
     items := Some [ {| fields := ∅; url := None;
                        type := Some (lit "HTTP"); items := None |} ] |}.

Definition sample_menu : Menu :=
  {| menu_fields := {[ lit "id" := lit "main" ]};
     menu_items := Some [shirts_item; blog_item] |}.

(** An item whose url has no scheme, and a menu that holds it. *)
Definition relative_item : MenuItem :=
  {| fields := ∅; url := Some (lit "/pages/about");
     type := Some (lit "PAGE"); items := None |}.

Definition broken_menu : Menu :=
  {| menu_fields := ∅;
     menu_items := Some [shirts_item; relative_item; blog_item] |}.

(** A URL parser good enough for the sample: what follows the host of an
    https url; anything else is refused. *)
Definition sample_new_URL (u : text) : completion text :=
  if UtilsMore.starts_with (lit "https://") u then
    let rest := drop 8 u in
    Normal (drop (length (span (λ c, negb (c =? slash)%N) rest).1) rest)
  else Throw (lit "TypeError: Invalid URL").

End Menu.
(** ** packages/hydrogen/src/routing/redirect.ts *)

Module Redirect.
Import JS.

Record Response := {
  status : Z;
  body : option text;
  headers : gmap text text;      (* header names in lower case *)
}.

(** *** Header values

    The constructors of [Headers] and [Response] and [Headers.set] take a
    header value as the Fetch standard defines it: the string is first read
    as a byte string, which raises a TypeError when a code unit lies above
    255; leading and trailing HTTP whitespace is stripped; and what is left
    must hold no NUL, line feed or carriage return, else a TypeError is
    raised. *)

(** Tab, line feed, carriage return and space. *)
Definition http_whitespace (c : N) : bool :=
  ((c =? 9) || (c =? 10) || (c =? 13) || (c =? 32))%N.

Fixpoint strip_leading (s : text) : text :=
  match s with
  | c :: rest => if http_whitespace c then strip_leading rest else s
  | [] => []
  end.

Definition normalize (s : text) : text :=
  reverse (strip_leading (reverse (strip_leading s))).

Definition is_byte_string (s : text) : bool :=
  forallb (λ c, (c <=? 255)%N) s.

Definition is_header_value (s : text) : bool :=
  forallb (λ c, negb ((c =? 0) || (c =? 10) || (c =? 13))%N) s.

Record UrlRedirect := { target : option text }.
Record UrlRedirectEdge := { node : option UrlRedirect }.
Record UrlRedirectConnection := {
  edges : option (list (option UrlRedirectEdge));
}.
Record RedirectsData := { urlRedirects : option UrlRedirectConnection }.

(** [urlRedirects?.edges?.[0]?.node?.target] *)
Definition first_target (data : RedirectsData) : option text :=
  connection ← urlRedirects data;
  edges ← edges connection;
  edge ← mjoin (edges !! 0%nat);
  node ← node edge;
  target node.

(** The Storefront client: [query] resolves to the data or rejects. *)
Record Storefront := {
  getShopifyDomain : text;
  query : text → text → completion RedirectsData;
}.

Record Request := { url : text }.
Record URL := { pathname : text; search : text }.

Record StorefrontRedirect := {
  storefront : Storefront;
  request : Request;
  response : option Response;
  noAdminRedirect : option bool;
}.

Definition REDIRECT_QUERY : text :=
  lit "#graphql
  query redirects($query: String) {
    urlRedirects(first: 1, query: $query) {
      edges {
        node {
          target
        }
      }
    }
  }
".

(** A line written by [console.error]: the message and the error. *)
Definition log_entry : Type := text * text.

Section StorefrontRedirect.

(** [new URL(request.url)]; the url of a request is always well formed. *)
Variable new_URL : text → URL.

(** The TypeError the runtime raises for a string that cannot be a header
    value; its message is the runtime's own. *)
Variable TypeError : text → text.

Definition header_value (s : text) : completion text :=
  if is_byte_string s then
    let value := normalize s in
    if is_header_value value then Normal value else Throw (TypeError s)
  else Throw (TypeError s).

(** [redirect(url)] of the Remix server runtime: a response with status 302
    and no body on whose headers [Location] has been set. *)
Definition redirect (url : text) : completion Response :=
  match header_value url with
  | Normal value =>
      Normal {| status := 302; body := None;
                headers := {[ lit "location" := value ]} |}
  | Throw error => Throw error
  end.

(** [new Response(null, {status: 301, headers: {location}})] *)
Definition moved_permanently (location : text) : completion Response :=
  match header_value location with
  | Normal value =>
      Normal {| status := 301; body := None;
                headers := {[ lit "location" := value ]} |}
  | Throw error => Throw error
  end.

(** [getRedirectUrl] of [utils/get-redirect-url]: the target named in
    the query string of the request, if any. *)
Variable getRedirectUrl : text → completion (option text).

(** [new Response('Not Found', {status: 404})]: a body given as a string
    sets the content type. *)
Definition not_found : Response :=
  {| status := 404; body := Some (lit "Not Found");
     headers := {[ lit "content-type" := lit "text/plain;charset=UTF-8" ]} |}.

Definition truthy_text (o : option text) : bool :=
  match o with
  | Some s => negb (bool_decide (s = []))
  | None => false
  end.

(** A [return] inside the [try] block, unless building the response
    throws. *)
Definition returning (built : completion Response)
  : completion (option Response) :=
  match built with
  | Normal found => Normal (Some found)
  | Throw error => Throw error
  end.

(** The body of the [try] block: [Normal (Some r)] returns [r] from the
    function, [Normal None] falls out of the block, [Throw] enters the
    [catch] block. *)
Definition lookup_redirect (options : StorefrontRedirect) (redirectFrom : text)
  : completion (option Response) :=
  match query (storefront options) REDIRECT_QUERY (lit "path:" ++ redirectFrom) with
  | Throw error => Throw error
  | Normal data =>
      let location := first_target data in
      if truthy_text location then
        returning (moved_permanently (default [] location))
      else
        match getRedirectUrl (url (request options)) with
        | Throw error => Throw error
        | Normal redirectTo =>
            if truthy_text redirectTo
            then returning (redirect (default [] redirectTo))
            else Normal None
        end
  end.

(** The result of the call and what it wrote to the console.  The redirect
    to the admin page is built outside the [try] block: if that throws, the
    call throws. *)
Definition storefrontRedirect (options : StorefrontRedirect)
  : completion Response * list log_entry :=
  let response := default not_found (response options) in
  let '{| pathname := pathname; search := search |} :=
    new_URL (url (request options)) in
  let redirectFrom := pathname ++ search in
  if bool_decide (pathname = lit "/admin")
     && negb (default false (noAdminRedirect options))
  then
    (redirect (getShopifyDomain (storefront options) ++ lit "/admin"), [])
  else
    match lookup_redirect options redirectFrom with
    | Normal (Some found) => (Normal found, [])
    | Normal None => (Normal response, [])
    | Throw error =>
        (Normal response,
         [(lit "Failed to fetch redirects from Storefront API for route "
             ++ redirectFrom, error)])
    end.

(** The request is not sent to the admin page: its path is not [/admin],
    or the admin redirect is switched off. *)
Definition looks_up (options : StorefrontRedirect) : Prop :=
  pathname (new_URL (url (request options))) ≠ lit "/admin"
  ∨ noAdminRedirect options = Some true.

(** The path and query string the redirect is looked up for. *)
Definition redirectFrom (options : StorefrontRedirect) : text :=
  let u := new_URL (url (request options)) in pathname u ++ search u.

End StorefrontRedirect.

(** A request for [/old-page] on a shop that has a redirect to
    [/new-page], and on a shop whose API is down. *)
Definition example_URL (_ : text) : URL :=
  {| pathname := lit "/old-page"; search := [] |}.

Definition example_options (answer : completion RedirectsData)
  : StorefrontRedirect :=
  {| storefront := {| getShopifyDomain := lit "https://shop.example";
                      query := λ _ _, answer |};
     request := {| url := lit "https://shop.example/old-page" |};
     response := None;
     noAdminRedirect := None |}.

Definition redirect_to (location : text) : RedirectsData :=
  {| urlRedirects :=
       Some {| edges :=
                 Some [Some {| node := Some {| target := Some location |} |}] |} |}.

Definition example_data : RedirectsData := redirect_to (lit "/new-page").


(** How the examples name the TypeError of the runtime. *)
Definition example_TypeError (s : text) : text :=
  lit "TypeError: invalid header value: " ++ s.


End Redirect.

(** ** The local starter-template flow: setupLocalStarterTemplate *)

Module Local.
Import JS JSRegExp.

Inductive TemplateAction := Mock | Link.
Inductive Language := JavaScript | TypeScript.

#[global] Instance TemplateAction_eq_dec : EqDecision TemplateAction.
Proof. solve_decision. Defined.

Record StorefrontInfo := { title : text; shop : text }.

Record Project := {
  name : text;
  directory : text;
  storefrontTitle : option text;
}.

(** *** The rewrite of package.json *)

Section PackageJson.

(** [hyphenate] of the CLI kit (lower-case words joined by hyphens) and
    its [joinPath]. *)
Variable hyphenate : text → text.
Variable joinPath : text → text → text.

(** The opening of the field: the quoted key [name], a colon, a space and
    the quote that opens the value. *)
Definition name_key : text :=
  [dquote] ++ lit "name" ++ [dquote] ++ lit ": " ++ [dquote].

Definition not_quote (c : N) : bool := negb (c =? dquote)%N.

(** The pattern of the replacer: that opening, one or more characters
    other than a quote, and a closing quote. *)
Definition name_field_re : regexp :=
  {| atoms := literal name_key
              ++ [Atom not_quote OneOrMore]
              ++ literal [dquote];
     at_end := false;
     groups := [];
     global := false |}.

(** [hyphenate(storefrontInfo?.title ?? project.name)] *)
Definition package_name (storefrontInfo : option StorefrontInfo)
    (project : Project) : text :=
  hyphenate (default (name project) (title <$> storefrontInfo)).

(** The replacer passed to [replaceFileContent]. *)
Definition rename_package (storefrontInfo : option StorefrontInfo)
    (project : Project) (content : text) : text :=
  replace name_field_re
    (name_key ++ package_name storefrontInfo project ++ [dquote]) content.


(** The field as it stands in the file, for a given value. *)
Definition name_field (value : text) : text := name_key ++ value ++ [dquote].


End PackageJson.

(** *** The background work and the main flow

    The function starts asynchronous steps and chains them with [then];
    meanwhile the main flow goes from prompt to prompt.  A run is the
    sequence of what happened, newest event first. *)

Inductive step :=
| CreateStorefront | WaitForJob
| CopyTemplate | GenerateProjectEntries
| ReplacePackageJson | SetUserAccount | SetStorefront | WriteEnv
| TranspileProject | CreateInitialCommit
| SetupCss | CommitCss
| InstallDeps | CreateShortcut
| SetupI18n | CommitI18n | SetupRoutes | CommitRoutes.

#[global] Instance step_eq_dec : EqDecision step.
Proof. solve_decision. Defined.

Definition all_steps : list step :=
  [ CreateStorefront; WaitForJob; CopyTemplate; GenerateProjectEntries;
    ReplacePackageJson; SetUserAccount; SetStorefront; WriteEnv;
    TranspileProject; CreateInitialCommit; SetupCss; CommitCss;
    InstallDeps; CreateShortcut; SetupI18n; CommitI18n; SetupRoutes;
    CommitRoutes ].

(** What becomes of a rejection.  [Fatal]: the promise has [.catch(abort)].
    [Recorded]: a [try]/[catch] or [.catch] stores the error in the summary.
    [Propagated]: nothing catches it and the chain stays rejected. *)
Inductive policy := Fatal | Recorded | Propagated.

#[global] Instance policy_eq_dec : EqDecision policy.
Proof. solve_decision. Defined.

Definition on_failure (s : step) : policy :=
  match s with
  | CreateStorefront | WaitForJob | CopyTemplate | GenerateProjectEntries
  | ReplacePackageJson | SetUserAccount | SetStorefront | WriteEnv
  | TranspileProject | SetupCss => Fatal
  | InstallDeps | SetupI18n | CommitI18n | SetupRoutes | CommitRoutes =>
      Recorded
  | CreateInitialCommit | CommitCss | CreateShortcut => Propagated
  end.

(** Points the main flow passes: each prompt answered, [renderTasks]
    resolved or rejected, the lockfile commit, the final summary. *)
Inductive main_event :=
| Located | ReturnedEarly
| LanguageChosen | CssChosen | DepsChosen | ShortcutChosen | ScaffoldChosen
| TasksRendered | TasksFailed (error : text)
| LockfileCommitted | LockfileFailed (error : text)
| ProjectReady.

#[global] Instance main_event_eq_dec : EqDecision main_event.
Proof. solve_decision. Defined.

Inductive event :=
| Main (m : main_event)
| Start (s : step)
| Resolve (s : step)
| Reject (s : step) (error : text).

#[global] Instance event_eq_dec : EqDecision event.
Proof. solve_decision. Defined.

Abbreviation history := (list event).

(** The options the function reads itself. *)
Record InitOptions := {
  mockShop : bool;
  i18n_option : option text;
  routes_option : option bool;
}.

(** What the user and the helpers of [common.js] answer during one run. *)
Record Session := {
  options : InitOptions;
  selectedAction : TemplateAction;     (* 'Connect to Shopify' *)
  linkedStorefront : StorefrontInfo;   (* handleStorefrontLink *)
  location : option Project;           (* handleProjectLocation *)
  storefrontJob : bool;                (* createStorefront gave a jobId *)
  chosenLanguage : Language;           (* handleLanguage *)
  chosenCss : option text;             (* handleCssStrategy *)
  chosenPackageManager : text;         (* handleDependencies *)
  shouldInstallDeps : bool;
  offersShortcut : bool;               (* handleCliShortcut: createShortcut *)
  shortcutCreated : bool;              (* what createShortcut() resolves to *)
  confirmsScaffold : bool;             (* 'scaffold routes ...?' *)
  chosenI18n : text;                   (* handleI18n *)
  chosenRoutes : bool;                 (* handleRouteGeneration *)
}.

Definition templateAction (sess : Session) : TemplateAction :=
  if mockShop (options sess) then Mock else selectedAction sess.

Definition storefrontInfo (sess : Session) : option StorefrontInfo :=
  match templateAction sess with
  | Link => Some (linkedStorefront sess)
  | Mock => None
  end.

Definition linked (sess : Session) : bool :=
  bool_decide (is_Some (storefrontInfo sess)).

(** [(options.i18n ?? options.routes) !== undefined || (await confirm)] *)
Definition continueWithSetup (sess : Session) : bool :=
  match i18n_option (options sess), routes_option (options sess) with
  | None, None => confirmsScaffold sess
  | _, _ => true
  end.

Section Run.

Variable sess : Session.

Definition happened (e : event) (h : history) : bool := bool_decide (e ∈ h).
Definition passed (m : main_event) (h : history) : bool := happened (Main m) h.
Definition started (s : step) (h : history) : bool := happened (Start s) h.
Definition resolved (s : step) (h : history) : bool := happened (Resolve s) h.

Definition rejected (s : step) (h : history) : bool :=
  existsb (λ e, match e with
                | Reject s' _ => bool_decide (s' = s)
                | _ => false
                end) h.

Definition settled (s : step) (h : history) : bool :=
  resolved s h || rejected s h.

(** Modelled from the spec: the handler made by [createAbortHandler] of
    [common.js], which is not among the sources.  Any failure passed to it
    aborts the whole run: nothing happens after it. *)
Definition aborted (h : history) : bool :=
  existsb (λ e, match e with
                | Reject s _ => bool_decide (on_failure s = Fatal)
                | _ => false
                end) h.

(** The function has returned or thrown. *)
Definition returned (h : history) : bool :=
  existsb (λ e, match e with
                | Main ProjectReady | Main ReturnedEarly
                | Main (TasksFailed _) | Main (LockfileFailed _) => true
                | _ => false
                end) h.

(** [createStorefrontPromise] is fulfilled. *)
Definition storefront_created (h : history) : bool :=
  if storefrontJob sess then resolved WaitForJob h
  else resolved CreateStorefront h.

(** [Promise.all(promises)] is fulfilled. *)
Definition files_written (h : history) : bool :=
  resolved ReplacePackageJson h
  && (if linked sess
      then resolved SetUserAccount h && resolved SetStorefront h
           && resolved WriteEnv h
      else match templateAction sess with
           | Mock => resolved WriteEnv h
           | Link => true
           end).

(** [backgroundWorkPromise] at the time the dependency prompt is answered:
    after the CSS setup, if there is one, else after the initial commit. *)
Definition styled (h : history) : bool :=
  match chosenCss sess with
  | Some _ => resolved CommitCss h
  | None => resolved CreateInitialCommit h
  end.

(** ... and after the shortcut has been dealt with. *)
Definition shortcut_done (h : history) : bool :=
  if offersShortcut sess then resolved CreateShortcut h else styled h.

(** The i18n part of the last callback is over: the error, if any, has
    been caught. *)
Definition i18n_over (h : history) : bool :=
  rejected SetupI18n h || settled CommitI18n h.

Definition routes_over (h : history) : bool :=
  rejected SetupRoutes h || settled CommitRoutes h.

(** The last value of [backgroundWorkPromise] is fulfilled. *)
Definition background_fulfilled (h : history) : bool :=
  if continueWithSetup sess then routes_over h else shortcut_done h.

(** When a step can start: it has been set up by the main flow and the
    promise it is chained to is fulfilled. *)
Definition ready (s : step) (h : history) : bool :=
  match s with
  | CreateStorefront => passed Located h && linked sess
  | WaitForJob => resolved CreateStorefront h && storefrontJob sess
  | CopyTemplate => passed Located h
  | GenerateProjectEntries => resolved CopyTemplate h
  | ReplacePackageJson => resolved GenerateProjectEntries h
  | SetUserAccount => resolved GenerateProjectEntries h && linked sess
  | SetStorefront =>
      resolved GenerateProjectEntries h && linked sess && storefront_created h
  | WriteEnv =>
      resolved GenerateProjectEntries h
      && (linked sess || bool_decide (templateAction sess = Mock))
  | TranspileProject => passed LanguageChosen h && files_written h
  | CreateInitialCommit => resolved TranspileProject h
  | SetupCss =>
      passed CssChosen h && bool_decide (is_Some (chosenCss sess))
      && resolved CreateInitialCommit h
  | CommitCss => resolved SetupCss h
  | InstallDeps => passed DepsChosen h && shouldInstallDeps sess && styled h
  | CreateShortcut =>
      passed ShortcutChosen h && offersShortcut sess && styled h
  | SetupI18n =>
      passed ScaffoldChosen h && continueWithSetup sess && shortcut_done h
  | CommitI18n => resolved SetupI18n h
  | SetupRoutes => started SetupI18n h && i18n_over h
  | CommitRoutes => resolved SetupRoutes h
  end.

(** [renderTasks] awaits the storefront, the background work and the
    installation of the dependencies. *)
Definition tasks_fulfilled (h : history) : bool :=
  (negb (linked sess) || storefront_created h)
  && background_fulfilled h
  && (negb (shouldInstallDeps sess) || settled InstallDeps h).

Definition chain_rejected_with (error : text) (h : history) : bool :=
  existsb (λ e, match e with
                | Reject s error' =>
                    bool_decide (on_failure s = Propagated)
                    && bool_decide (error' = error)
                | _ => false
                end) h.

(** What must have happened for the main flow to pass a point. *)
Definition main_ready (m : main_event) (h : history) : bool :=
  match m with
  | Located => bool_decide (h = []) && bool_decide (is_Some (location sess))
  | ReturnedEarly => bool_decide (h = []) && bool_decide (location sess = None)
  | LanguageChosen => passed Located h
  | CssChosen => passed LanguageChosen h
  | DepsChosen => passed CssChosen h
  | ShortcutChosen => passed DepsChosen h
  | ScaffoldChosen => passed ShortcutChosen h
  | TasksRendered => passed ScaffoldChosen h && tasks_fulfilled h
  | TasksFailed error =>
      passed ScaffoldChosen h && negb (passed TasksRendered h)
      && (negb (linked sess) || storefront_created h)
      && chain_rejected_with error h
  | LockfileCommitted => passed TasksRendered h
  | LockfileFailed _ =>
      passed TasksRendered h && negb (passed LockfileCommitted h)
  | ProjectReady => passed LockfileCommitted h
  end.

Definition enabled (h : history) (e : event) : bool :=
  negb (aborted h) && negb (returned h)
  && match e with
     | Main m => negb (passed m h) && main_ready m h
     | Start s => negb (started s h) && ready s h
     | Resolve s | Reject s _ => started s h && negb (settled s h)
     end.

(** The runs of the function. *)
Fixpoint valid (h : history) : bool :=
  match h with
  | [] => true
  | e :: earlier => valid earlier && enabled earlier e
  end.

(** [before a b h]: in the run [h], whenever [b] happens, [a] has
    happened already. *)
Definition before (a b : event) (h : history) : Prop :=
  ∀ h2 h1, h = h2 ++ b :: h1 → a ∈ h1.

(** A step is under way: started and not settled. *)
Definition running (s : step) (h : history) : Prop :=
  started s h = true ∧ settled s h = false.

(** The steps that write files before the project is transpiled: the copy,
    the project entries and the [promises] of the next callback. *)
Definition file_writes : list step :=
  [CopyTemplate; GenerateProjectEntries; ReplacePackageJson]
  ++ (if linked sess then [SetUserAccount; SetStorefront; WriteEnv]
      else match templateAction sess with
           | Mock => [WriteEnv]
           | Link => []
           end).

(** *** The summary *)

Record SetupSummary := {
  language : Language;
  packageManager : text;
  cssStrategy : option text;
  depsInstalled : bool;
  depsError : option text;
  hasCreatedShortcut : bool;
  i18n : option text;
  i18nError : option text;
  routes : option bool;
  routesError : option text;
}.

Definition initial_summary : SetupSummary :=
  {| language := chosenLanguage sess;
     packageManager := chosenPackageManager sess;
     cssStrategy := chosenCss sess;
     depsInstalled := false;
     depsError := None;
     hasCreatedShortcut := false;
     i18n := None;
     i18nError := None;
     routes := None;
     routesError := None |}.

(** The assignments to [setupSummary], by the event that makes them. *)
Definition record (e : event) (s : SetupSummary) : SetupSummary :=
  match e with
  | Resolve InstallDeps =>
      {| language := language s; packageManager := packageManager s;
         cssStrategy := cssStrategy s; depsInstalled := true;
         depsError := depsError s; hasCreatedShortcut := hasCreatedShortcut s;
         i18n := i18n s; i18nError := i18nError s; routes := routes s;
         routesError := routesError s |}
  | Reject InstallDeps error =>
      {| language := language s; packageManager := packageManager s;
         cssStrategy := cssStrategy s; depsInstalled := depsInstalled s;
         depsError := Some error; hasCreatedShortcut := hasCreatedShortcut s;
         i18n := i18n s; i18nError := i18nError s; routes := routes s;
         routesError := routesError s |}
  | Resolve CreateShortcut =>
      {| language := language s; packageManager := packageManager s;
         cssStrategy := cssStrategy s; depsInstalled := depsInstalled s;
         depsError := depsError s; hasCreatedShortcut := shortcutCreated sess;
         i18n := i18n s; i18nError := i18nError s; routes := routes s;
         routesError := routesError s |}
  | Main ScaffoldChosen =>
      if continueWithSetup sess then
        {| language := language s; packageManager := packageManager s;
           cssStrategy := cssStrategy s; depsInstalled := depsInstalled s;
           depsError := depsError s;
           hasCreatedShortcut := hasCreatedShortcut s;
           i18n := Some (chosenI18n sess); i18nError := i18nError s;
           routes := Some (chosenRoutes sess); routesError := routesError s |}
      else s
  | Reject SetupI18n error | Reject CommitI18n error =>
      {| language := language s; packageManager := packageManager s;
         cssStrategy := cssStrategy s; depsInstalled := depsInstalled s;
         depsError := depsError s; hasCreatedShortcut := hasCreatedShortcut s;
         i18n := i18n s; i18nError := Some error; routes := routes s;
         routesError := routesError s |}
  | Reject SetupRoutes error | Reject CommitRoutes error =>
      {| language := language s; packageManager := packageManager s;
         cssStrategy := cssStrategy s; depsInstalled := depsInstalled s;
         depsError := depsError s; hasCreatedShortcut := hasCreatedShortcut s;
         i18n := i18n s; i18nError := i18nError s; routes := routes s;
         routesError := Some error |}
  | _ => s
  end.

(** The value of [setupSummary] after a run; it exists once the dependency
    prompt has been answered. *)
Fixpoint setupSummary (h : history) : option SetupSummary :=
  match h with
  | [] => None
  | Main DepsChosen :: _ => Some initial_summary
  | e :: earlier => record e <$> setupSummary earlier
  end.

(** The summary handed to [renderProjectReady]. *)
Definition rendered (h : history) : option SetupSummary :=
  if passed ProjectReady h then setupSummary h else None.

(** *** A scheduler: the first event that can happen, failures left out *)

Definition successes : list event :=
  (Main <$> [ Located; LanguageChosen; CssChosen; DepsChosen; ShortcutChosen;
              ScaffoldChosen; TasksRendered; LockfileCommitted; ProjectReady ])
  ++ (Start <$> all_steps) ++ (Resolve <$> all_steps).

Definition next (h : history) : option event :=
  find (enabled h) successes.

(** The only failures of a run are failures of the steps whose errors are
    caught: the installation of the dependencies, the i18n setup, the
    generation of the routes (each with its commit). *)
Definition caught (e : event) : bool :=
  match e with
  | Reject s _ => bool_decide (on_failure s = Recorded)
  | Main (TasksFailed _) | Main (LockfileFailed _) | Main ReturnedEarly =>
      false
  | _ => true
  end.

Definition only_caught (h : history) : bool := forallb caught h.

(** How many of the events of a list have not happened yet. *)
Fixpoint remaining (l : list event) (h : history) : nat :=
  match l with
  | [] => 0
  | e :: l => (if happened e h then 0 else 1) + remaining l h
  end.

Fixpoint run (fuel : nat) (h : history) : history :=
  match fuel with
  | O => h
  | S fuel =>
      match next h with
      | Some e => run fuel (e :: h)
      | None => h
      end
  end.

End Run.

(** *** Notions used to reason about runs *)

(** A condition that stays true as the run goes on. *)
Definition monotone (f : history → bool) : Prop :=
  ∀ e h, f h = true → f (e :: h) = true.

(** A mark left on a step whose starting condition has been looked at. *)
Definition chased (s : step) : Prop := True.

(** The point of the main flow that comes before a given one. *)
Definition previous (m : main_event) : option main_event :=
  match m with
  | LanguageChosen => Some Located
  | CssChosen => Some LanguageChosen
  | DepsChosen => Some CssChosen
  | ShortcutChosen => Some DepsChosen
  | ScaffoldChosen => Some ShortcutChosen
  | TasksRendered | TasksFailed _ => Some ScaffoldChosen
  | LockfileCommitted | LockfileFailed _ => Some TasksRendered
  | ProjectReady => Some LockfileCommitted
  | Located | ReturnedEarly => None
  end.

(** The field of the summary in which the error of a step is kept. *)
Definition error_field (st : step) (s : SetupSummary) : option text :=
  match st with
  | InstallDeps => depsError s
  | SetupI18n | CommitI18n => i18nError s
  | SetupRoutes | CommitRoutes => routesError s
  | _ => None
  end.

(** The place of a step in the chain of [backgroundWorkPromise]: the steps
    of one place are set off by one callback, the callback of the next
    place is chained to them with [then].  The creation of the storefront
    and the installation of the dependencies are not links of the chain. *)
Definition chain_place (s : step) : option nat :=
  match s with
  | CopyTemplate => Some 0
  | GenerateProjectEntries => Some 1
  | ReplacePackageJson | SetUserAccount | SetStorefront | WriteEnv => Some 2
  | TranspileProject => Some 3
  | CreateInitialCommit => Some 4
  | SetupCss => Some 5
  | CommitCss => Some 6
  | CreateShortcut => Some 7
  | SetupI18n => Some 8
  | CommitI18n => Some 9
  | SetupRoutes => Some 10
  | CommitRoutes => Some 11
  | CreateStorefront | WaitForJob | InstallDeps => None
  end.

(** Every step of a place below [k] that has started has settled. *)
Definition links_settled (sess : Session) (k : nat) (h : history) : Prop :=
  ∀ a i, chain_place a = Some i → i < k →
    started a h = true → settled a h = true.

(** *** The filter of the copy of the template *)

(** A letter under the [i] flag: itself or its capital. *)
Definition letter (lower : N) (c : N) : bool :=
  (c =? lower)%N || (c =? lower - 32)%N.

(** [/\/app\//i] *)
Definition app_directory_re : regexp :=
  {| atoms := [ Atom (N.eqb slash) Once; Atom (letter 97) Once;
                Atom (letter 112) Once; Atom (letter 112) Once;
                Atom (N.eqb slash) Once ];
     at_end := false;
     groups := [];
     global := false |}.

(** The [filter] option of [copyWithFilter]: the paths that are copied. *)
Definition copy_filter (filepath : text) : bool :=
  negb (bool_decide (is_Some (search app_directory_re filepath))).

(** *** A sample session

    Sample data from Mock.shop, no styling, no installation, no shortcut;
    the user asks for routes to be scaffolded. *)
Definition mock_session : Session :=
  {| options := {| mockShop := true; i18n_option := None;
                   routes_option := None |};
     selectedAction := Mock;
     linkedStorefront := {| title := []; shop := [] |};
     location := Some {| name := lit "shop"; directory := lit "/work/shop";
                         storefrontTitle := None |};
     storefrontJob := false;
     chosenLanguage := TypeScript;
     chosenCss := None;
     chosenPackageManager := lit "npm";
     shouldInstallDeps := false;
     offersShortcut := false;
     shortcutCreated := false;
     confirmsScaffold := true;
     chosenI18n := lit "subfolders";
     chosenRoutes := true |}.

(** A run of it in which both the i18n setup and the route generation
    fail (oldest event first). *)
Definition failed_scaffold : history :=
  rev [ Main Located; Main LanguageChosen; Main CssChosen; Main DepsChosen;
        Main ShortcutChosen; Main ScaffoldChosen;
        Start CopyTemplate; Resolve CopyTemplate;
        Start GenerateProjectEntries; Resolve GenerateProjectEntries;
        Start ReplacePackageJson; Start WriteEnv;
        Resolve ReplacePackageJson; Resolve WriteEnv;
        Start TranspileProject; Resolve TranspileProject;
        Start CreateInitialCommit; Resolve CreateInitialCommit;
        Start SetupI18n; Reject SetupI18n (lit "EACCES");
        Start SetupRoutes; Reject SetupRoutes (lit "ENOSPC");
        Main TasksRendered; Main LockfileCommitted; Main ProjectReady ].

(** A package.json as the template has it, and its project. *)
Definition sample_project : Project :=
  {| name := lit "shop"; directory := lit "/work/shop";
     storefrontTitle := None |}.

Definition sample_storefront : StorefrontInfo :=
  {| title := lit "Snow Devil"; shop := lit "snow" |}.

Definition sample_package (package : text) : text :=
  lit "{ " ++ name_field package ++ lit ", "
  ++ [dquote] ++ lit "private" ++ [dquote] ++ lit ": true }".

(** A hyphenation good enough for the examples: lower case for letters,
    a hyphen for a space. *)
Definition sample_hyphenate (s : text) : text :=
  (λ c, if (c =? 32)%N then 45%N
        else if (65 <=? c)%N && (c <=? 90)%N then (c + 32)%N else c) <$> s.



(** A session in which the user links a storefront. *)
Definition link_session : Session :=
  {| options := {| mockShop := false; i18n_option := None;
                   routes_option := None |};
     selectedAction := Link;
     linkedStorefront := {| title := lit "Snow Devil"; shop := lit "snow" |};
     location := location mock_session;
     storefrontJob := true;
     chosenLanguage := JavaScript;
     chosenCss := Some (lit "tailwind");
     chosenPackageManager := lit "npm";
     shouldInstallDeps := true;
     offersShortcut := true;
     shortcutCreated := true;
     confirmsScaffold := false;
     chosenI18n := [];
     chosenRoutes := true |}.

(** The sample session with the installation of the dependencies asked
    for. *)
Definition install_session : Session :=
  {| options := options mock_session;
     selectedAction := Mock;
     linkedStorefront := linkedStorefront mock_session;
     location := location mock_session;
     storefrontJob := false;
     chosenLanguage := TypeScript;
     chosenCss := None;
     chosenPackageManager := lit "npm";
     shouldInstallDeps := true;
     offersShortcut := false;
     shortcutCreated := false;
     confirmsScaffold := true;
     chosenI18n := lit "subfolders";
     chosenRoutes := true |}.

(** A run of it in which the installation of the dependencies, the i18n
    setup and the generation of the routes fail, stopped right after the
    third failure (oldest event first). *)
Definition failed_steps : history :=
  rev [ Main Located; Main LanguageChosen; Main CssChosen; Main DepsChosen;
        Main ShortcutChosen; Main ScaffoldChosen;
        Start CopyTemplate; Resolve CopyTemplate;
        Start GenerateProjectEntries; Resolve GenerateProjectEntries;
        Start ReplacePackageJson; Start WriteEnv;
        Resolve ReplacePackageJson; Resolve WriteEnv;
        Start TranspileProject; Resolve TranspileProject;
        Start CreateInitialCommit; Resolve CreateInitialCommit;
        Start InstallDeps; Start SetupI18n;
        Reject InstallDeps (lit "ETIMEDOUT");
        Reject SetupI18n (lit "EACCES");
        Start SetupRoutes; Reject SetupRoutes (lit "ENOSPC") ].
(** The sample session again, with a first commit that git refuses. *)
Definition failed_commit : history :=
  rev [ Main Located; Start CopyTemplate; Resolve CopyTemplate;
        Start GenerateProjectEntries; Resolve GenerateProjectEntries;
        Start ReplacePackageJson; Start WriteEnv;
        Resolve ReplacePackageJson; Resolve WriteEnv;
        Main LanguageChosen;
        Start TranspileProject; Resolve TranspileProject;
        Start CreateInitialCommit; Reject CreateInitialCommit (lit "EPERM") ].

(** A session in which the user gives no location for the project. *)
Definition lost_session : Session :=
  {| options := options mock_session;
     selectedAction := Mock;
     linkedStorefront := linkedStorefront mock_session;
     location := None;
     storefrontJob := false;
     chosenLanguage := TypeScript;
     chosenCss := None;
     chosenPackageManager := lit "npm";
     shouldInstallDeps := false;
     offersShortcut := false;
     shortcutCreated := false;
     confirmsScaffold := false;
     chosenI18n := [];
     chosenRoutes := false |}.

End Local.
(** ** Properties of the matcher *)

Module JSRegExpFacts.
Import JS JSRegExp.

Lemma run_split p s : ∃ run rest, s = run ++ rest ∧ all p run ∧ stops p rest.
Proof.
  induction s as [|c s (run & rest & -> & Hrun & Hrest)].
  - exists [], []. by repeat split.
  - destruct (p c) eqn:Hc.
    + exists (c :: run), rest. split; [done|]. split; [by constructor|done].
    + exists [], (c :: run ++ rest). by repeat split.
Qed.

Lemma run_unique p run rest run' rest' :
  run ++ rest = run' ++ rest' →
  all p run → all p run' → stops p rest → stops p rest' →
  run = run' ∧ rest = rest'.
Proof.
  revert run'. induction run as [|c run IH]; intros [|c' run'] Heq Hr Hr' Hs Hs';
    simpl in *; subst; try done.
  - apply Forall_cons in Hr' as [Hc _]. simpl in Hs. congruence.
  - apply Forall_cons in Hr as [Hc _]. simpl in Hs'. congruence.
  - injection Heq as -> Heq.
    apply Forall_cons in Hr as [_ Hr]. apply Forall_cons in Hr' as [_ Hr'].
    by destruct (IH run' Heq Hr Hr' Hs Hs') as [-> ->].
Qed.

(** What a successful greedy loop returns. *)
Lemma greedy_sound p k s run segs :
  greedy p k s = Some (run, segs) →
  ∃ rest, s = run ++ rest ∧ all p run ∧ k rest = Some segs.
Proof.
  revert run. induction s as [|c s IH]; intros run; simpl.
  - destruct (k []) eqn:Hk; intros [= <- <-]. by exists [].
  - destruct (p c) eqn:Hc.
    + destruct (greedy p k s) as [[run' segs']|] eqn:Hg.
      * intros [= <- <-]. destruct (IH _ eq_refl) as (rest & -> & Hrun & Hk).
        exists rest. split; [done|]. split; [by constructor|done].
      * destruct (k (c :: s)) eqn:Hk; intros [= <- <-]. by exists (c :: s).
    + destruct (k (c :: s)) eqn:Hk; intros [= <- <-]. by exists (c :: s).
Qed.

(** When the continuation cannot start with a character of the class, only
    the longest run can lead to a match. *)
Lemma greedy_maximal p k run rest :
  all p run →
  (∀ c r, p c = true → k (c :: r) = None) →
  stops p rest →
  greedy p k (run ++ rest) = (λ segs, (run, segs)) <$> k rest.
Proof.
  intros Hrun Hk Hrest. induction Hrun as [|c run Hc _ IH]; simpl.
  - destruct rest as [|c r]; [done|]. simpl in *. by rewrite Hrest.
  - rewrite Hc, IH. destruct (k rest); simpl; [done|]. by rewrite Hk.
Qed.

(** The equations of [match_here]. *)
Lemma match_here_once p ats e c s :
  match_here (Atom p Once :: ats) e (c :: s)
  = if p c then (λ segs, [c] :: segs) <$> match_here ats e s else None.
Proof. done. Qed.

Lemma match_here_plus p ats e c s :
  match_here (Atom p OneOrMore :: ats) e (c :: s)
  = if p c
    then (λ '(seg, segs), (c :: seg) :: segs)
           <$> greedy p (match_here ats e) s
    else None.
Proof. done. Qed.

Lemma match_here_star p ats e s :
  match_here (Atom p ZeroOrMore :: ats) e s
  = (λ '(seg, segs), seg :: segs) <$> greedy p (match_here ats e) s.
Proof. done. Qed.

(** A match covers a prefix of the text. *)
Lemma match_here_prefix ats e s segs :
  match_here ats e s = Some segs → ∃ post, s = concat segs ++ post.
Proof.
  revert s segs. induction ats as [|a ats IH]; intros s segs; simpl.
  - destruct e; [destruct s|]; intros [= <-]; by eexists.
  - destruct (quant a).
    + destruct s as [|c s]; [done|]. destruct (accepts a c); [|done].
      destruct (match_here ats e s) as [segs'|] eqn:Hm; intros [= <-].
      destruct (IH _ _ Hm) as [post ->]. by exists post.
    + destruct s as [|c s]; [done|]. destruct (accepts a c); [|done].
      destruct (greedy _ _ s) as [[run segs']|] eqn:Hg; intros [= <-].
      destruct (greedy_sound _ _ _ _ _ Hg) as (rest & -> & _ & Hm).
      destruct (IH _ _ Hm) as [post ->]. exists post.
      simpl. by rewrite <-!app_assoc.
    + destruct (greedy _ _ s) as [[run segs']|] eqn:Hg; intros [= <-].
      destruct (greedy_sound _ _ _ _ _ Hg) as (rest & -> & _ & Hm).
      destruct (IH _ _ Hm) as [post ->]. exists post.
      simpl. by rewrite <-!app_assoc.
Qed.

(** [search] returns a match, and the leftmost one. *)
Lemma search_sound r s pre segs post :
  search r s = Some (pre, segs, post) →
  s = pre ++ concat segs ++ post
  ∧ match_here (atoms r) (at_end r) (concat segs ++ post) = Some segs
  ∧ ∀ p1 p2, pre = p1 ++ p2 → p2 ≠ [] →
      match_here (atoms r) (at_end r) (p2 ++ concat segs ++ post) = None.
Proof.
  revert pre. induction s as [|c s IH]; intros pre; simpl.
  - destruct (match_here _ _ []) as [segs'|] eqn:Hm; [|done].
    intros [= <- <- <-].
    destruct (match_here_prefix _ _ _ _ Hm) as [post Hpost].
    symmetry in Hpost. apply app_eq_nil in Hpost as [Hc ->].
    simpl. rewrite Hc. simpl. repeat split; [done|].
    intros [|??] [|??]; done.
  - destruct (match_here _ _ (c :: s)) as [segs'|] eqn:Hm.
    + intros [= <- <- <-].
      destruct (match_here_prefix _ _ _ _ Hm) as [post Hpost].
      assert (drop (length (concat segs')) (c :: s) = post) as ->.
      { rewrite Hpost. apply drop_app_length. }
      rewrite <-Hpost. simpl. repeat split; [done|].
      intros [|??] [|??]; done.
    + destruct (search r s) as [[[pre' segs'] post']|] eqn:Hs; [|done].
      intros [= <- <- <-].
      destruct (IH _ eq_refl) as (-> & Hm' & Hleft).
      repeat split; [done|].
      intros [|c' p1] p2 Heq Hne; simpl in Heq.
      * subst p2. simpl. exact Hm.
      * injection Heq as -> ->. by apply (Hleft p1).
Qed.

Lemma search_none r s :
  search r s = None →
  ∀ p1 p2, s = p1 ++ p2 → match_here (atoms r) (at_end r) p2 = None.
Proof.
  induction s as [|c s IH]; simpl.
  - destruct (match_here _ _ []) eqn:Hm; [done|].
    intros _ [|??] [|??]; done.
  - destruct (match_here _ _ (c :: s)) eqn:Hm; [done|].
    destruct (search r s) as [[[??]?]|] eqn:Hs; [done|]. intros _.
    intros [|c' p1] p2; simpl.
    + by intros <-.
    + intros [= <- ->]. by eapply IH.
Qed.

(** A replacement string without [$] stands for itself. *)
Lemma substitute_plain template before matched after caps :
  dollar ∉ template →
  substitute template before matched after caps = template.
Proof.
  induction template as [|c t IH]; intros Hd; simpl; [done|].
  apply not_elem_of_cons in Hd as [Hc Ht].
  destruct (N.eqb_spec c dollar); [congruence|]. simpl. by rewrite IH.
Qed.

(** Literal atoms match exactly their text. *)
Lemma match_literal key ats e s :
  match_here (literal key ++ ats) e (key ++ s)
  = (λ segs, ((λ c, [c]) <$> key) ++ segs) <$> match_here ats e s.
Proof.
  induction key as [|c key IH]; simpl.
  - by destruct (match_here ats e s).
  - rewrite N.eqb_refl, IH. by destruct (match_here ats e s).
Qed.

Lemma match_literal_inv key ats e s segs :
  match_here (literal key ++ ats) e s = Some segs →
  ∃ s' segs', s = key ++ s' ∧ match_here ats e s' = Some segs'
              ∧ segs = ((λ c, [c]) <$> key) ++ segs'.
Proof.
  revert s segs. induction key as [|c key IH]; intros s segs; simpl.
  - intros Hm. by exists s, segs.
  - destruct s as [|c' s]; [done|].
    destruct (N.eqb_spec c c') as [<-|]; [|done].
    destruct (match_here _ _ s) as [segs0|] eqn:Hm; intros [= <-].
    destruct (IH _ _ Hm) as (s' & segs' & -> & Hm' & ->).
    by exists s', segs'.
Qed.

Lemma concat_singletons (key : text) : concat ((λ c, [c]) <$> key) = key.
Proof. induction key as [|c key IH]; simpl; [done|]. by f_equal. Qed.

End JSRegExpFacts.

(** ** Properties of app/lib/utils.ts *)

Module UtilsFacts.
Import JS Utils.

Lemma split_nonempty sep s : split sep s ≠ [].
Proof.
  destruct s as [|c s]; simpl; [done|].
  destruct (c =? sep)%N; [done|]. by destruct (split sep s).
Qed.

Lemma split_no_sep sep s : sep ∉ s → split sep s = [s].
Proof.
  induction s as [|c s IH]; intros Hs; simpl; [done|].
  apply not_elem_of_cons in Hs as [Hc Hs].
  destruct (N.eqb_spec c sep); [congruence|]. by rewrite IH.
Qed.

(** Splitting at the last separator: the final segment is what follows it. *)
Lemma split_snoc sep pre h :
  sep ∉ h → split sep (pre ++ sep :: h) = split sep pre ++ [h].
Proof.
  intros Hh. induction pre as [|c pre IH]; simpl.
  - by rewrite N.eqb_refl, split_no_sep.
  - destruct (c =? sep)%N; rewrite IH; [done|].
    pose proof (split_nonempty sep pre). by destruct (split sep pre).
Qed.

Lemma pop_snoc {A} (l : list A) x : pop (l ++ [x]) = (Some x, l).
Proof. unfold pop. by rewrite last_snoc, removelast_last. Qed.

Lemma handle_or_empty (h : text) :
  (if truthy (of_option (Some h)) then default [] (Some h) else []) = h.
Proof. simpl. case_bool_decide; simpl; congruence. Qed.

Section Resolve.
Variable native_text : text → text.

(** The switch of [resolveToFromType], once the handle has been popped. *)
Lemma resolve_plain_unfold pre h ty parts blog :
  slash ∉ h →
  split slash pre = parts ++ [blog] →
  lit ty ≠ [] →
  resolve_plain native_text (pre ++ slash :: h) ty =
    let routePrefix := (∅ : gmap text text) ∪ defaultPrefixes in
    if bool_decide (lit ty = lit "FRONTPAGE") then [slash]
    else if bool_decide (lit ty = lit "ARTICLE") then
      [slash] ++ interpolate native_text (get routePrefix (lit "BLOG")) ++ [slash]
        ++ blog ++ [slash] ++ h ++ [slash]
    else if bool_decide (lit ty = lit "COLLECTIONS") then
      [slash] ++ interpolate native_text (get routePrefix (lit "COLLECTIONS"))
    else if bool_decide (lit ty = lit "SEARCH") then
      [slash] ++ interpolate native_text (get routePrefix (lit "SEARCH"))
    else if bool_decide (lit ty = lit "CATALOG") then
      [slash] ++ interpolate native_text (get routePrefix (lit "CATALOG"))
    else
      let prefix := get routePrefix (lit ty) in
      if truthy prefix
      then [slash] ++ interpolate native_text prefix ++ [slash] ++ h
      else [slash] ++ h.
Proof.
  intros Hh Hparts Hty.
  unfold resolve_plain, resolveToFromType.
  cbn [from_option id pathname type customPrefixes truthy].
  rewrite (bool_decide_eq_false_2 (pre ++ slash :: h = [])) by (by destruct pre).
  rewrite (bool_decide_eq_false_2 (lit ty = [])) by done.
  cbn [negb orb].
  rewrite split_snoc, pop_snoc, handle_or_empty by done.
  rewrite Hparts, pop_snoc.
  cbn zeta.
  repeat case_bool_decide; try done.
Qed.

Lemma split_last sep s : ∃ parts final, split sep s = parts ++ [final].
Proof.
  pose proof (split_nonempty sep s) as Hne.
  destruct (split sep s) as [|x l] using rev_ind; [done|]. eauto.
Qed.

Ltac resolve_known :=
  match goal with
  | Hh : slash ∉ ?h, Hp : split slash ?pre = _ |- _ =>
      rewrite (resolve_plain_unfold _ _ _ _ _ Hh Hp) by done; by vm_compute
  end.

(** C5: with no custom prefixes and a pathname ending in [/handle], every
    known menu item type resolves to its expected path. *)
Theorem resolveToFromType_known_types (pre handle : text) :
  slash ∉ handle →
  let to := resolve_plain native_text (pre ++ slash :: handle) in
  to "PRODUCT" = lit "/products/" ++ handle
  ∧ to "FRONTPAGE" = lit "/"
  ∧ to "COLLECTIONS" = lit "/collections"
  ∧ to "SEARCH" = lit "/search"
  ∧ to "CATALOG" = lit "/collections/all"
  ∧ to "BLOG" = lit "/blogs/" ++ handle
  ∧ to "PAGE" = lit "/pages/" ++ handle
  ∧ to "COLLECTION" = lit "/collections/" ++ handle
  ∧ to "SHOP_POLICY" = lit "/policies/" ++ handle
  ∧ (∀ pre' blog, slash ∉ blog → pre = pre' ++ slash :: blog →
       to "ARTICLE" = lit "/blogs/" ++ blog ++ [slash] ++ handle ++ [slash]).
Proof.
  intros Hh to. subst to.
  destruct (split_last slash pre) as (parts & final & Hparts).
  repeat split; try resolve_known.
  intros pre' blog Hblog ->.
  rewrite (resolve_plain_unfold _ _ "ARTICLE" (split slash pre') blog Hh)
    by (by apply split_snoc || done).
  by vm_compute.
Qed.


(** *** resolveToFromType beyond the known types *)

(** The switch of [resolveToFromType] in terms of the segments of the
    pathname: [final] is the last one, [parts] are those before it. *)
Lemma resolve_split custom p ty parts final :
  p ≠ [] → ty ≠ [] → split slash p = parts ++ [final] →
  resolveToFromType native_text
    (Some {| customPrefixes := custom; pathname := Some p; type := Some ty |})
  = let routePrefix := custom ∪ defaultPrefixes in
    if bool_decide (ty = lit "FRONTPAGE") then [slash]
    else if bool_decide (ty = lit "ARTICLE") then
      let blog := get routePrefix (lit "BLOG") in
      if truthy blog
      then [slash] ++ interpolate native_text blog ++ [slash]
           ++ interpolate native_text (of_option (last parts)) ++ [slash]
           ++ final ++ [slash]
      else [slash] ++ interpolate native_text (of_option (last parts))
           ++ [slash] ++ final ++ [slash]
    else if bool_decide (ty = lit "COLLECTIONS") then
      [slash] ++ interpolate native_text (get routePrefix (lit "COLLECTIONS"))
    else if bool_decide (ty = lit "SEARCH") then
      [slash] ++ interpolate native_text (get routePrefix (lit "SEARCH"))
    else if bool_decide (ty = lit "CATALOG") then
      [slash] ++ interpolate native_text (get routePrefix (lit "CATALOG"))
    else
      let prefix := get routePrefix ty in
      if truthy prefix
      then [slash] ++ interpolate native_text prefix ++ [slash] ++ final
      else [slash] ++ final.
Proof.
  intros Hp Hty Hparts. unfold resolveToFromType.
  cbn [from_option id pathname type customPrefixes truthy].
  rewrite (bool_decide_eq_false_2 (p = [])) by done.
  rewrite (bool_decide_eq_false_2 (ty = [])) by done.
  cbn [negb orb].
  rewrite Hparts, pop_snoc, handle_or_empty.
  unfold pop. cbn zeta.
  repeat case_bool_decide; try done.
Qed.

(** X1: the result is the empty string exactly when the argument, the
    pathname or the type is missing or empty; every other result starts
    with a slash. *)
Theorem resolveToFromType_empty_or_absolute args :
  let missing :=
    ∀ a, args = Some a →
      pathname a = None ∨ pathname a = Some [] ∨ type a = None
      ∨ type a = Some [] in
  (resolveToFromType native_text args = [] ↔ missing)
  ∧ (¬ missing →
     ∃ rest, resolveToFromType native_text args = slash :: rest).
Proof.
  intros missing. subst missing.
  assert (∀ a p ty, args = Some a → pathname a = Some p → type a = Some ty →
            p ≠ [] → ty ≠ [] →
            ∃ rest, resolveToFromType native_text args = slash :: rest)
    as Habs.
  { intros [custom ? ?] p ty -> [= ->] [= ->] Hp Hty.
    destruct (split_last slash p) as (parts & final & Hparts).
    rewrite (resolve_split _ _ _ _ _ Hp Hty Hparts). cbn zeta.
    repeat case_bool_decide; try destruct (truthy _); by eexists. }
  destruct args as [[custom [p|] [ty|]]|].
  2-4: split; [split; [intros _ a [= <-]; simpl; by auto | done]|];
       intros Hno; exfalso; apply Hno; intros a [= <-]; simpl; by auto.
  2: { split; [split; [by intros _ a [=] | done]|].
       intros Hno. exfalso. apply Hno. by intros a [=]. }
  destruct (decide (p = [])) as [->|Hp].
  { split; [split; [intros _ a [= <-]; simpl; by auto | done]|].
    intros Hno. exfalso. apply Hno. intros a [= <-]. simpl. by auto. }
  destruct (decide (ty = [])) as [->|Hty].
  { split.
    - split; [intros _ a [= <-]; simpl; by auto|]. intros _.
      unfold resolveToFromType. simpl.
      rewrite (bool_decide_eq_false_2 (p = [])) by done. done.
    - intros Hno. exfalso. apply Hno. intros a [= <-]. simpl. by auto. }
  destruct (Habs _ p ty eq_refl eq_refl eq_refl Hp Hty) as [rest Hrest].
  split; [|by eauto].
  rewrite Hrest. split; [done|]. intros Hm.
  destruct (Hm _ eq_refl) as [H|[H|[H|H]]]; simpl in H; congruence.
Qed.

(** X2: custom prefixes.  For a pathname ending in [/handle] and a type
    other than FRONTPAGE, ARTICLE, COLLECTIONS, SEARCH and CATALOG: a
    non-empty custom prefix for the type replaces
    the default one; an empty one gives [/handle], as does a type that
    neither table knows and that no object inherits; a type that neither
    table knows and that names a member every object inherits (such as
    [toString]) puts the text of that member into the path.  For COLLECTIONS,
    SEARCH and CATALOG a custom prefix is used as the whole path.  An
    ARTICLE takes the prefix given for BLOG. *)
Theorem resolveToFromType_custom_prefixes custom pre handle ty :
  slash ∉ handle → ty ≠ [] →
  let to :=
    resolveToFromType native_text
      (Some {| customPrefixes := custom;
               pathname := Some (pre ++ slash :: handle);
               type := Some ty |}) in
  (ty ∉ lit <$> ["FRONTPAGE"; "ARTICLE"; "COLLECTIONS"; "SEARCH";
              "CATALOG"]%string →
     (∀ prefix, custom !! ty = Some prefix → prefix ≠ [] →
        to = [slash] ++ prefix ++ [slash] ++ handle)
     ∧ (custom !! ty = Some [] → to = slash :: handle)
     ∧ (custom !! ty = None → defaultPrefixes !! ty = None →
        ty ∉ object_prototype_names → to = slash :: handle)
     ∧ (custom !! ty = None → defaultPrefixes !! ty = None →
        ty ∈ object_prototype_names →
        to = [slash] ++ native_text ty ++ [slash] ++ handle))
  ∧ (ty ∈ lit <$> ["COLLECTIONS"; "SEARCH"; "CATALOG"]%string →
     ∀ prefix, custom !! ty = Some prefix → to = slash :: prefix)
  ∧ (ty = lit "ARTICLE" →
     ∀ prefix pre' blog,
       custom !! lit "BLOG" = Some prefix → prefix ≠ [] →
       slash ∉ blog → pre = pre' ++ slash :: blog →
       to = [slash] ++ prefix ++ [slash] ++ blog ++ [slash] ++ handle
            ++ [slash]).
Proof.
  intros Hh Hty to. subst to.
  assert (pre ++ slash :: handle ≠ []) as Hp by (by destruct pre).
  pose proof (split_snoc slash pre handle Hh) as Hparts.
  rewrite (resolve_split _ _ _ _ _ Hp Hty Hparts). cbn zeta.
  split; [|split].
  - intros Hfixed. simpl in Hfixed.
    repeat (apply not_elem_of_cons in Hfixed as [? Hfixed]).
    rewrite !bool_decide_eq_false_2 by done.
    unfold get. split; [|split; [|split]].
    + intros prefix Hc Hne.
      rewrite (lookup_union_Some_l _ _ _ _ Hc). simpl.
      by rewrite bool_decide_eq_false_2.
    + intros Hc. by rewrite (lookup_union_Some_l _ _ _ _ Hc).
    + intros Hc Hd Hni.
      rewrite (proj2 (lookup_union_None custom defaultPrefixes ty))
        by done.
      by rewrite bool_decide_eq_false_2.
    + intros Hc Hd Hin.
      rewrite (proj2 (lookup_union_None custom defaultPrefixes ty))
        by done.
      by rewrite bool_decide_eq_true_2.
  - intros Hin prefix Hc. simpl in Hin.
    repeat (apply elem_of_cons in Hin as [-> | Hin]);
      [| | |by apply elem_of_nil in Hin];
      unfold get; rewrite (lookup_union_Some_l _ _ _ _ Hc); done.
  - intros -> prefix pre' blog Hc Hne Hblog ->.
    rewrite bool_decide_eq_false_2 by done.
    rewrite bool_decide_eq_true_2 by done.
    unfold get. rewrite (lookup_union_Some_l _ _ _ _ Hc). simpl.
    rewrite bool_decide_eq_false_2 by done. simpl.
    rewrite split_snoc by done. by rewrite last_snoc.
Qed.

(** X3: pathnames that do not have the shape the switch expects.  An
    ARTICLE needs two segments: with one segment after the leading slash
    the blog handle is empty, and with no slash at all it is printed as
    [undefined].  A slash at the end of the pathname makes the handle
    empty and, for an ARTICLE, moves the handle of the article to the place
    of the blog. *)
Theorem resolveToFromType_short_pathname (handle : text) :
  slash ∉ handle → handle ≠ [] →
  resolve_plain native_text (slash :: handle) "ARTICLE"
  = lit "/blogs//" ++ handle ++ [slash]
  ∧ resolve_plain native_text handle "ARTICLE"
    = lit "/blogs/undefined/" ++ handle ++ [slash]
  ∧ (∀ pre, resolve_plain native_text (pre ++ slash :: handle ++ [slash])
              "ARTICLE"
            = lit "/blogs/" ++ handle ++ [slash; slash])
  ∧ (∀ pre, resolve_plain native_text (pre ++ slash :: handle ++ [slash])
              "PRODUCT"
            = lit "/products/").
Proof.
  intros Hh Hne. unfold resolve_plain.
  assert (∀ pre, split slash (pre ++ slash :: handle ++ [slash])
                 = (split slash pre ++ [handle]) ++ [[]]) as Htrail.
  { intros pre.
    replace (pre ++ slash :: handle ++ [slash])
      with ((pre ++ slash :: handle) ++ slash :: []).
    - rewrite split_snoc by (by intros ?%elem_of_nil).
      by rewrite split_snoc.
    - by rewrite <-app_assoc. }
  split; [|split; [|split]].
  - rewrite (resolve_split _ _ _ [[]] handle); [by vm_compute|done|done|].
    apply (split_snoc slash [] handle Hh).
  - rewrite (resolve_split _ _ _ [] handle); [by vm_compute|done|done|].
    by apply split_no_sep.
  - intros pre.
    assert (pre ++ slash :: handle ++ [slash] ≠ []) as Hp by (by destruct pre).
    rewrite (resolve_split ∅ _ (lit "ARTICLE") _ _ Hp ltac:(done) (Htrail pre)).
    rewrite last_snoc. by vm_compute.
  - intros pre.
    assert (pre ++ slash :: handle ++ [slash] ≠ []) as Hp by (by destruct pre).
    rewrite (resolve_split ∅ _ (lit "PRODUCT") _ _ Hp ltac:(done) (Htrail pre)).
    by vm_compute.
Qed.
End Resolve.

(** The example of the specification: type PRODUCT, handle shirt. *)
Lemma resolveToFromType_known_types_witness :
  (slash ∉ lit "shirt")
  ∧ (∀ native_text,
      resolve_plain native_text (lit "/products/shirt") "PRODUCT"
      = lit "/products/shirt").
Proof.
  assert (slash ∉ lit "shirt") as Hh by decide_closed.
  split; [exact Hh|]. intros native_text.
  exact (proj1 (resolveToFromType_known_types native_text
                  (lit "/products") (lit "shirt") Hh)).
Defined.

Example resolve_article native_text :
  resolve_plain native_text (lit "/blogs/news/first-post") "ARTICLE"
  = lit "/blogs/news/first-post/".
Proof. by vm_compute. Qed.

(** *** statusMessage *)

Example translations_size : size translations = 24.
Proof. by vm_compute. Qed.

(** The table lookup never throws, so the [catch] handler never runs. *)
Lemma statusMessage_body_normal status :
  get_optional (Some translations) status = Normal (get translations status).
Proof. done. Qed.

Lemma statusMessage_eq status :
  statusMessage status = Normal (get translations status).
Proof. done. Qed.

Lemma translations_differ (k v : text) : translations !! k = Some v → v ≠ k.
Proof.
  assert (map_Forall (λ k v : text, v ≠ k) translations) as H; [|by apply H].
  decide_closed.
Qed.

(** C10 as stated fails: "constructor" is not a key of the table, yet the
    lookup yields the inherited member, not undefined. *)
Lemma statusMessage_inherited_member :
  translations !! lit "constructor" = None
  ∧ statusMessage (lit "constructor") = Normal (VObject (lit "constructor"))
  ∧ statusMessage (lit "constructor") ≠ Normal VUndefined.
Proof. split; [by vm_compute|]. split; [by vm_compute|]. by vm_compute. Qed.

(** C10 (amended): a status that is neither a key of the table nor the name
    of an inherited member yields undefined; for every status the lookup
    completes normally, so the catch branch is unreachable, and the result
    is never the original status string. *)
Theorem statusMessage_unknown (status : text) :
  (translations !! status = None → status ∉ object_prototype_names →
     statusMessage status = Normal VUndefined)
  ∧ (∃ v, get_optional (Some translations) status = Normal v
          ∧ statusMessage status = Normal v)
  ∧ statusMessage status ≠ Normal (VString status).
Proof.
  rewrite statusMessage_eq. unfold get. repeat split.
  - intros -> Hni. by rewrite bool_decide_eq_false_2.
  - eexists. split; reflexivity.
  - destruct (translations !! status) as [v|] eqn:Hv.
    + intros [=]. by eapply translations_differ.
    + by case_bool_decide.
Qed.

Lemma statusMessage_unknown_witness :
  translations !! lit "RETURNED" = None
  ∧ (lit "RETURNED" ∉ object_prototype_names)
  ∧ statusMessage (lit "RETURNED") = Normal VUndefined.
Proof.
  assert (translations !! lit "RETURNED" = None) as Hk by (by vm_compute).
  assert (lit "RETURNED" ∉ object_prototype_names) as Hn by decide_closed.
  split; [exact Hk|]. split; [exact Hn|].
  exact (proj1 (statusMessage_unknown (lit "RETURNED")) Hk Hn).
Defined.

(** *** formatText *)

Section FormatTextFacts.
Import JSRegExp JSRegExpFacts.

Variable typographicBase : text → text.

Lemma word_char_not_space c : word_char c = true → is_white_space c = false.
Proof. unfold word_char. by destruct (is_white_space c). Qed.

Lemma match_end_rejects c r : match_here [] true (c :: r) = None.
Proof. done. Qed.

Lemma final_word_atoms :
  atoms final_word_re
  = [ Atom is_white_space Once; Atom word_char OneOrMore;
      Atom is_white_space ZeroOrMore ].
Proof. done. Qed.

Lemma match_trailing_space s :
  all is_white_space s →
  match_here [Atom is_white_space ZeroOrMore] true s = Some [s].
Proof.
  intros Hs. rewrite match_here_star.
  rewrite <-(app_nil_r s) at 1.
  by rewrite greedy_maximal.
Qed.

Lemma match_trailing_space_inv s segs :
  match_here [Atom is_white_space ZeroOrMore] true s = Some segs →
  all is_white_space s ∧ segs = [s].
Proof.
  rewrite match_here_star.
  destruct (greedy _ _ s) as [[run segs']|] eqn:Hg; intros [= <-].
  destruct (greedy_sound _ _ _ _ _ Hg) as (rest & -> & Hrun & Hk).
  destruct rest; [|done]. injection Hk as <-. by rewrite app_nil_r.
Qed.

Lemma match_trailing_space_rejects c r :
  word_char c = true →
  match_here [Atom is_white_space ZeroOrMore] true (c :: r) = None.
Proof.
  intros Hc%word_char_not_space.
  destruct (match_here _ _ (c :: r)) as [segs|] eqn:Hm; [|done].
  apply match_trailing_space_inv in Hm as [Hall _].
  apply Forall_cons in Hall as [? _]. congruence.
Qed.

(** What the pattern of [formatText] matches at a given place: one white
    space character, a word free of [<], white space up to the end. *)
Lemma match_final_word w word trail :
  is_white_space w = true → word ≠ [] →
  all word_char word → all is_white_space trail →
  match_here (atoms final_word_re) true (w :: word ++ trail)
  = Some [[w]; word; trail].
Proof.
  intros Hw Hne Hword Htrail.
  destruct word as [|x word]; [done|].
  apply Forall_cons in Hword as [Hx Hword].
  rewrite final_word_atoms. cbn [app].
  rewrite match_here_once, Hw, match_here_plus, Hx.
  rewrite greedy_maximal; [| done | apply match_trailing_space_rejects |].
  - by rewrite match_trailing_space.
  - destruct Htrail as [|c ? Hc _]; [done|]. simpl. unfold word_char.
    by rewrite Hc.
Qed.

Lemma match_final_word_inv s segs :
  match_here (atoms final_word_re) true s = Some segs →
  ∃ w word trail,
    s = w :: word ++ trail ∧ is_white_space w = true ∧ word ≠ []
    ∧ all word_char word ∧ all is_white_space trail
    ∧ segs = [[w]; word; trail].
Proof.
  rewrite final_word_atoms.
  destruct s as [|w s]; [done|]. rewrite match_here_once.
  destruct (is_white_space w) eqn:Hw; [|done].
  destruct s as [|x s]; [done|]. rewrite match_here_plus.
  destruct (word_char x) eqn:Hx; [|done].
  destruct (greedy _ _ s) as [[run segs']|] eqn:Hg; intros [= <-].
  destruct (greedy_sound _ _ _ _ _ Hg) as (rest & -> & Hrun & Hk).
  apply match_trailing_space_inv in Hk as [Hrest ->].
  exists w, (x :: run), rest.
  repeat split; try done. by constructor.
Qed.

(** A text ends in at most one way in "space, word, trailing space". *)
Lemma final_word_unique pre w word trail pre' w' word' trail' :
  pre ++ w :: word ++ trail = pre' ++ w' :: word' ++ trail' →
  is_white_space w = true → is_white_space w' = true →
  word ≠ [] → word' ≠ [] →
  all word_char word → all word_char word' →
  all is_white_space trail → all is_white_space trail' →
  pre = pre' ∧ w = w' ∧ word = word' ∧ trail = trail'.
Proof.
  intros Heq Hw Hw' Hne Hne' Hword Hword' Htrail Htrail'.
  apply (f_equal (@rev N)) in Heq.
  rewrite !rev_app_distr in Heq. simpl in Heq.
  rewrite !rev_app_distr, <-!app_assoc in Heq. simpl in Heq.
  assert (∀ l, all word_char l → all (λ c, negb (is_white_space c)) (rev l))
    as Hrev_word.
  { intros l Hl. apply Forall_rev. eapply Forall_impl; [exact Hl|].
    intros c Hc%word_char_not_space. by rewrite Hc. }
  assert (∀ l : text, l ≠ [] → rev l ≠ []) as Hrev_ne.
  { intros l Hl Hr. apply Hl. by rewrite <-(rev_involutive l), Hr. }
  assert (∀ l v rest, l ≠ [] → all word_char l →
            stops is_white_space (rev l ++ v :: rest)) as Hstop.
  { intros l v rest Hl Hall. specialize (Hrev_word _ Hall).
    specialize (Hrev_ne _ Hl). destruct (rev l) as [|c ?]; [done|].
    apply Forall_cons in Hrev_word as [Hc _]. simpl.
    by destruct (is_white_space c). }
  apply run_unique with (p := is_white_space) in Heq
      as [Ht Heq]; [| by apply Forall_rev | by apply Forall_rev | auto | auto].
  apply run_unique with (p := λ c, negb (is_white_space c)) in Heq
      as [Hwd Heq]; [| auto | auto | simpl; by rewrite Hw | simpl; by rewrite Hw'].
  injection Heq as -> Hp.
  apply (f_equal (@rev N)) in Ht, Hwd, Hp. rewrite !rev_involutive in *. done.
Qed.

Lemma replace_all_nil fuel r template before :
  match_here (atoms r) (at_end r) [] = None →
  replace_all fuel r template before [] = [].
Proof. intros Hm. destruct fuel; simpl; [done|]. by rewrite Hm. Qed.

Lemma substitute_final before matched after seg0 word seg2 :
  substitute (nbsp :: lit "$1") before matched after
    (captures final_word_re [seg0; word; seg2])
  = nbsp :: word.
Proof. cbv -[app]. by rewrite app_nil_r. Qed.

(** The replacement made by [formatText] on a processed text. *)
Lemma format_replace_final pre w word trail :
  is_white_space w = true → word ≠ [] →
  all word_char word → all is_white_space trail →
  replace final_word_re (nbsp :: lit "$1") (pre ++ w :: word ++ trail)
  = pre ++ nbsp :: word.
Proof.
  intros Hw Hne Hword Htrail.
  unfold replace. cbn [global final_word_re replace_all].
  destruct (search final_word_re _) as [[[pre' segs] post]|] eqn:Hs.
  - apply search_sound in Hs as (Heq & Hm & _).
    apply match_final_word_inv in Hm
      as (w' & word' & trail' & Hm & Hw' & Hne' & Hword' & Htrail' & ->).
    rewrite Hm in Heq.
    apply final_word_unique in Heq as (-> & -> & -> & ->); try done.
    assert (post = []) as ->.
    { apply (f_equal length) in Hm. simpl in Hm.
      rewrite !length_app in Hm. simpl in Hm.
      destruct post; [done|]. simpl in Hm. lia. }
    cbn [concat app]. rewrite replace_all_nil by done.
    by rewrite substitute_final, app_nil_r.
  - eapply search_none in Hs; [|reflexivity].
    cbn [at_end final_word_re] in Hs. by rewrite match_final_word in Hs.
Qed.

Lemma format_replace_none t :
  (¬ ∃ pre w word trail,
       t = pre ++ w :: word ++ trail ∧ is_white_space w = true ∧ word ≠ []
       ∧ all word_char word ∧ all is_white_space trail) →
  replace final_word_re (nbsp :: lit "$1") t = t.
Proof.
  intros Hno. unfold replace. cbn [global final_word_re replace_all].
  destruct (search final_word_re _) as [[[pre' segs] post]|] eqn:Hs; [|done].
  exfalso. apply Hno.
  apply search_sound in Hs as (-> & Hm & _).
  apply match_final_word_inv in Hm
    as (w & word & trail & -> & Hw & Hne & Hword & Htrail & _).
  by exists pre', w, word, trail.
Qed.

(** C8 as stated fails: a final word that starts a tag keeps the plain
    space before it, and white space after the final word is dropped. *)
Lemma formatText_keeps_space_before_markup :
  formatText id (NString (lit "a <b")) = NString (lit "a <b")
  ∧ nbsp_before_final_word (lit "a <b") = lit "a" ++ nbsp :: lit "<b"
  ∧ formatText id (NString (lit "a b ")) = NString (lit "a" ++ nbsp :: lit "b")
  ∧ nbsp_before_final_word (lit "a b ") = lit "a" ++ nbsp :: lit "b "
  ∧ ¬ (∀ (typographicBase : text → text) (s : text), s ≠ [] →
         formatText typographicBase (NString s)
         = NString (nbsp_before_final_word (typographicBase s))).
Proof.
  repeat (split; [by vm_compute|]).
  intros H. specialize (H id (lit "a <b") ltac:(done)).
  vm_compute in H. discriminate H.
Qed.

(** C8 (amended): a falsy input gives undefined and any other input that
    is not a string is returned as it is.  For a non-empty string, when the
    processed text ends in a white space character, a word free of [<] and
    optional trailing white space, that one character becomes a
    non-breaking space and the trailing white space is dropped; any other
    processed text is returned unchanged. *)
Theorem formatText_final_word (input : node) :
  (node_truthy input = false → formatText typographicBase input = NUndefined)
  ∧ (node_truthy input = true → (∀ s, input ≠ NString s) →
       formatText typographicBase input = input)
  ∧ (∀ s, input = NString s → s ≠ [] →
       (∀ pre w word trail,
          typographicBase s = pre ++ w :: word ++ trail →
          is_white_space w = true → word ≠ [] →
          all word_char word → all is_white_space trail →
          formatText typographicBase input = NString (pre ++ nbsp :: word))
       ∧ ((¬ ∃ pre w word trail,
             typographicBase s = pre ++ w :: word ++ trail
             ∧ is_white_space w = true ∧ word ≠ []
             ∧ all word_char word ∧ all is_white_space trail) →
          formatText typographicBase input = NString (typographicBase s))).
Proof.
  unfold formatText. split; [|split].
  - by intros ->.
  - intros -> Hns. destruct input; try done. by destruct (Hns s).
  - intros s -> Hs. simpl. rewrite bool_decide_eq_false_2 by done. simpl.
    split.
    + intros pre w word trail -> Hw Hne Hword Htrail.
      by rewrite format_replace_final.
    + intros Hno. by rewrite format_replace_none.
Qed.


(** The replacement of [formatText], applied to its own result, changes
    nothing. *)
Lemma replace_final_again t :
  let r := replace final_word_re (nbsp :: lit "$1") in r (r t) = r t.
Proof.
  intros r. subst r.
  destruct (search final_word_re t) as [[[pre segs] post]|] eqn:Hs.
  - apply search_sound in Hs as (-> & Hm & _).
    apply match_final_word_inv in Hm
      as (w & word & trail & -> & Hw & Hne & Hword & Htrail & _).
    rewrite format_replace_final by done.
    rewrite <-(app_nil_r word) at 1.
    by apply format_replace_final.
  - assert (replace final_word_re (nbsp :: lit "$1") t = t) as Hsame.
    { unfold replace. cbn [global final_word_re replace_all]. by rewrite Hs. }
    by rewrite !Hsame.
Qed.

(** X4: formatting twice is formatting once.  When [formatText] turns a
    string into a non-empty text that [typographicBase] leaves as it is,
    [formatText] leaves that text as it is too: the non-breaking space it
    has put before the final word is found again and put again. *)
Theorem formatText_twice (s u : text) :
  formatText typographicBase (NString s) = NString u →
  typographicBase u = u → u ≠ [] →
  formatText typographicBase (NString u) = NString u.
Proof.
  unfold formatText. simpl.
  case_bool_decide as Hs; simpl; [done|]. intros [= <-] Hfixed Hne.
  rewrite bool_decide_eq_false_2 by done. simpl.
  rewrite Hfixed. f_equal. apply replace_final_again.
Qed.
End FormatTextFacts.

Lemma formatText_final_word_witness :
  formatText id (NString (lit "Free shipping worldwide "))
  = NString (lit "Free shipping" ++ nbsp :: lit "worldwide").
Proof.
  refine (proj1 (proj2 (proj2 (formatText_final_word id _)) _ eq_refl _)
            (lit "Free shipping") 32%N (lit "worldwide") (lit " ")
            eq_refl eq_refl _ _ _); try done.
  - decide_closed.
  - decide_closed.
Defined.

(** *** The calendar *)

Section Calendar.
Import JSDate.
Local Open Scope Z_scope.

Lemma month_of_range d leap : 0 ≤ month_of d leap ≤ 11.
Proof.
  unfold month_of.
  repeat match goal with
         | |- context [if ?b then _ else _] => destruct b
         end; lia.
Qed.

(** The calendar: a year starts when the one before it ends, and the year
    of a day is the year that holds it. *)
Lemma DayFromYear_step y :
  DayFromYear (y + 1) = DayFromYear y + DaysInYear y.
Proof.
  unfold DayFromYear, DaysInYear.
  repeat match goal with
         | |- context [?a =? ?b] => destruct (Z.eqb_spec a b); simpl
         end; Z.div_mod_to_equations; lia.
Qed.

Lemma DaysInYear_range y : 365 ≤ DaysInYear y ≤ 366.
Proof.
  unfold DaysInYear.
  repeat match goal with
         | |- context [if ?b then _ else _] => destruct b
         end; lia.
Qed.

Lemma year_of_day_spec d :
  DayFromYear (year_of_day d) ≤ d < DayFromYear (year_of_day d + 1).
Proof.
  unfold year_of_day.
  set (y := 1970 + (d * 400) `div` 146097).
  assert (DayFromYear (y - 1) ≤ d < DayFromYear (y + 2)) as Hest.
  { subst y. unfold DayFromYear. Z.div_mod_to_equations. lia. }
  destruct (Z.ltb_spec d (DayFromYear y)).
  - replace (y - 1 + 1) with y by lia. lia.
  - destruct (Z.leb_spec (DayFromYear (y + 1)) d).
    + replace (y + 1 + 1) with (y + 2) by lia. lia.
    + lia.
Qed.

Lemma DayWithinYear_range t :
  0 ≤ DayWithinYear t < DaysInYear (YearFromTime t).
Proof.
  unfold DayWithinYear, YearFromTime.
  pose proof (year_of_day_spec (Day t)) as H.
  rewrite DayFromYear_step in H. lia.
Qed.

(** The day of the month lies between 1 and 31. *)
Lemma DateFromTime_range t : 1 ≤ DateFromTime t ≤ 31.
Proof.
  unfold DateFromTime, MonthFromTime, InLeapYear.
  pose proof (DayWithinYear_range t) as Hd.
  pose proof (DaysInYear_range (YearFromTime t)) as Hy.
  destruct (Z.eqb_spec (DaysInYear (YearFromTime t)) 366) as [Hl|Hl];
    unfold month_of;
    repeat match goal with
           | |- context [?a <=? ?b] => destruct (Z.leb_spec a b); simpl in *
           end; simpl; lia.
Qed.

(** Whole numbers below 2^53 in magnitude are subtracted exactly. *)
Lemma round53_exact m : Z.abs m < 2 ^ 53 → round53 m 0 = Finite m 0.
Proof.
  intros Hm. unfold round53.
  assert (Z.log2 (Z.abs m) - 52 ≤ 0) as Hk.
  { destruct (decide (Z.abs m = 0)) as [->|Hne]; [done|].
    assert (Z.log2 (Z.abs m) < 53); [|lia].
    apply Z.log2_lt_pow2; lia. }
  destruct (Z.ltb_spec 0 (Z.log2 (Z.abs m) - 52)); [lia|].
  assert (2 ^ 53 < 2 ^ 1024) by (by apply Z.pow_lt_mono_r).
  rewrite Z.pow_0_r, Z.mul_1_r.
  destruct (Z.leb_spec (2 ^ 1024) (Z.abs m)); [lia|done].
Qed.

Lemma subtract_whole g n :
  Z.abs (g - n) < 2 ^ 53 →
  truncate (subtract_from g (whole n)) = Some (g - n).
Proof.
  intros Hm. unfold subtract_from, whole.
  change (0 <=? 0) with true. cbv iota.
  rewrite Z.pow_0_r, Z.mul_1_r, round53_exact by done.
  unfold truncate. change (0 <=? 0) with true. cbv iota.
  by rewrite Z.pow_0_r, Z.mul_1_r.
Qed.

Lemma calendar_same_day t t' :
  Day t = Day t' →
  YearFromTime t = YearFromTime t' ∧ MonthFromTime t = MonthFromTime t'
  ∧ DateFromTime t = DateFromTime t'.
Proof.
  intros HD.
  unfold DateFromTime, MonthFromTime, DayWithinYear, YearFromTime.
  by rewrite HD.
Qed.

(** The day numbered [x] of the month of [t], counted from the day of [t]. *)
Lemma MakeDay_month t x :
  MakeDay (YearFromTime t) (MonthFromTime t) x = Day t - DateFromTime t + x.
Proof.
  unfold MakeDay.
  pose proof (month_of_range (DayWithinYear t) (InLeapYear (YearFromTime t)))
    as Hm.
  fold (MonthFromTime t) in Hm.
  rewrite Z.div_small, Z.mod_small, Z.add_0_r by lia.
  unfold DateFromTime, DayWithinYear. lia.
Qed.

Lemma MakeDate_shift t n :
  MakeDate (Day t + n) (TimeWithinDay t) = t + n * msPerDay.
Proof.
  unfold MakeDate, Day, TimeWithinDay, msPerDay.
  pose proof (Z.div_mod t 86400000). lia.
Qed.

(** What the comparison with the start of the window says. *)
Lemma number_gt_window (parsed : option Z) start :
  (Z.abs start ≤ 8640000000000000 →
   number_gt (parsed ≫= TimeClip) (TimeClip start) = true
   ↔ ∃ d, parsed = Some d ∧ Z.abs d ≤ 8640000000000000 ∧ start < d)
  ∧ (8640000000000000 < Z.abs start →
     number_gt (parsed ≫= TimeClip) (TimeClip start) = false).
Proof.
  split.
  - intros Hs. unfold TimeClip at 2.
    destruct (Z.leb_spec (Z.abs start) 8640000000000000); [|lia].
    destruct parsed as [d|]; simpl.
    + unfold TimeClip.
      destruct (Z.leb_spec (Z.abs d) 8640000000000000); simpl.
      * rewrite Z.ltb_lt. split; [by eauto|]. by intros (? & [= <-] & _ & ?).
      * split; [done|]. intros (? & [= <-] & ? & _). lia.
    + split; [done|]. by intros (? & [=] & _).
  - intros Hs. unfold TimeClip at 2.
    destruct (Z.leb_spec (Z.abs start) 8640000000000000); [lia|].
    by destruct (parsed ≫= TimeClip).
Qed.

End Calendar.

(** *** isNewArrival *)

Section NewArrival.
Import JSDate.
Local Open Scope Z_scope.

Variable parse : text → option Z.
Variable LocalTZA : Z → bool → Z.

(** The start of the window for a whole number of days: the local clock of
    the first reading is moved back by that many days, and by the days
    that lie between the days of the month of the two readings. *)
Lemma isNewArrival_start now now' date days :
  Z.abs (default 30 days) ≤ 2 ^ 52 →
  isNewArrival parse LocalTZA now now' date (whole <$> days)
  = number_gt (parse date ≫= TimeClip)
      (TimeClip
         (UTC LocalTZA
            (LocalTime LocalTZA now
             - (default 30 days + getDate LocalTZA now
                - getDate LocalTZA now') * msPerDay))).
Proof.
  intros Hn. unfold isNewArrival.
  assert (default (whole 30) (whole <$> days) = whole (default 30 days)) as ->
    by (by destruct days).
  unfold setDate, getDate.
  pose proof (DateFromTime_range (LocalTime LocalTZA now')) as Hg.
  rewrite subtract_whole.
  2: { assert (2 ^ 52 + 31 < 2 ^ 53) by done. lia. }
  simpl. rewrite MakeDay_month.
  replace (Day (LocalTime LocalTZA now) - DateFromTime (LocalTime LocalTZA now)
           + (DateFromTime (LocalTime LocalTZA now') - default 30 days))
    with (Day (LocalTime LocalTZA now)
          + - (default 30 days + DateFromTime (LocalTime LocalTZA now)
               - DateFromTime (LocalTime LocalTZA now'))) by lia.
  by rewrite MakeDate_shift, Z.mul_opp_l, Z.add_opp_r.
Qed.

(** C9: for a whole number of days [daysOld] (30 by default) and two
    readings of the clock taken on the same local day, [isNewArrival] is
    true exactly for the dates strictly newer than the current time moved
    back by [daysOld] days on the local clock, and false for every other
    date string, unparsable ones included, provided that start of the
    window is a time value (at most 8.64e15 ms from the epoch); when it is
    not, the answer is false for every date.  In a zone with a fixed offset
    the window starts [daysOld] times 24 hours before now.  For a
    [daysOld] that is NaN or an infinity the answer is false. *)
Theorem isNewArrival_window now now' date days :
  LocalTime LocalTZA now `div` 86400000
  = LocalTime LocalTZA now' `div` 86400000 →
  Z.abs (default 30 days) ≤ 2 ^ 52 →
  let start :=
    UTC LocalTZA (LocalTime LocalTZA now - default 30 days * 86400000) in
  let answer :=
    isNewArrival parse LocalTZA now now' date (whole <$> days) in
  (Z.abs start ≤ 8640000000000000 →
   answer = true
   ↔ ∃ d, parse date = Some d ∧ Z.abs d ≤ 8640000000000000 ∧ start < d)
  ∧ (8640000000000000 < Z.abs start → answer = false)
  ∧ ((∀ t flag, LocalTZA t flag = LocalTZA 0 true) →
     start = now - default 30 days * 86400000)
  ∧ (∀ daysOld, daysOld = NaN ∨ (∃ negative, daysOld = Infinity negative) →
       isNewArrival parse LocalTZA now now' date (Some daysOld) = false).
Proof.
  intros Hday Hn start answer. subst answer.
  change (Day (LocalTime LocalTZA now) = Day (LocalTime LocalTZA now'))
    in Hday.
  rewrite isNewArrival_start by done.
  destruct (calendar_same_day _ _ Hday) as (_ & _ & Hdate).
  unfold getDate. rewrite Hdate.
  replace (default 30 days + DateFromTime (LocalTime LocalTZA now')
           - DateFromTime (LocalTime LocalTZA now'))
    with (default 30 days) by lia.
  change msPerDay with 86400000. fold start.
  destruct (number_gt_window (parse date) start) as [Hin Hout].
  split; [done|]. split; [done|]. split.
  - intros Hfixed. subst start. unfold UTC, LocalTime.
    pose proof (Hfixed now true) as H1.
    pose proof (Hfixed (now + LocalTZA now true
                        - default 30 days * 86400000) false) as H2.
    lia.
  - intros daysOld [->|[negative ->]]; unfold isNewArrival; simpl;
      by destruct (parse date ≫= TimeClip).
Qed.


(** X5: the window of [isNewArrival] for any two readings of the clock and
    a whole number of days [daysOld].  The day of the month is taken from
    the second reading and set on the first one, so the window is
    [daysOld] days plus the day of the month of the first reading minus
    that of the second: it is [daysOld] days when both readings fall on the
    same day of the month, and it is longer when the month ends between the
    two readings.  When the start of the window is no time value (more
    than 8.64e15 ms from the epoch) the answer is false. *)
Theorem isNewArrival_two_readings now now' date days :
  Z.abs (default 30 days) ≤ 2 ^ 52 →
  let start :=
    UTC LocalTZA
      (LocalTime LocalTZA now
       - (default 30 days + getDate LocalTZA now - getDate LocalTZA now')
         * 86400000) in
  let answer :=
    isNewArrival parse LocalTZA now now' date (whole <$> days) in
  (Z.abs start ≤ 8640000000000000 →
   answer = true
   ↔ ∃ d, parse date = Some d ∧ Z.abs d ≤ 8640000000000000 ∧ start < d)
  ∧ (8640000000000000 < Z.abs start → answer = false).
Proof.
  intros Hn start answer. subst answer.
  rewrite isNewArrival_start by done.
  change msPerDay with 86400000. fold start.
  apply number_gt_window.
Qed.
End NewArrival.

(** A product dated 2024-02-15 is a new arrival on 2024-02-29 (default
    window), one dated 2024-01-15 is not. *)
Lemma isNewArrival_window_witness :
  let parse := λ s : text,
    if bool_decide (s = lit "2024-02-15") then Some 1707955200000%Z
    else if bool_decide (s = lit "2024-01-15") then Some 1705276800000%Z
    else None in
  let now := 1709208000000%Z in
  isNewArrival parse (λ _ _, 0%Z) now now (lit "2024-02-15") None = true
  ∧ isNewArrival parse (λ _ _, 0%Z) now now (lit "2024-01-15") None = false
  ∧ isNewArrival parse (λ _ _, 0%Z) now now (lit "soon") None = false.
Proof.
  intros parse now. split; [|split; by vm_compute].
  destruct (isNewArrival_window parse (λ _ _, 0%Z) now now
              (lit "2024-02-15") None eq_refl) as [Hin _];
    [by vm_compute|].
  apply Hin; [by vm_compute|].
  exists 1707955200000%Z.
  split; [reflexivity|]. split; by vm_compute.
Defined.

(** C9 as stated fails, in four ways (all times in UTC unless said
    otherwise).
    - The two readings of the clock are taken one millisecond before and
      at midnight of 1 March 2024: a product dated 15 January, 45 days
      before, counts as a new arrival of the last 30 days.
    - With a window of 200000000 days the start of the window is no time
      value: on 29 February 2024 a product dated two weeks before is no new
      arrival.
    - In a zone that moved its clock forward by one hour on 31 March 2024,
      on 15 April at noon a product dated 29 days, 23 hours and 30 minutes
      before is no new arrival of the last 30 days.
    - With a window of half a day, on 1 March 2024 at noon a product dated
      18 hours before is a new arrival: the day of the month minus one half
      is cut down to 0, the last day of February. *)
Lemma isNewArrival_window_counterexample :
  (isNewArrival (λ _, Some 1705276800000%Z) (λ _ _, 0%Z)
     1709251199999 1709251200000 (lit "2024-01-15") None = true
   ∧ (1705276800000 < 1709251199999 - 30 * 86400000)%Z)
  ∧ (isNewArrival (λ _, Some 1707955200000%Z) (λ _ _, 0%Z)
       1709208000000 1709208000000 (lit "2024-02-15")
       (Some (JSDate.whole 200000000)) = false
     ∧ (1709208000000 - 200000000 * 86400000 < 1707955200000)%Z)
  ∧ (isNewArrival (λ _, Some 1710592200000%Z)
       (λ t _, if (t <? 1711846800000)%Z then 0%Z else 3600000%Z)
       1713182400000 1713182400000 (lit "2024-03-16T12:30Z") None = false
     ∧ (1713182400000 - 30 * 86400000 < 1710592200000)%Z)
  ∧ (isNewArrival (λ _, Some 1709229600000%Z) (λ _ _, 0%Z)
       1709294400000 1709294400000 (lit "2024-02-29T18:00Z")
       (Some (JSDate.Finite 1 (-1))) = true
     ∧ (1709229600000 < 1709294400000 - 86400000 `div` 2)%Z).
Proof. repeat split; by vm_compute. Qed.

(** A product with a custom prefix for PRODUCT, and an external type. *)
Lemma resolveToFromType_custom_prefixes_witness :
  resolveToFromType id
    (Some {| customPrefixes := {[ lit "PRODUCT" := lit "p" ]};
             pathname := Some (lit "/products/shirt");
             type := Some (lit "PRODUCT") |})
  = lit "/p/shirt".
Proof.
  assert (slash ∉ lit "shirt") as Hh by decide_closed.
  refine (proj1 (proj1 (resolveToFromType_custom_prefixes id
                          {[ lit "PRODUCT" := lit "p" ]} (lit "/products")
                          (lit "shirt") (lit "PRODUCT") Hh _) _)
            (lit "p") eq_refl _); [done| |done].
  decide_closed.
Defined.

Lemma resolveToFromType_short_pathname_witness :
  resolve_plain id (lit "/first-post") "ARTICLE" = lit "/blogs//first-post/".
Proof.
  refine (proj1 (resolveToFromType_short_pathname id
                   (lit "first-post") _ _)); [decide_closed|done].
Defined.

Lemma resolveToFromType_empty_or_absolute_witness :
  resolveToFromType id
    (Some {| customPrefixes := ∅; pathname := Some (lit "/products/shirt");
             type := Some [] |}) = [].
Proof.
  apply (proj1 (resolveToFromType_empty_or_absolute id _)).
  intros a [= <-]. simpl. by auto.
Defined.

(** A text that ends in a space: the first pass drops it, the second
    changes nothing. *)
Lemma formatText_twice_witness :
  formatText id (NString (lit "Free shipping" ++ nbsp :: lit "worldwide"))
  = NString (lit "Free shipping" ++ nbsp :: lit "worldwide").
Proof.
  refine (formatText_twice id (lit "Free shipping worldwide ") _ _ eq_refl _);
    [by vm_compute|done].
Defined.

(** The first reading of the clock is taken on 31 January 2024, one
    millisecond before midnight, the second one at midnight: a product
    dated 45 days before counts as a new arrival of the last 30 days. *)
Lemma isNewArrival_two_readings_witness :
  let parse := λ _ : text, Some 1702857600000%Z in
  isNewArrival parse (λ _ _, 0%Z) 1706745599999 1706745600000
    (lit "2023-12-18") None = true
  ∧ isNewArrival parse (λ _ _, 0%Z) 1706745600000 1706745600000
      (lit "2023-12-18") None = false.
Proof.
  intros parse. split; [|by vm_compute].
  destruct (isNewArrival_two_readings parse (λ _ _, 0%Z) 1706745599999
              1706745600000 (lit "2023-12-18") None) as [Hin _];
    [by vm_compute|].
  apply Hin; [by vm_compute|].
  exists 1702857600000%Z.
  split; [reflexivity|]. split; by vm_compute.
Defined.
End UtilsFacts.

(** ** Properties of the helpers on class names, languages and paths *)

Module UtilsMoreFacts.
Import JS JSRegExp JSRegExpFacts UtilsMore.

Lemma starts_with_true key s :
  starts_with key s = true ↔ ∃ rest, s = key ++ rest.
Proof.
  unfold starts_with. rewrite bool_decide_eq_true.
  rewrite <-(app_nil_r (literal key)). split.
  - intros [segs Hm].
    apply match_literal_inv in Hm as (rest & _ & -> & _ & _). by exists rest.
  - intros [rest ->]. rewrite match_literal. by eexists.
Qed.

Lemma optional_true p k s :
  optional p k s = true
  ↔ k s = true ∨ ∃ c s', s = c :: s' ∧ p c = true ∧ k s' = true.
Proof.
  destruct s as [|c s]; simpl.
  - split; [by left|]. by intros [?|(? & ? & [=] & _)].
  - destruct (p c) eqn:Hc.
    + rewrite orb_true_iff. split.
      * intros [?|?]; [right; by exists c, s | by left].
      * intros [?|(? & ? & [= <- <-] & _ & ?)]; auto.
    + split; [by left|]. intros [?|(? & ? & [= <- <-] & ? & _)]; [done|].
      congruence.
Qed.

Lemma matches_true m s :
  matches m s = true ↔ ∃ before rest, s = before ++ rest ∧ m rest = true.
Proof.
  induction s as [|c s IH]; simpl.
  - rewrite orb_false_r. split.
    + intros H. by exists [], [].
    + intros (before & rest & Heq & H). symmetry in Heq.
      by apply app_eq_nil in Heq as [_ ->].
  - rewrite orb_true_iff, IH. split.
    + intros [H|(before & rest & -> & H)].
      * by exists [], (c :: s).
      * by exists (c :: before), rest.
    + intros ([|c' before] & rest & Heq & H); simpl in Heq.
      * left. by subst rest.
      * injection Heq as <- ->. right. by exists before, rest.
Qed.

(** The space that may be missing makes no difference to whether the
    pattern matches somewhere. *)
Lemma matches_optional_space key s :
  matches (optional (N.eqb space) (starts_with key)) s = true
  ↔ ∃ before rest, s = before ++ key ++ rest.
Proof.
  rewrite matches_true. split.
  - intros (before & rest & -> & H).
    apply optional_true in H as [H|(c & s' & -> & _ & H)];
      apply starts_with_true in H as [rest' ->].
    + by exists before, rest'.
    + exists (before ++ [c]), rest'. by rewrite <-app_assoc.
  - intros (before & rest & ->). exists before, (key ++ rest).
    split; [done|]. apply optional_true. left.
    apply starts_with_true. by exists rest.
Qed.

(** X6: [missingClass] is true for a missing or empty string.  For any
    other string and a prefix without syntax characters it is true exactly
    when the prefix occurs nowhere in the string, be it at the start of a
    class name or inside one; a missing prefix is looked for as the text
    [undefined]. *)
Theorem missingClass_occurrence (string prefix : option text) :
  let sought := interpolate_text prefix in
  (string = None ∨ string = Some [] → missingClass string prefix = Some true)
  ∧ (∀ s, string = Some s → s ≠ [] → plain sought = true →
       ∃ answer, missingClass string prefix = Some answer
         ∧ (answer = true ↔ ¬ ∃ before rest, s = before ++ sought ++ rest)).
Proof.
  intros sought. split.
  - by intros [-> | ->].
  - intros s -> Hs Hplain. unfold missingClass. simpl.
    rewrite bool_decide_eq_false_2 by done. simpl.
    fold sought. rewrite Hplain. eexists. split; [done|].
    rewrite negb_true_iff, <-not_true_iff_false.
    by rewrite matches_optional_space.
Qed.

(** *** getExcerpt *)

(** Where a greedy loop ends up: at the longest run after which the
    continuation succeeds. *)
Lemma greedy_none_longer p k run rest :
  all p run → stops p rest →
  (∀ r1 r2, run = r1 ++ r2 → r1 ≠ [] → k (r2 ++ rest) = None) →
  greedy p k (run ++ rest) = (λ segs, ([], segs)) <$> k (run ++ rest).
Proof.
  intros Hrun Hrest. induction Hrun as [|c run Hc _ IH]; intros Hfail.
  - destruct rest as [|c r]; [done|]. simpl in *. by rewrite Hrest.
  - pose proof (Hfail [c] run eq_refl ltac:(done)) as Hnow.
    cbn [app greedy]. rewrite Hc, IH.
    + rewrite Hnow. simpl. by destruct (k (c :: run ++ rest)).
    + intros r1 r2 -> Hne. by apply (Hfail (c :: r1) r2).
Qed.

Lemma greedy_backtracks p k run1 run2 rest segs :
  all p run1 → all p run2 → stops p rest →
  k (run2 ++ rest) = Some segs →
  (∀ r1 r2, run2 = r1 ++ r2 → r1 ≠ [] → k (r2 ++ rest) = None) →
  greedy p k (run1 ++ run2 ++ rest) = Some (run1, segs).
Proof.
  intros Hrun1 Hrun2 Hrest Hk Hfail.
  induction Hrun1 as [|c run1 Hc _ IH].
  - cbn [app]. by rewrite greedy_none_longer, Hk.
  - cbn [app greedy]. by rewrite Hc, IH.
Qed.

Lemma lazy_sound p k s seg segs :
  lazy p k s = Some (seg, segs) →
  ∃ rest, s = seg ++ rest ∧ all p seg ∧ k rest = Some segs.
Proof.
  revert seg. induction s as [|c s IH]; intros seg; simpl.
  - destruct (k []) eqn:Hk; [|done]. intros [= <- <-]. by exists [].
  - destruct (k (c :: s)) eqn:Hk.
    + intros [= <- <-]. by exists (c :: s).
    + destruct (p c) eqn:Hc; [|done].
      destruct (lazy p k s) as [[seg' segs']|]; [|done].
      intros [= <- <-]. destruct (IH _ eq_refl) as (rest & -> & Hall & Hrest).
      exists rest. split; [done|]. split; [by constructor|done].
Qed.

(** A lazy loop stops at the first place where the continuation succeeds. *)
Lemma lazy_first p k seg rest segs :
  all p seg → k rest = Some segs →
  (∀ s1 s2, seg = s1 ++ s2 → s2 ≠ [] → k (s2 ++ rest) = None) →
  lazy p k (seg ++ rest) = Some (seg, segs).
Proof.
  intros Hseg Hk. induction Hseg as [|c seg Hc _ IH]; intros Hfail.
  - cbn [app]. destruct rest; simpl; by rewrite Hk.
  - pose proof (Hfail [] (c :: seg) eq_refl ltac:(done)) as Hnow.
    cbn [app] in Hnow. cbn [app lazy]. rewrite Hnow, Hc, IH; [done|].
    intros s1 s2 -> Hne. by apply (Hfail (c :: s1) s2).
Qed.

Lemma exec_sound m s segs :
  exec m s = Some segs → ∃ before rest, s = before ++ rest ∧ m rest = Some segs.
Proof.
  induction s as [|c s IH]; simpl.
  - destruct (m []) eqn:Hm; [|done]. intros [= <-]. by exists [], [].
  - destruct (m (c :: s)) eqn:Hm.
    + intros [= <-]. by exists [], (c :: s).
    + intros (before & rest & -> & ?)%IH. by exists (c :: before), rest.
Qed.

Lemma closing_tag_inv s segs :
  match_here (literal (lit "</p>")) false s = Some segs →
  ∃ after, s = lit "</p>" ++ after ∧ concat segs = lit "</p>".
Proof.
  rewrite <-(app_nil_r (literal _)).
  intros (after & segs' & -> & Hm & ->)%match_literal_inv.
  injection Hm as <-. exists after. split; [done|].
  by rewrite app_nil_r, concat_singletons.
Qed.

(** The closing tag does not start inside a text without [>] that it
    follows. *)
Lemma closing_tag_later (inner : text) :
  greater_than ∉ inner → inner ≠ [] →
  match_here (literal (lit "</p>")) false (inner ++ lit "</p>") = None.
Proof.
  intros Hgt Hne.
  destruct (match_here _ _ _) as [segs|] eqn:Hm; [|done]. exfalso.
  apply closing_tag_inv in Hm as (after & Heq & _).
  destruct inner as [|c1 [|c2 [|c3 [|c4 inner]]]]; try done;
    try (by injection Heq).
  injection Heq as _ _ _ -> _. apply Hgt. by repeat constructor.
Qed.

(** X7: what [getExcerpt] returns is the text itself or a piece of it
    that starts with [<p], ends with [</p>] and stays on one line; and the
    piece is not the first paragraph: the greedy [.*] runs to the last [>]
    of the line that a closing tag follows, so a line of several
    paragraphs, the last of which holds no [>], is returned whole. *)
Theorem getExcerpt_whole_line (text : JS.text) :
  (getExcerpt text = text
   ∨ ∃ before mid inner after,
       text = before ++ lit "<p" ++ mid ++ [greater_than] ++ inner
              ++ lit "</p>" ++ after
       ∧ getExcerpt text
         = lit "<p" ++ mid ++ [greater_than] ++ inner ++ lit "</p>"
       ∧ all dot mid ∧ all dot inner)
  ∧ (∀ mid inner,
       text = lit "<p" ++ mid ++ [greater_than] ++ inner ++ lit "</p>" →
       all dot mid → all dot inner → greater_than ∉ inner →
       getExcerpt text = text).
Proof.
  split.
  - unfold getExcerpt.
    destruct (exec excerpt_here text) as [segs|] eqn:He; [|by left]. right.
    apply exec_sound in He as (before & rest & -> & Hm).
    unfold excerpt_here in Hm.
    destruct rest as [|c1 [|c2 r]]; try done.
    destruct (N.eqb_spec c1 less_than) as [->|]; [|done].
    destruct (N.eqb_spec c2 112) as [->|]; [|done].
    cbn [andb] in Hm.
    destruct (greedy _ _ r) as [[mid segs1]|] eqn:Hg; [|done].
    injection Hm as <-.
    apply greedy_sound in Hg as (r1 & -> & Hmid & Hb).
    destruct r1 as [|c r1]; [done|].
    destruct (N.eqb_spec c greater_than) as [->|]; [|done].
    destruct (lazy _ _ r1) as [[inner segs2]|] eqn:Hl; [|done].
    injection Hb as <-.
    apply lazy_sound in Hl as (r2 & -> & Hinner & Hc).
    apply closing_tag_inv in Hc as (after & -> & Hcat).
    exists before, mid, inner, after. cbn [concat]. rewrite Hcat.
    repeat split; done.
  - intros mid inner -> Hmid Hinner Hgt. unfold getExcerpt.
    assert (excerpt_here (lit "<p" ++ mid ++ [greater_than] ++ inner
                          ++ lit "</p>")
            = Some [lit "<p"; mid; [greater_than]; inner;
                    [60%N]; [47%N]; [112%N]; [62%N]])
      as Hhere.
    { unfold excerpt_here.
      change (lit "<p" ++ ?x) with (less_than :: 112%N :: x).
      cbn iota. rewrite !N.eqb_refl. cbn [andb].
      replace (mid ++ [greater_than] ++ inner ++ lit "</p>")
        with (mid ++ ([greater_than] ++ inner ++ lit "</p>") ++ [])
        by (by rewrite app_nil_r).
      erewrite (greedy_backtracks dot _ mid
                  ([greater_than] ++ inner ++ lit "</p>") []);
        [done|done| | done | |].
      - apply Forall_app. split; [decide_closed|].
        apply Forall_app. split; [done|decide_closed].
      - rewrite app_nil_r. cbn [app]. rewrite N.eqb_refl.
        rewrite (lazy_first dot _ inner (lit "</p>")
                   [[60%N]; [47%N]; [112%N]; [62%N]]); [done..|].
        intros s1 s2 -> Hne. apply closing_tag_later; [|done].
        rewrite elem_of_app in Hgt. tauto.
      - intros [|c r1] r2 Heq Hne; [done|]. rewrite app_nil_r.
        injection Heq as _ Heq.
        destruct r2 as [|d r2]; [done|].
        destruct (N.eqb_spec d greater_than) as [->|]; [|done].
        apply app_eq_app in Heq as [l [[-> Hl]|[-> Hl]]].
        + destruct l as [|c' l]; [done|]. injection Hl as <- _.
          destruct Hgt. apply elem_of_app. right. by left.
        + change (lit "</p>") with [60; 47; 112; 62]%N in Hl.
          destruct l as [|c1 [|c2 [|c3 [|c4 l]]]]; try (by injection Hl).
          * injection Hl as _ _ _ <-. done.
          * injection Hl as _ _ _ _ Hl. by destruct l. }
    assert (∀ s segs, excerpt_here s = Some segs → exec excerpt_here s = Some segs)
      as Hexec.
    { intros s segs H. destruct s; [done|]. cbn [exec]. by rewrite H. }
    rewrite (Hexec _ _ Hhere). cbn [concat].
    by repeat (rewrite <-app_assoc; cbn [app]).
Qed.

Section LocalizationFacts.

Variable toUpperCase : text → text.

Lemma split_cons_sep sep first rest :
  sep ∉ first →
  split sep (first ++ sep :: rest) = first :: split sep rest.
Proof.
  intros Hf. induction first as [|c first IH]; simpl.
  - by rewrite N.eqb_refl.
  - apply not_elem_of_cons in Hf as [Hc Hf].
    destruct (N.eqb_spec c sep); [done|]. by rewrite IH.
Qed.

Lemma split_head sep s :
  ∃ first others, split sep s = first :: others ∧ sep ∉ first.
Proof.
  induction s as [|c s (first & others & IH & Hf)]; simpl.
  - exists [], []. split; [done|]. by intros ?%elem_of_nil.
  - destruct (N.eqb_spec c sep) as [->|Hc].
    + exists [], (split sep s). split; [done|]. by intros ?%elem_of_nil.
    + rewrite IH. exists (c :: first), others. split; [done|].
      by apply not_elem_of_cons.
Qed.

(** X8: a language tag that is missing, empty or without a hyphen gives
    the language EN and the country US, whatever the tag says.  A tag with
    a hyphen is cut at its hyphens: the language is what stands before the
    first hyphen, in upper case, and it may be empty; the country is what
    stands between the first hyphen and the second (or the end), in upper
    case, and US when that is empty; what follows a second hyphen is
    ignored.  The country is never empty and the language never undefined,
    whatever the tag is. *)
Theorem getLocalizationFromLang_tag (lang : option text) :
  ((∀ tag, lang = Some tag → hyphen ∉ tag) →
   getLocalizationFromLang toUpperCase lang
   = {| language := Some (lit "EN"); country := lit "US" |})
  ∧ (∀ first second rest,
     lang = Some (first ++ hyphen :: second ++ rest) →
     hyphen ∉ first → hyphen ∉ second →
     rest = [] ∨ (∃ rest', rest = hyphen :: rest') →
     getLocalizationFromLang toUpperCase lang
     = {| language := Some (toUpperCase first);
          country := if bool_decide (toUpperCase second = [])
                     then lit "US" else toUpperCase second |})
  ∧ country (getLocalizationFromLang toUpperCase lang) ≠ []
  ∧ is_Some (language (getLocalizationFromLang toUpperCase lang)).
Proof.
  split; [|split; [|split]].
  - intros Hno. destruct lang as [tag|]; [|done]. simpl.
    rewrite (bool_decide_eq_false_2 (hyphen ∈ tag)) by auto.
    by rewrite andb_false_r.
  - intros first second rest -> Hf Hs Hrest.
    unfold getLocalizationFromLang. cbn [truthy].
    rewrite (bool_decide_eq_false_2 (_ = [])) by (by destruct first).
    rewrite (bool_decide_eq_true_2 (hyphen ∈ _))
      by (apply elem_of_app; right; by left).
    cbn [negb andb]. rewrite split_cons_sep by done.
    assert (∃ others, split hyphen (second ++ rest) = second :: others)
      as [others ->].
    { destruct Hrest as [-> | [rest' ->]].
      - rewrite app_nil_r. exists []. apply UtilsFacts.split_no_sep. done.
      - rewrite split_cons_sep by done. by eexists. }
    simpl. by destruct (bool_decide (toUpperCase second = [])).
  - unfold getLocalizationFromLang. destruct lang as [tag|]; [|done].
    destruct (_ && _); [|done]. simpl.
    destruct (toUpperCase <$> _) as [upper|]; [|done].
    simpl. by case_bool_decide.
  - unfold getLocalizationFromLang. destruct lang as [tag|]; [|by eexists].
    destruct (_ && _); [|by eexists]. simpl.
    destruct (split_head hyphen tag) as (first & others & -> & _).
    by eexists.
Qed.

End LocalizationFacts.

Lemma replace_at_start_literal key template s :
  dollar ∉ template →
  replace_at_start (literal key) template s
  = if starts_with key s then template ++ drop (length key) s else s.
Proof.
  intros Hd. unfold replace_at_start, starts_with.
  destruct (match_here (literal key) false s) as [segs|] eqn:Hm.
  - rewrite bool_decide_eq_true_2 by (by eexists).
    rewrite <-(app_nil_r (literal key)) in Hm.
    apply match_literal_inv in Hm as (rest & segs' & -> & Hm & ->).
    injection Hm as <-. rewrite app_nil_r, concat_singletons.
    by rewrite substitute_plain.
  - rewrite bool_decide_eq_false_2; [done|]. by intros [? [=]].
Qed.

(** X9: for a [lang] without syntax characters the path is the home path
    exactly when it is [/] or [/lang/]; a missing [lang] is looked for as
    the text [undefined], so [/undefined/] counts as the home path then. *)
Theorem useIsHomePath_paths (pathname : text) (lang : option text) :
  let segment := interpolate_text lang in
  plain segment = true →
  ∃ answer, useIsHomePath pathname lang = Some answer
    ∧ (answer = true
       ↔ pathname = [slash] ∨ pathname = [slash] ++ segment ++ [slash]).
Proof.
  intros segment Hplain. unfold useIsHomePath. fold segment.
  rewrite Hplain. eexists. split; [done|].
  rewrite bool_decide_eq_true.
  rewrite replace_at_start_literal
    by (intros [=]%list_elem_of_singleton).
  destruct (starts_with _ pathname) eqn:Hs.
  - apply starts_with_true in Hs as [rest ->].
    rewrite drop_app_length. split.
    + intros [= ->]. right. by rewrite app_nil_r.
    + intros [Heq|Heq].
      * destruct segment; simpl in Heq; [done|]. by destruct segment.
      * rewrite <-(app_nil_r ([slash] ++ segment ++ [slash])) in Heq at 2.
        by apply app_inv_head in Heq as ->.
  - split; [by left|]. intros [?|Heq]; [done|].
    rewrite Heq in Hs.
    assert (starts_with ([slash] ++ segment ++ [slash])
              ([slash] ++ segment ++ [slash]) = true) as Ht.
    { apply starts_with_true. exists []. by rewrite app_nil_r. }
    congruence.
Qed.

(** Two paragraphs on one line: the excerpt is both of them. *)
Lemma getExcerpt_whole_line_witness :
  getExcerpt (lit "<p>One</p><p>Two</p>") = lit "<p>One</p><p>Two</p>".
Proof.
  refine (proj2 (getExcerpt_whole_line (lit "<p>One</p><p>Two</p>"))
            (lit ">One</p><p") (lit "Two") eq_refl _ _ _).
  - decide_closed.
  - decide_closed.
  - decide_closed.
Defined.

Lemma missingClass_occurrence_witness :
  missingClass (Some (lit "context-menu w-full")) (Some (lit "text"))
  = Some false.
Proof.
  destruct (proj2 (missingClass_occurrence
                     (Some (lit "context-menu w-full")) (Some (lit "text")))
              (lit "context-menu w-full") eq_refl)
    as (answer & Heq & Hiff); [done | by vm_compute |].
  rewrite Heq. f_equal. destruct answer; [|done].
  destruct (proj1 Hiff eq_refl). by exists (lit "con"), (lit "-menu w-full").
Defined.

Lemma getLocalizationFromLang_tag_witness :
  getLocalizationFromLang id (Some (lit "FR-CA-x"))
  = {| language := Some (lit "FR"); country := lit "CA" |}
  ∧ getLocalizationFromLang id (Some (lit "fr"))
    = {| language := Some (lit "EN"); country := lit "US" |}.
Proof.
  split.
  - refine (proj1 (proj2 (getLocalizationFromLang_tag id
                            (Some (lit "FR-CA-x"))))
              (lit "FR") (lit "CA") (lit "-x") eq_refl _ _ _).
    + decide_closed.
    + decide_closed.
    + right. by eexists.
  - apply (proj1 (getLocalizationFromLang_tag id (Some (lit "fr")))).
    intros tag [= <-]. decide_closed.
Defined.

Lemma useIsHomePath_paths_witness :
  useIsHomePath (lit "/en-ca/") (Some (lit "en-ca")) = Some true
  ∧ useIsHomePath (lit "/undefined/") None = Some true.
Proof.
  split.
  - destruct (useIsHomePath_paths (lit "/en-ca/") (Some (lit "en-ca")))
      as (answer & -> & Hiff); [by vm_compute|].
    f_equal. apply Hiff. by right.
  - destruct (useIsHomePath_paths (lit "/undefined/") None)
      as (answer & -> & Hiff); [by vm_compute|].
    f_equal. apply Hiff. by right.
Defined.

End UtilsMoreFacts.

(** ** Properties of parseMenu *)

Module MenuFacts.
Import JS JSRegExp JSRegExpFacts Menu.

(** Induction on an item, with the property at hand for the items below. *)
Lemma MenuItem_nested_ind (P : MenuItem → Prop) :
  (∀ fields url type, P {| fields := fields; url := url; type := type;
                           items := None |}) →
  (∀ fields url type below, Forall P below →
     P {| fields := fields; url := url; type := type;
          items := Some below |}) →
  ∀ item, P item.
Proof.
  intros Hleaf Hnode. fix IH 1. intros [fields url type [below|]].
  - apply Hnode. induction below as [|x below IHbelow]; constructor.
    + apply IH.
    + exact IHbelow.
  - apply Hleaf.
Qed.

(** The pattern of the internal links finds its text anywhere in a url. *)
Lemma test_myshopify u :
  test myshopify_re u = true
  ↔ ∃ before rest, u = before ++ lit ".myshopify.com" ++ rest.
Proof.
  unfold test. rewrite bool_decide_eq_true. split.
  - intros [[[before segs] post] Hs].
    apply search_sound in Hs as (-> & Hm & _).
    cbn [atoms at_end myshopify_re] in Hm.
    rewrite <-(app_nil_r (literal _)) in Hm.
    apply match_literal_inv in Hm as (rest & _ & -> & _ & _).
    by exists before, rest.
  - intros (before & rest & ->).
    destruct (search myshopify_re _) as [found|] eqn:Hs; [by eexists|].
    eapply search_none in Hs; [|reflexivity].
    cbn [atoms at_end myshopify_re] in Hs.
    rewrite <-(app_nil_r (literal _)), match_literal in Hs. done.
Qed.

(** *** Mapping with warnings and exceptions *)

Lemma map_effect_cons {A B} (f : A → effect B) x rest :
  map_effect f (x :: rest)
  = match f x with
    | (Normal y, warned) =>
        match map_effect f rest with
        | (Normal ys, warned') => (Normal (y :: ys), warned ++ warned')
        | (Throw e, warned') => (Throw e, warned ++ warned')
        end
    | (Throw e, warned) => (Throw e, warned)
    end.
Proof. done. Qed.

Lemma map_effect_returns {A B} (f : A → effect B) l :
  Forall (λ x, ∃ y warned, f x = (Normal y, warned)) l →
  ∃ ys warned,
    map_effect f l = (Normal ys, warned)
    ∧ Forall2 (λ x y, ∃ warned', f x = (Normal y, warned')) l ys
    ∧ ∀ line, line ∈ warned → ∃ x, x ∈ l ∧ line ∈ (f x).2.
Proof.
  induction 1 as [|x rest (y & wx & Hx) _ (ys & w & IH & Hall & Hw)].
  - exists [], []. repeat split; [constructor|]. by intros ? ?%elem_of_nil.
  - exists (y :: ys), (wx ++ w). rewrite map_effect_cons, Hx, IH.
    split; [done|]. split; [constructor; eauto|].
    intros line [Hin|Hin]%elem_of_app.
    + exists x. split; [by left|]. by rewrite Hx.
    + destruct (Hw _ Hin) as (x' & ? & ?). exists x'. split; [by right|done].
Qed.

Lemma map_effect_throws {A B} (f : A → effect B) before x rest e warned :
  Forall (λ x, ∃ y warned, f x = (Normal y, warned)) before →
  f x = (Throw e, warned) →
  ∃ warned', map_effect f (before ++ x :: rest) = (Throw e, warned').
Proof.
  intros Hbefore Hx.
  induction Hbefore as [|x' before (y & wx & Hx') _ [w IH]]; simpl app.
  - rewrite map_effect_cons, Hx. by eexists.
  - rewrite map_effect_cons, Hx', IH. by eexists.
Qed.

Section ParseMenuFacts.

Variable new_URL : text → completion text.
Variable native_text : text → text.
Variable customPrefixes : gmap text text.

Abbreviation parseItem := (Menu.parseItem new_URL native_text customPrefixes).
Abbreviation parseMenu := (Menu.parseMenu new_URL native_text).

(** Every url is one that [new URL] accepts. *)
Abbreviation well_formed := (Forall (λ u, ∃ pathname, new_URL u = Normal pathname)).

Lemma well_formed_below (below : list MenuItem) :
  well_formed (flat_map urls below) →
  Forall (λ item, well_formed (urls item)) below.
Proof.
  induction below as [|x below IH]; simpl; [constructor|].
  intros [??]%Forall_app. constructor; auto.
Qed.

(** With well-formed urls an item is parsed without an exception; the
    result is undefined exactly for an item without a url or a type, and
    nothing but the warning about such items is written. *)
Lemma parseItem_returns item :
  well_formed (urls item) →
  ∃ r warned,
    parseItem item = (Normal r, warned)
    ∧ (is_Some r ↔ invalid item = false)
    ∧ ∀ line, line ∈ warned → line = invalid_item_warning.
Proof.
  induction item as [fields url type|fields url type below IH]
    using MenuItem_nested_ind; intros Hurls; simpl.
  - destruct (invalid _) eqn:Hinv.
    + eexists _, _. split; [done|].
      split; [by split; [intros [? [=]]|]|].
      by intros line ->%list_elem_of_singleton.
    + destruct url as [u|]; [|done]. simpl in Hurls.
      change (default [] (Some u)) with u.
      apply Forall_cons in Hurls as [[pathname ->] _]. simpl.
      eexists _, _. split; [done|]. split; [by split; [|eexists]|].
      by intros line ?%elem_of_nil.
  - destruct (invalid _) eqn:Hinv.
    + eexists _, _. split; [done|].
      split; [by split; [intros [? [=]]|]|].
      by intros line ->%list_elem_of_singleton.
    + destruct url as [u|]; [|done]. simpl in Hurls.
      change (default [] (Some u)) with u.
      apply Forall_cons in Hurls as [[pathname ->] Hbelow]. simpl.
      apply well_formed_below in Hbelow.
      destruct (map_effect_returns parseItem below) as (ys & w & -> & _ & Hw).
      { rewrite Forall_forall in IH, Hbelow. apply Forall_forall.
        intros x Hx. destruct (IH x Hx (Hbelow x Hx)) as (r & wx & ? & _).
        by eexists _, _. }
      eexists _, _. split; [done|]. split; [by split; [|eexists]|].
      intros line (x & Hx & Hline)%Hw.
      rewrite Forall_forall in IH, Hbelow.
      destruct (IH x Hx (Hbelow x Hx)) as (r & wx & Heq & _ & Hwx).
      rewrite Heq in Hline. by apply Hwx.
Qed.

(** X10: the links of an item.  An item with a url and a type, whose url
    and the urls below it are well formed, is given back with its
    properties copied and as many items below it as it had.  When the url
    holds the text [.myshopify.com] (anywhere, the query string included)
    the link is internal: it opens in the same tab and leads to the path
    that [resolveToFromType] makes of the type and of the pathname of the
    url.  Otherwise it is external: it opens in a new tab and leads to the
    url itself. *)
Theorem parseItem_link item u ty pathname :
  url item = Some u → u ≠ [] → type item = Some ty → ty ≠ [] →
  new_URL u = Normal pathname →
  well_formed (urls item) →
  ∃ e warned,
    parseItem item = (Normal (Some e), warned)
    ∧ item_fields e = fields item ∧ item_url e = Some u
    ∧ item_type e = Some ty
    ∧ length <$> enhanced_items e = length <$> items item
    ∧ ((∃ before rest, u = before ++ lit ".myshopify.com" ++ rest) →
       isExternal e = false ∧ target e = lit "_self"
       ∧ to e = Utils.resolveToFromType native_text
                  (Some {| Utils.type := Some ty;
                           Utils.customPrefixes := customPrefixes;
                           Utils.pathname := Some pathname |}))
    ∧ ((¬ ∃ before rest, u = before ++ lit ".myshopify.com" ++ rest) →
       isExternal e = true ∧ target e = lit "_blank" ∧ to e = u).
Proof.
  destruct item as [fields url0 type0 items0]. simpl.
  intros -> Hu -> Hty Hparse Hurls.
  unfold invalid. simpl.
  rewrite (bool_decide_eq_false_2 (u = [])) by done.
  rewrite (bool_decide_eq_false_2 (ty = [])) by done. simpl.
  change (default [] (Some u)) with u. rewrite Hparse.
  assert (∃ below' warned,
            match items0 with
            | Some below =>
                match map_effect parseItem below with
                | (Normal ys, w) => (Normal (Some ys), w)
                | (Throw e, w) => (Throw e, w)
                end
            | None => (Normal None, [])
            end = (Normal below', warned)
            ∧ length <$> below' = length <$> items0)
    as (below' & warned & Hbelow & Hlen).
  { destruct items0 as [below|]; [|by eexists _, _].
    apply Forall_cons in Hurls as [_ Hurls%well_formed_below].
    destruct (map_effect_returns parseItem below)
      as (ys & w & -> & Hall & _).
    - apply Forall_forall. intros x Hx. rewrite Forall_forall in Hurls.
      destruct (parseItem_returns x (Hurls x Hx)) as (r & wx & ? & _).
      by eexists _, _.
    - eexists _, _. split; [done|]. simpl. f_equal.
      symmetry. by eapply Forall2_length. }
  destruct (test myshopify_re u) eqn:Htest.
  - apply test_myshopify in Htest.
    destruct items0 as [below|].
    + destruct (map_effect parseItem below) as [[ys|?] w];
        [|done]. injection Hbelow as <- <-.
      eexists _, _. split; [done|]. simpl.
      repeat split; try done; try (intros Hno; by destruct Hno).
    + injection Hbelow as <- <-.
      eexists _, _. split; [done|]. simpl.
      repeat split; try done; try (intros Hno; by destruct Hno).
  - assert (¬ ∃ before rest, u = before ++ lit ".myshopify.com" ++ rest)
      as Hno.
    { intros H%test_myshopify. congruence. }
    destruct items0 as [below|].
    + destruct (map_effect parseItem below) as [[ys|?] w];
        [|done]. injection Hbelow as <- <-.
      eexists _, _. split; [done|]. simpl.
      repeat split; try done; try (intros H; by destruct Hno).
    + injection Hbelow as <- <-.
      eexists _, _. split; [done|]. simpl.
      repeat split; try done; try (intros H; by destruct Hno).
Qed.

(** X11: a menu without items (or no menu at all) is returned as it is,
    with a warning.  A menu whose urls are all well formed is returned
    with its properties and with one entry for each of its items, in order:
    undefined for an item without a url or a type, an enhanced item for any
    other; the only warnings are those about the items without a url or a
    type. *)
Theorem parseMenu_returns (menu : option Menu) :
  (menu ≫= menu_items = None →
   parseMenu menu customPrefixes
   = (Normal (Unchanged menu), [lit "Invalid menu passed to parseMenu"]))
  ∧ (∀ m items, menu = Some m → menu_items m = Some items →
       well_formed (flat_map urls items) →
       ∃ items' warned,
         parseMenu menu customPrefixes
         = (Normal (EnhancedMenu (menu_fields m) items'), warned)
         ∧ length items' = length items
         ∧ (∀ i item, items !! i = Some item →
              ∃ r, items' !! i = Some r
                   ∧ (r = None ↔ invalid item = true))
         ∧ ∀ line, line ∈ warned → line = invalid_item_warning).
Proof.
  unfold Menu.parseMenu. split; [by intros ->|].
  intros m items -> Hitems Hurls%well_formed_below. simpl. rewrite Hitems.
  assert (Forall (λ x, ∃ y warned, parseItem x = (Normal y, warned)) items)
    as Hret.
  { apply Forall_forall. intros x Hx. rewrite Forall_forall in Hurls.
    destruct (parseItem_returns x (Hurls x Hx)) as (r & wx & ? & _).
    by eexists _, _. }
  destruct (map_effect_returns parseItem items Hret)
    as (ys & w & -> & Hall & Hw).
  eexists _, _. split; [done|].
  split; [symmetry; by eapply Forall2_length|]. split.
  - intros i item Hi.
    destruct (Forall2_lookup_l _ _ _ _ _ Hall Hi) as (r & Hr & wx & Heq).
    exists r. split; [done|].
    rewrite Forall_forall in Hurls.
    destruct (parseItem_returns item (Hurls item (list_elem_of_lookup_2 _ _ _ Hi)))
      as (r' & wx' & Heq' & Hsome & _).
    rewrite Heq in Heq'. injection Heq' as <- <-.
    destruct r, (invalid item); split; try done.
    + intros _. assert (true = false) by (apply Hsome; by eexists). done.
    + intros _. by destruct (proj2 Hsome eq_refl) as [? [=]].
  - intros line (x & Hx & Hline)%Hw.
    rewrite Forall_forall in Hurls.
    destruct (parseItem_returns x (Hurls x Hx)) as (r & wx & Heq & _ & Hwx).
    rewrite Heq in Hline. by apply Hwx.
Qed.

(** X12: one malformed url is enough for no menu to be returned.  When an
    item with a url and a type has a url that [new URL] refuses, and the
    items before it are parsed without an exception, [parseMenu] throws the
    TypeError of [new URL], whatever the items after it are; so does
    [parseItem] for an item that has such an item below it. *)
Theorem parseMenu_malformed_url m before item rest u ty e :
  menu_items m = Some (before ++ item :: rest) →
  Forall (λ x, well_formed (urls x)) before →
  url item = Some u → u ≠ [] → type item = Some ty → ty ≠ [] →
  new_URL u = Throw e →
  (∃ warned, parseMenu (Some m) customPrefixes = (Throw e, warned))
  ∧ ∀ fields u' ty' pathname,
      u' ≠ [] → ty' ≠ [] → new_URL u' = Normal pathname →
      ∃ warned,
        parseItem {| fields := fields; url := Some u'; type := Some ty';
                     items := Some (before ++ item :: rest) |}
        = (Throw e, warned).
Proof.
  intros Hitems Hbefore Hu Hne Hty Hne' Hthrow.
  assert (parseItem item = (Throw e, [])) as Hitem.
  { destruct item as [fields url0 type0 items0]. simpl in *. subst.
    unfold invalid. simpl.
    rewrite (bool_decide_eq_false_2 (u = [])) by done.
    rewrite (bool_decide_eq_false_2 (ty = [])) by done. simpl.
    change (default [] (Some u)) with u. by rewrite Hthrow. }
  assert (∃ warned, map_effect parseItem (before ++ item :: rest)
                    = (Throw e, warned)) as [w Hmap].
  { eapply map_effect_throws; [|done].
    apply Forall_forall. intros x Hx. rewrite Forall_forall in Hbefore.
    destruct (parseItem_returns x (Hbefore x Hx)) as (r & wx & ? & _).
    by eexists _, _. }
  split.
  - unfold Menu.parseMenu. simpl. rewrite Hitems, Hmap. by eexists.
  - intros fields u' ty' pathname Hu' Hty' Hparse. simpl.
    unfold invalid. simpl.
    rewrite (bool_decide_eq_false_2 (u' = [])) by done.
    rewrite (bool_decide_eq_false_2 (ty' = [])) by done. simpl.
    change (default [] (Some u')) with u'. rewrite Hparse, Hmap.
    by eexists.
Qed.

End ParseMenuFacts.

Lemma sample_urls_well_formed :
  Forall (λ u, ∃ pathname, sample_new_URL u = Normal pathname)
    (flat_map urls [shirts_item; blog_item]).
Proof. repeat constructor; by eexists. Qed.

Lemma parseItem_link_witness :
  ∃ e, (parseItem sample_new_URL id ∅ shirts_item).1 = Normal (Some e)
       ∧ isExternal e = false ∧ to e = lit "/collections/shirts".
Proof.
  destruct (parseItem_link sample_new_URL id ∅ shirts_item
              (lit "https://snow.myshopify.com/collections/shirts")
              (lit "COLLECTION") (lit "/collections/shirts")
              eq_refl ltac:(done) eq_refl ltac:(done) eq_refl)
    as (e & warned & Heq & _ & _ & _ & _ & Hinternal & _).
  { repeat constructor; by eexists. }
  exists e. rewrite Heq. split; [done|].
  destruct Hinternal as (-> & _ & ->).
  - by exists (lit "https://snow"), (lit "/collections/shirts").
  - split; [done|]. by vm_compute.
Defined.

Lemma parseMenu_returns_witness :
  ∃ items',
    (parseMenu sample_new_URL id (Some sample_menu) ∅).1
    = Normal (EnhancedMenu {[ lit "id" := lit "main" ]} items')
    ∧ length items' = 2.
Proof.
  destruct (proj2 (parseMenu_returns sample_new_URL id ∅
                     (Some sample_menu))
              sample_menu [shirts_item; blog_item] eq_refl eq_refl
              sample_urls_well_formed)
    as (items' & warned & Heq & Hlen & _).
  exists items'. by rewrite Heq.
Defined.

Lemma parseMenu_malformed_url_witness :
  ∃ warned,
    parseMenu sample_new_URL id (Some broken_menu) ∅
    = (Throw (lit "TypeError: Invalid URL"), warned).
Proof.
  refine (proj1 (parseMenu_malformed_url sample_new_URL id ∅
                   broken_menu [shirts_item] relative_item [blog_item]
                   (lit "/pages/about") (lit "PAGE")
                   (lit "TypeError: Invalid URL")
                   eq_refl _ eq_refl _ eq_refl _ eq_refl)); try done.
  repeat constructor; by eexists.
Defined.

End MenuFacts.
(** ** Properties of storefrontRedirect *)

Module RedirectFacts.
Import JS Redirect.

(** *** Header values *)

Lemma strip_leading_kept c s :
  http_whitespace c = false → strip_leading (c :: s) = c :: s.
Proof. intros Hc. simpl. by rewrite Hc. Qed.

Lemma strip_leading_suffix s : ∃ k, s = k ++ strip_leading s.
Proof.
  induction s as [|c s [k IH]]; [by exists []|]. simpl.
  destruct (http_whitespace c); [|by exists []].
  exists (c :: k). simpl. by rewrite <-IH.
Qed.

(** What is left of a string after normalisation is a part of it. *)
Lemma normalize_part s c : c ∈ normalize s → c ∈ s.
Proof.
  unfold normalize. intros Hc. rewrite elem_of_reverse in Hc.
  destruct (strip_leading_suffix (reverse (strip_leading s))) as [k Hk].
  assert (c ∈ reverse (strip_leading s)) as H.
  { rewrite Hk. apply elem_of_app. by right. }
  rewrite elem_of_reverse in H.
  destruct (strip_leading_suffix s) as [k' Hk'].
  rewrite Hk'. apply elem_of_app. by right.
Qed.

Lemma not_whitespace c :
  c ≠ 9%N → c ≠ 10%N → c ≠ 13%N → c ≠ 32%N → http_whitespace c = false.
Proof.
  intros. unfold http_whitespace.
  repeat match goal with
         | |- context [(c =? ?k)%N] => destruct (N.eqb_spec c k); [done|]
         end.
  done.
Qed.

(** A string with no white space at either end is left as it is. *)
Lemma normalize_clean s :
  (∀ c, head s = Some c ∨ last s = Some c → http_whitespace c = false) →
  normalize s = s.
Proof.
  intros Hends. unfold normalize.
  assert (strip_leading s = s) as ->.
  { destruct s as [|c s]; [done|]. apply strip_leading_kept, Hends. by left. }
  destruct (reverse s) as [|c r] eqn:Hr.
  - simpl. by rewrite <-Hr, reverse_involutive.
  - rewrite strip_leading_kept; [by rewrite <-Hr, reverse_involutive|].
    apply Hends. right.
    rewrite <-(reverse_involutive s), Hr, reverse_cons. by rewrite last_snoc.
Qed.

Section Facts.

Variable new_URL : text → URL.
Variable TypeError : text → text.
Variable getRedirectUrl : text → completion (option text).

Abbreviation looks_up := (Redirect.looks_up new_URL).
Abbreviation redirectFrom := (Redirect.redirectFrom new_URL).
Abbreviation header_value := (Redirect.header_value TypeError).

(** A string of bytes without NUL, line feed and carriage return, and
    without a tab or a space at either end, is a header value as it is. *)
Lemma header_value_clean s :
  Forall (λ c, (c ≤ 255)%N ∧ c ≠ 0%N ∧ c ≠ 10%N ∧ c ≠ 13%N) s →
  (∀ c, head s = Some c ∨ last s = Some c → c ≠ 9%N ∧ c ≠ 32%N) →
  header_value s = Normal s.
Proof.
  intros Hall Hends. unfold Redirect.header_value.
  assert (is_byte_string s = true) as ->.
  { apply Is_true_true, forallb_True. eapply Forall_impl; [exact Hall|].
    intros c (Hc & _). simpl. apply Is_true_true, N.leb_le, Hc. }
  rewrite normalize_clean.
  - assert (is_header_value s = true) as ->; [|done].
    apply Is_true_true, forallb_True. eapply Forall_impl; [exact Hall|].
    intros c (_ & H0 & H10 & H13). simpl. apply Is_true_true.
    destruct (N.eqb_spec c 0), (N.eqb_spec c 10), (N.eqb_spec c 13); done.
  - intros c Hc. destruct (Hends c Hc) as [H9 H32].
    assert (c ∈ s) as Hin.
    { destruct Hc as [Hc|Hc].
      - destruct s; [done|]. injection Hc as ->. by left.
      - apply last_Some in Hc as [k ->]. apply elem_of_app. right. by left. }
    rewrite Forall_forall in Hall.
    destruct (Hall c Hin) as (_ & _ & H10 & H13).
    by apply not_whitespace.
Qed.

(** A string with a code unit above 255 is no byte string. *)
Lemma header_value_wide s :
  Exists (λ c, (255 < c)%N) s → header_value s = Throw (TypeError s).
Proof.
  intros Hwide. unfold Redirect.header_value.
  destruct (is_byte_string s) eqn:Hb; [|done].
  apply Is_true_true, forallb_True in Hb.
  apply Exists_exists in Hwide as (c & Hin & Hc).
  rewrite Forall_forall in Hb. specialize (Hb c Hin). simpl in Hb.
  apply Is_true_true, N.leb_le in Hb. lia.
Qed.

(** Every header value is a string of bytes without NUL, line feed and
    carriage return. *)
Lemma header_value_sound s value :
  header_value s = Normal value →
  Forall (λ c, (c ≤ 255)%N ∧ c ≠ 0%N ∧ c ≠ 10%N ∧ c ≠ 13%N) value.
Proof.
  unfold Redirect.header_value.
  destruct (is_byte_string s) eqn:Hb; [|done].
  destruct (is_header_value (normalize s)) eqn:Hv; [|done].
  intros [= <-].
  apply Is_true_true, forallb_True in Hb, Hv.
  rewrite Forall_forall in Hb, Hv. apply Forall_forall. intros c Hin.
  specialize (Hv c Hin). specialize (Hb c (normalize_part _ _ Hin)).
  simpl in Hb, Hv. apply Is_true_true, N.leb_le in Hb.
  split; [done|].
  destruct (N.eqb_spec c 0), (N.eqb_spec c 10), (N.eqb_spec c 13); done.
Qed.

(** The non-empty target of the first edge of the answer to the query. *)
Lemma first_target_edge data location :
  first_target data = Some location ∧ location ≠ []
  ↔ ∃ connection edge rest found,
      urlRedirects data = Some connection
      ∧ edges connection = Some (Some edge :: rest)
      ∧ node edge = Some found ∧ target found = Some location
      ∧ location ≠ [].
Proof.
  unfold first_target. split.
  - intros [Ht Hne].
    destruct (urlRedirects data) as [connection|]; [|done]. simpl in Ht.
    destruct (edges connection) as [[|[edge|] rest]|] eqn:He; try done.
    simpl in Ht.
    destruct (node edge) as [found|] eqn:Hn; [|done]. simpl in Ht.
    by exists connection, edge, rest, found.
  - intros (connection & edge & rest & found & -> & He & Hn & Ht & Hne).
    simpl. rewrite He. simpl. rewrite Hn. done.
Qed.

Lemma truthy_text_true o :
  truthy_text o = true ↔ ∃ s, o = Some s ∧ s ≠ [].
Proof.
  destruct o as [s|]; simpl.
  - rewrite negb_true_iff, bool_decide_eq_false.
    split; [by eauto | by intros (? & [= <-] & ?)].
  - split; [done | by intros (? & ? & _)].
Qed.

Lemma storefrontRedirect_unfold options :
  looks_up options →
  storefrontRedirect new_URL TypeError getRedirectUrl options =
    match lookup_redirect TypeError getRedirectUrl options
            (redirectFrom options) with
    | Normal (Some found) => (Normal found, [])
    | Normal None => (Normal (default not_found (response options)), [])
    | Throw error =>
        (Normal (default not_found (response options)),
         [(lit "Failed to fetch redirects from Storefront API for route "
             ++ redirectFrom options, error)])
    end.
Proof.
  intros Hlook. unfold storefrontRedirect, Redirect.redirectFrom, Redirect.looks_up in *.
  destruct (new_URL _) as [p s]. simpl in *.
  destruct Hlook as [Hp | ->].
  - by rewrite bool_decide_eq_false_2.
  - simpl. by rewrite andb_false_r.
Qed.

(** The fallback of the call, written out. *)
Lemma fallback_unfold options :
  default not_found (response options)
  = match response options with
    | Some given => given
    | None =>
        {| status := 404; body := Some (lit "Not Found");
           headers :=
             {[ lit "content-type" := lit "text/plain;charset=UTF-8" ]} |}
    end.
Proof. by destruct (response options). Qed.


(** C2: when the query throws, the error is written to the console and the
    call still returns the response of the options, by default the 404
    "Not Found"; nothing is thrown again. *)
Theorem storefrontRedirect_query_failure options error :
  pathname (new_URL (url (request options))) ≠ lit "/admin"
  ∨ noAdminRedirect options = Some true →
  query (storefront options) REDIRECT_QUERY
    (lit "path:" ++ pathname (new_URL (url (request options)))
       ++ search (new_URL (url (request options)))) = Throw error →
  storefrontRedirect new_URL TypeError getRedirectUrl options
  = (Normal
       match response options with
       | Some given => given
       | None =>
           {| status := 404; body := Some (lit "Not Found");
              headers :=
                {[ lit "content-type" := lit "text/plain;charset=UTF-8" ]} |}
       end,
     [(lit "Failed to fetch redirects from Storefront API for route "
         ++ pathname (new_URL (url (request options)))
         ++ search (new_URL (url (request options))), error)]).
Proof.
  intros Hlook Hquery.
  rewrite storefrontRedirect_unfold, fallback_unfold by done.
  unfold lookup_redirect, Redirect.redirectFrom. by rewrite Hquery.
Qed.


(** X13: a request whose path is exactly [/admin] is sent to the admin page
    of the shop with a 302, unless [noAdminRedirect] is true.  The query
    string of the request is dropped, nothing is looked up and nothing is
    written to the console: the outcome is the same whatever the Storefront
    API, [getRedirectUrl] and the [response] option are.  The redirect is
    built outside the [try] block: when the address of the admin page is no
    header value, as with a code unit above 255 in the domain of the shop,
    the call throws the TypeError. *)
Theorem storefrontRedirect_admin options getRedirectUrl' query' response' :
  pathname (new_URL (url (request options))) = lit "/admin" →
  noAdminRedirect options ≠ Some true →
  let admin := getShopifyDomain (storefront options) ++ lit "/admin" in
  let redirected location :=
    (Normal {| status := 302; body := None;
               headers := {[ lit "location" := location ]} |},
     @nil log_entry) in
  let outcome :=
    match header_value admin with
    | Normal value => redirected value
    | Throw error => (Throw error, [])
    end in
  storefrontRedirect new_URL TypeError getRedirectUrl options = outcome
  ∧ storefrontRedirect new_URL TypeError getRedirectUrl'
      {| storefront :=
           {| getShopifyDomain := getShopifyDomain (storefront options);
              query := query' |};
         request := request options;
         response := response';
         noAdminRedirect := noAdminRedirect options |} = outcome
  ∧ (Forall (λ c, (c ≤ 255)%N ∧ c ≠ 0%N ∧ c ≠ 10%N ∧ c ≠ 13%N)
       (getShopifyDomain (storefront options)) →
     (∀ c, head (getShopifyDomain (storefront options)) = Some c →
           c ≠ 9%N ∧ c ≠ 32%N) →
     outcome = redirected admin)
  ∧ (Exists (λ c, (255 < c)%N) (getShopifyDomain (storefront options)) →
     outcome = (Throw (TypeError admin), [])).
Proof.
  intros Hp Hno admin redirected outcome.
  assert (∀ get options',
            pathname (new_URL (url (request options'))) = lit "/admin" →
            noAdminRedirect options' ≠ Some true →
            storefrontRedirect new_URL TypeError get options'
            = (redirect TypeError
                 (getShopifyDomain (storefront options') ++ lit "/admin"),
               [])) as Hadmin.
  { intros get options' Hp' Hno'. unfold storefrontRedirect.
    destruct (new_URL (url (request options'))) as [p s].
    simpl in Hp'. subst p.
    rewrite bool_decide_eq_true_2 by done.
    by destruct (noAdminRedirect options') as [[]|]. }
  assert ((redirect TypeError admin, @nil log_entry) = outcome) as Hout.
  { subst outcome redirected. cbv beta. unfold redirect.
    by destruct (header_value admin). }
  split; [by rewrite Hadmin|]. split; [by rewrite Hadmin|]. split.
  - intros Hall Hhead. subst outcome. cbv beta.
    rewrite header_value_clean; [done| |].
    + subst admin. apply Forall_app. split; [done|].
      apply Forall_forall. intros c Hc.
      assert (c ∈ [47; 97; 100; 109; 105; 110]%N) as Hc' by exact Hc.
      set_unfold in Hc'. destruct Hc' as [->|[->|[->|[->|[->|[->|[]]]]]]];
        repeat split; (lia || done).
    + intros c [Hc|Hc].
      * subst admin.
        destruct (getShopifyDomain (storefront options)) as [|d ds];
          [injection Hc as <-; done|].
        apply Hhead. exact Hc.
      * subst admin. rewrite last_app in Hc.
        change (last (lit "/admin")) with (Some 110%N) in Hc.
        injection Hc as <-. done.
  - intros Hwide. subst outcome. cbv beta.
    rewrite header_value_wide; [done|].
    subst admin. apply Exists_app. by left.
Qed.

(** X14: outside the admin redirect the call never throws.  It writes at
    most one line to the console, and when it does it returns the response
    of the options (by default the 404 "Not Found").  What it returns is
    that response or a redirect with status 301 or 302, without a body and
    with a [Location] made of bytes other than NUL, line feed and carriage
    return as its only header.  On the admin redirect the call throws
    exactly when the address of the admin page is no header value, and
    nothing is written to the console. *)
Theorem storefrontRedirect_outcomes options :
  let result := storefrontRedirect new_URL TypeError getRedirectUrl options in
  let fallback :=
    match response options with
    | Some given => given
    | None =>
        {| status := 404; body := Some (lit "Not Found");
           headers :=
             {[ lit "content-type" := lit "text/plain;charset=UTF-8" ]} |}
    end in
  let redirects r :=
    ∃ location,
      body r = None ∧ headers r = {[ lit "location" := location ]}
      ∧ (status r = 301 ∨ status r = 302)%Z
      ∧ Forall (λ c, (c ≤ 255)%N ∧ c ≠ 0%N ∧ c ≠ 10%N ∧ c ≠ 13%N) location in
  (pathname (new_URL (url (request options))) ≠ lit "/admin"
   ∨ noAdminRedirect options = Some true →
   ∃ r log,
     result = (Normal r, log)
     ∧ (log = []
        ∨ ∃ error,
            log = [(lit "Failed to fetch redirects from Storefront API for route "
                      ++ pathname (new_URL (url (request options)))
                      ++ search (new_URL (url (request options))), error)]
            ∧ r = fallback)
     ∧ (r = fallback ∨ redirects r))
  ∧ (pathname (new_URL (url (request options))) = lit "/admin" →
     noAdminRedirect options ≠ Some true →
     result.2 = []
     ∧ match header_value (getShopifyDomain (storefront options)
                             ++ lit "/admin") with
       | Normal _ => ∃ r, result.1 = Normal r ∧ redirects r ∧ status r = 302%Z
       | Throw error => result.1 = Throw error
       end).
Proof.
  intros result fallback redirects.
  assert (∀ code location built,
            (code = 301 ∨ code = 302)%Z →
            built = match header_value location with
                    | Normal value =>
                        Normal {| status := code; body := None;
                                  headers := {[ lit "location" := value ]} |}
                    | Throw error => Throw error
                    end →
            match built with
            | Normal r => redirects r ∧ status r = code
            | Throw _ => True
            end) as Hbuilt.
  { intros code location built Hcode ->.
    destruct (header_value location) as [value|] eqn:Hv; [|done].
    split; [|done]. exists value. simpl.
    repeat split; try done. by eapply header_value_sound. }
  split.
  - intros Hlook. subst result.
    rewrite storefrontRedirect_unfold, fallback_unfold by done.
    fold fallback. unfold Redirect.redirectFrom.
    set (line (error : text) :=
           (lit "Failed to fetch redirects from Storefront API for route "
              ++ pathname (new_URL (url (request options)))
              ++ search (new_URL (url (request options))), error)).
    assert (∀ code location built,
              (code = 301 ∨ code = 302)%Z →
              built = match header_value location with
                      | Normal value =>
                          Normal {| status := code; body := None;
                                    headers := {[ lit "location" := value ]} |}
                      | Throw error => Throw error
                      end →
              ∃ r log,
                match returning built with
                | Normal (Some found) => (Normal found, [])
                | Normal None => (Normal fallback, [])
                | Throw error => (Normal fallback, [line error])
                end = (Normal r, log)
                ∧ (log = [] ∨ ∃ error, log = [line error] ∧ r = fallback)
                ∧ (r = fallback ∨ redirects r)) as Hret.
    { intros code location built Hcode Hb.
      pose proof (Hbuilt code location built Hcode Hb) as H.
      destruct built as [r|error]; simpl.
      - exists r, []. split; [done|]. split; [by left|]. right. apply H.
      - exists fallback, [line error]. split; [done|].
        split; [right; by exists error | by left]. }
    unfold lookup_redirect.
    destruct (query _ _ _) as [data|error].
    + destruct (truthy_text (first_target data)).
      { eapply (Hret 301%Z); [by left | reflexivity]. }
      destruct (getRedirectUrl _) as [redirectTo|error].
      * destruct (truthy_text redirectTo).
        { eapply (Hret 302%Z); [by right | reflexivity]. }
        exists fallback, []. split; [done|]. split; by left.
      * exists fallback, [line error]. split; [done|].
        split; [right; by exists error | by left].
    + exists fallback, [line error]. split; [done|].
      split; [right; by exists error | by left].
  - intros Hp Hno. subst result. unfold storefrontRedirect.
    destruct (new_URL _) as [p s]. simpl in Hp. subst p.
    rewrite bool_decide_eq_true_2 by done.
    assert (negb (default false (noAdminRedirect options)) = true) as ->
      by (by destruct (noAdminRedirect options) as [[]|]).
    simpl. split; [done|].
    pose proof (Hbuilt 302%Z (getShopifyDomain (storefront options)
                                ++ lit "/admin")
                  _ (or_intror eq_refl) eq_refl) as H.
    unfold redirect.
    destruct (header_value _) as [value|error]; [|done].
    eexists. split; [done|]. exact H.
Qed.

(** X15: a failure of [getRedirectUrl], which is called when the Storefront
    API names no target, is handled like a failure of the query: the error
    is written to the console under the same message and the response of
    the options, by default the 404 "Not Found", is returned. *)
Theorem storefrontRedirect_getRedirectUrl_failure options data error :
  pathname (new_URL (url (request options))) ≠ lit "/admin"
  ∨ noAdminRedirect options = Some true →
  query (storefront options) REDIRECT_QUERY
    (lit "path:" ++ pathname (new_URL (url (request options)))
       ++ search (new_URL (url (request options)))) = Normal data →
  (¬ ∃ connection edge rest found location,
       urlRedirects data = Some connection
       ∧ edges connection = Some (Some edge :: rest)
       ∧ node edge = Some found ∧ target found = Some location
       ∧ location ≠ []) →
  getRedirectUrl (url (request options)) = Throw error →
  storefrontRedirect new_URL TypeError getRedirectUrl options
  = (Normal
       match response options with
       | Some given => given
       | None =>
           {| status := 404; body := Some (lit "Not Found");
              headers :=
                {[ lit "content-type" := lit "text/plain;charset=UTF-8" ]} |}
       end,
     [(lit "Failed to fetch redirects from Storefront API for route "
         ++ pathname (new_URL (url (request options)))
         ++ search (new_URL (url (request options))), error)]).
Proof.
  intros Hlook Hquery Hnone Hget.
  assert (truthy_text (first_target data) = false) as Hfalse.
  { apply not_true_is_false. intros (location & Ht & Hne)%truthy_text_true.
    apply Hnone.
    destruct (proj1 (first_target_edge data location) (conj Ht Hne))
      as (connection & edge & rest & found & H).
    by exists connection, edge, rest, found, location. }
  rewrite storefrontRedirect_unfold, fallback_unfold by done.
  unfold lookup_redirect, Redirect.redirectFrom.
  by rewrite Hquery, Hfalse, Hget.
Qed.
End Facts.



Lemma storefrontRedirect_query_failure_witness :
  storefrontRedirect example_URL example_TypeError (λ _, Normal None)
    (example_options (Throw (lit "503")))
  = (Normal {| status := 404; body := Some (lit "Not Found");
               headers :=
                 {[ lit "content-type" := lit "text/plain;charset=UTF-8" ]} |},
     [(lit "Failed to fetch redirects from Storefront API for route /old-page",
       lit "503")]).
Proof.
  refine (storefrontRedirect_query_failure example_URL example_TypeError
            (λ _, Normal None) (example_options (Throw (lit "503")))
            (lit "503") _ eq_refl).
  left. by vm_compute.
Defined.


(** A request for [/admin?tab=orders], on the shop of the examples and on
    a shop whose domain is written with a code unit above 255. *)
Lemma storefrontRedirect_admin_witness :
  let admin_URL := λ _ : text,
    {| pathname := lit "/admin"; search := lit "?tab=orders" |} in
  let wide_options :=
    {| storefront :=
         {| getShopifyDomain := lit "https://" ++ [21830%N] ++ lit ".example";
            query := λ _ _, Throw (lit "503") |};
       request := {| url := lit "https://shop.example/admin?tab=orders" |};
       response := None;
       noAdminRedirect := Some false |} in
  storefrontRedirect admin_URL example_TypeError
    (λ _, Throw (lit "never called")) (example_options (Throw (lit "503")))
  = (Normal {| status := 302; body := None;
               headers :=
                 {[ lit "location" := lit "https://shop.example/admin" ]} |},
     [])
  ∧ storefrontRedirect admin_URL example_TypeError
      (λ _, Throw (lit "never called")) wide_options
    = (Throw (example_TypeError
                (lit "https://" ++ [21830%N] ++ lit ".example/admin")), []).
Proof.
  intros admin_URL wide_options. split.
  - destruct (storefrontRedirect_admin admin_URL example_TypeError
                (λ _, Throw (lit "never called"))
                (example_options (Throw (lit "503")))
                (λ _, Normal None) (λ _ _, Throw []) None eq_refl)
      as (Hcall & _ & Hclean & _); [done|].
    rewrite Hcall. apply Hclean.
    + decide_closed.
    + intros c Hc. vm_compute in Hc. injection Hc as <-. done.
  - destruct (storefrontRedirect_admin admin_URL example_TypeError
                (λ _, Throw (lit "never called")) wide_options
                (λ _, Normal None) (λ _ _, Throw []) None eq_refl)
      as (Hcall & _ & _ & Hwide); [done|].
    rewrite Hcall. apply Hwide. decide_closed.
Defined.

Lemma storefrontRedirect_outcomes_witness :
  ∃ r log,
    storefrontRedirect example_URL example_TypeError (λ _, Normal None)
      (example_options (Normal example_data)) = (Normal r, log)
    ∧ log = [] ∧ status r = 301%Z.
Proof.
  destruct (proj1 (storefrontRedirect_outcomes example_URL example_TypeError
                     (λ _, Normal None)
                     (example_options (Normal example_data))))
    as (r & log & Heq & _ & _); [left; by vm_compute|].
  exists r, log. split; [exact Heq|].
  vm_compute in Heq. injection Heq as <- <-. by split.
Defined.

(** The API names no target and the query string of the request cannot be
    read. *)
Lemma storefrontRedirect_getRedirectUrl_failure_witness :
  storefrontRedirect example_URL example_TypeError
    (λ _, Throw (lit "URIError"))
    (example_options (Normal {| urlRedirects := None |}))
  = (Normal {| status := 404; body := Some (lit "Not Found");
               headers :=
                 {[ lit "content-type" := lit "text/plain;charset=UTF-8" ]} |},
     [(lit "Failed to fetch redirects from Storefront API for route /old-page",
       lit "URIError")]).
Proof.
  refine (storefrontRedirect_getRedirectUrl_failure example_URL
            example_TypeError (λ _, Throw (lit "URIError"))
            (example_options (Normal {| urlRedirects := None |}))
            {| urlRedirects := None |} (lit "URIError") _ eq_refl _ eq_refl).
  - left. by vm_compute.
  - by intros (? & ? & ? & ? & ? & [=] & _).
Defined.
End RedirectFacts.

(** ** Properties of setupLocalStarterTemplate *)

Module LocalFacts.
Import JS JSRegExp Local.

(** *** The rewrite of package.json *)

Section PackageJsonFacts.
Import JSRegExpFacts.

Variable hyphenate : text → text.
Variable joinPath : text → text → text.









End PackageJsonFacts.

Section Runs.

Variable sess : Session.

Abbreviation valid := (Local.valid sess).
Abbreviation enabled := (Local.enabled sess).
Abbreviation ready := (Local.ready sess).

(** *** Histories only grow *)

Lemma happened_cons e e' h :
  happened e (e' :: h) = bool_decide (e = e') || happened e h.
Proof.
  unfold happened.
  destruct (decide (e = e')) as [->|Hne].
  - rewrite (bool_decide_eq_true_2 (e' = e')) by done.
    by rewrite bool_decide_eq_true_2 by left.
  - rewrite (bool_decide_eq_false_2 (e = e')) by done. simpl.
    apply bool_decide_ext. rewrite elem_of_cons.
    split; [by intros [?|?] | by right].
Qed.

Lemma happened_true e h : happened e h = true ↔ e ∈ h.
Proof. unfold happened. apply bool_decide_eq_true. Qed.

Lemma monotone_happened e : monotone (happened e).
Proof. intros e' h H. rewrite happened_cons, H. apply orb_true_r. Qed.

Lemma monotone_rejected s : monotone (rejected s).
Proof. intros e h H. unfold rejected in *. simpl. rewrite H. apply orb_true_r. Qed.

Lemma monotone_const b : monotone (λ _, b).
Proof. by intros ???. Qed.

Lemma monotone_and f g :
  monotone f → monotone g → monotone (λ h, f h && g h).
Proof.
  intros Hf Hg e h [??]%andb_prop. by rewrite Hf, Hg.
Qed.

Lemma monotone_or f g :
  monotone f → monotone g → monotone (λ h, f h || g h).
Proof.
  intros Hf Hg e h [?|?]%orb_prop; [rewrite Hf | rewrite Hg];
    rewrite ?orb_true_r; done.
Qed.

Lemma monotone_app f h1 h2 : monotone f → f h1 = true → f (h2 ++ h1) = true.
Proof. intros Hf H. induction h2; simpl; auto. Qed.

Ltac monotonicity :=
  repeat first
    [ apply monotone_happened | apply monotone_rejected
    | apply monotone_const
    | apply (monotone_and (λ h, _) (λ h, _))
    | apply (monotone_or (λ h, _) (λ h, _)) ].

Lemma monotone_settled s : monotone (settled s).
Proof. unfold settled, resolved. monotonicity. Qed.

Lemma monotone_storefront_created : monotone (storefront_created sess).
Proof.
  unfold storefront_created, resolved. destruct (storefrontJob sess); monotonicity.
Qed.

Lemma monotone_files_written : monotone (files_written sess).
Proof.
  unfold files_written, resolved.
  destruct (linked sess), (templateAction sess); monotonicity.
Qed.

Lemma monotone_styled : monotone (styled sess).
Proof. unfold styled, resolved. destruct (chosenCss sess); monotonicity. Qed.

Lemma monotone_shortcut_done : monotone (shortcut_done sess).
Proof.
  unfold shortcut_done, resolved.
  destruct (offersShortcut sess); [monotonicity | apply monotone_styled].
Qed.

Lemma monotone_i18n_over : monotone i18n_over.
Proof.
  unfold i18n_over. apply (monotone_or (λ h, _) (λ h, _));
    [monotonicity | apply monotone_settled].
Qed.

Lemma monotone_routes_over : monotone routes_over.
Proof.
  unfold routes_over. apply (monotone_or (λ h, _) (λ h, _));
    [monotonicity | apply monotone_settled].
Qed.

Lemma monotone_ready s : monotone (ready s).
Proof.
  destruct s; unfold Local.ready, passed, started, resolved;
    repeat first
      [ apply monotone_storefront_created | apply monotone_files_written
      | apply monotone_styled | apply monotone_shortcut_done
      | apply monotone_i18n_over
      | apply monotone_happened | apply monotone_const
      | apply (monotone_and (λ h, _) (λ h, _)) ].
Qed.

(** *** What a valid run contains *)

Lemma valid_cons e h :
  valid (e :: h) = true ↔ valid h = true ∧ enabled h e = true.
Proof. simpl. apply andb_true_iff. Qed.

Lemma valid_app h2 h1 : valid (h2 ++ h1) = true → valid h1 = true.
Proof.
  induction h2 as [|e h2 IH]; simpl; [done|].
  intros [H _]%andb_prop. auto.
Qed.

(** Every event of a run was enabled when it happened. *)
Lemma occurred e h :
  valid h = true → e ∈ h →
  ∃ h2 h1, h = h2 ++ e :: h1 ∧ valid h1 = true ∧ enabled h1 e = true.
Proof.
  intros Hv (h2 & h1 & ->)%list_elem_of_split.
  apply valid_app, valid_cons in Hv as [??]. by exists h2, h1.
Qed.

Lemma enabled_live h e :
  enabled h e = true → aborted h = false ∧ returned h = false.
Proof.
  unfold Local.enabled. intros [[H1 H2]%andb_prop _]%andb_prop.
  by destruct (aborted h), (returned h).
Qed.

Lemma enabled_start h s :
  enabled h (Start s) = true → started s h = false ∧ ready s h = true.
Proof.
  unfold Local.enabled. intros [_ [H1 H2]%andb_prop]%andb_prop.
  by destruct (started s h).
Qed.

Lemma enabled_resolve h s :
  enabled h (Resolve s) = true → started s h = true ∧ settled s h = false.
Proof.
  unfold Local.enabled. intros [_ [H1 H2]%andb_prop]%andb_prop.
  by destruct (settled s h).
Qed.

Lemma enabled_reject h s error :
  enabled h (Reject s error) = true →
  started s h = true ∧ settled s h = false.
Proof.
  unfold Local.enabled. intros [_ [H1 H2]%andb_prop]%andb_prop.
  by destruct (settled s h).
Qed.

Lemma enabled_main h m :
  enabled h (Main m) = true → passed m h = false ∧ main_ready sess m h = true.
Proof.
  unfold Local.enabled. intros [_ [H1 H2]%andb_prop]%andb_prop.
  by destruct (passed m h).
Qed.

Lemma rejected_true s h : rejected s h = true ↔ ∃ error, Reject s error ∈ h.
Proof.
  unfold rejected. rewrite existsb_exists. split.
  - intros ([| | |s' error] & Hin & Hs); try done.
    apply bool_decide_eq_true in Hs as ->.
    exists error. by apply list_elem_of_In.
  - intros [error Hin]. exists (Reject s error).
    split; [by apply list_elem_of_In|]. by apply bool_decide_eq_true.
Qed.

(** A step that has started was ready to. *)
Lemma started_ready s h :
  valid h = true → started s h = true → ready s h = true.
Proof.
  intros Hv Hs%happened_true.
  destruct (occurred _ _ Hv Hs) as (h2 & h1 & -> & _ & [_ Hr]%enabled_start).
  apply (monotone_app _ _ (h2 ++ [Start s])) in Hr; [|apply monotone_ready].
  by rewrite <-app_assoc in Hr.
Qed.

Lemma resolved_started s h :
  valid h = true → resolved s h = true → started s h = true.
Proof.
  intros Hv Hs%happened_true.
  destruct (occurred _ _ Hv Hs) as (h2 & h1 & -> & _ & [Hr _]%enabled_resolve).
  apply (monotone_app _ _ (h2 ++ [Resolve s])) in Hr;
    [|apply monotone_happened].
  by rewrite <-app_assoc in Hr.
Qed.

Lemma rejected_started s h :
  valid h = true → rejected s h = true → started s h = true.
Proof.
  intros Hv [error Hs]%rejected_true.
  destruct (occurred _ _ Hv Hs) as (h2 & h1 & -> & _ & [Hr _]%enabled_reject).
  apply (monotone_app _ _ (h2 ++ [Reject s error])) in Hr;
    [|apply monotone_happened].
  by rewrite <-app_assoc in Hr.
Qed.

Lemma resolved_ready s h :
  valid h = true → resolved s h = true → ready s h = true.
Proof. eauto using started_ready, resolved_started. Qed.

Lemma settled_started s h :
  valid h = true → settled s h = true → started s h = true.
Proof.
  intros Hv [?|?]%orb_prop; eauto using resolved_started, rejected_started.
Qed.

(** The main flow passes its points in order. *)
Lemma passed_ready m h :
  valid h = true → passed m h = true →
  ∃ h2 h1, h = h2 ++ Main m :: h1 ∧ valid h1 = true
           ∧ main_ready sess m h1 = true.
Proof.
  intros Hv Hs%happened_true.
  destruct (occurred _ _ Hv Hs) as (h2 & h1 & -> & ? & [_ Hr]%enabled_main).
  by exists h2, h1.
Qed.

Lemma passed_after m m' h :
  (∀ h1, main_ready sess m h1 = true → passed m' h1 = true) →
  valid h = true → passed m h = true → passed m' h = true.
Proof.
  intros Hm Hv Hp.
  destruct (passed_ready _ _ Hv Hp) as (h2 & h1 & -> & _ & Hr%Hm).
  apply (monotone_app _ _ (h2 ++ [Main m])) in Hr; [|apply monotone_happened].
  by rewrite <-app_assoc in Hr.
Qed.

(** *** Chasing a step back along the chain of promises *)

Ltac in_list := by repeat constructor.

Ltac learn H :=
  let T := type of H in
  lazymatch goal with
  | _ : T |- _ => fail
  | _ => pose proof H
  end.

Ltac chase_step Hv :=
  match goal with
  | H : _ && _ = true |- _ => apply andb_prop in H as [? ?]
  | H : _ || _ = true |- _ => apply orb_prop in H as [?|?]
  | H : resolved ?s ?h = true |- _ => learn (resolved_started s h Hv H)
  | H : rejected ?s ?h = true |- _ => learn (rejected_started s h Hv H)
  | H : settled ?s ?h = true |- _ => learn (settled_started s h Hv H)
  | H : started ?s ?h = true |- _ =>
      lazymatch goal with
      | _ : chased s |- _ => fail
      | _ =>
          assert (chased s) by exact I;
          let Hr := fresh "Hr" in
          pose proof (started_ready s h Hv H) as Hr;
          cbn [Local.ready] in Hr
      end
  | H : files_written _ _ = true |- _ => unfold files_written in H
  | H : styled _ _ = true |- _ => unfold styled in H
  | H : shortcut_done _ _ = true |- _ => unfold shortcut_done in H
  | H : storefront_created _ _ = true |- _ => unfold storefront_created in H
  | H : i18n_over _ = true |- _ => unfold i18n_over in H
  | H : routes_over _ = true |- _ => unfold routes_over in H
  | H : background_fulfilled _ _ = true |- _ => unfold background_fulfilled in H
  | H : tasks_fulfilled _ _ = true |- _ => unfold tasks_fulfilled in H
  | H : (if ?b then _ else _) = true |- _ => destruct b eqn:?
  | H : match ?x with Some _ => _ | None => _ end = true |- _ =>
      destruct x eqn:?
  | H : match ?x with Mock => _ | Link => _ end = true |- _ =>
      destruct x eqn:?
  end.

(** [chase Hv] saturates the context; [chase_to Hv] stops as soon as the
    goal is among the facts found. *)
Ltac chase Hv := repeat chase_step Hv.
Ltac chase_to Hv := repeat (first [ assumption | discriminate | chase_step Hv ]).

(** Every step but the creation of the storefront starts after the copy
    of the template has completed. *)
Lemma started_after_copy s h :
  valid h = true → started s h = true →
  s ∉ [CreateStorefront; WaitForJob; CopyTemplate] →
  resolved CopyTemplate h = true.
Proof.
  intros Hv Hs Hni.
  repeat (apply not_elem_of_cons in Hni as [? Hni]).
  destruct s; try done; chase_to Hv.
Qed.

(** *** The main flow *)

Lemma passed_previous m m' h :
  previous m = Some m' →
  valid h = true → passed m h = true → passed m' h = true.
Proof.
  intros Hm. apply passed_after. intros h1.
  destruct m; simpl in Hm; try done; injection Hm as <-; simpl;
    repeat (intros [H ?]%andb_prop; revert H); done.
Qed.

Lemma passed_deps m h :
  valid h = true → passed m h = true →
  m ∈ [ShortcutChosen; ScaffoldChosen; TasksRendered; LockfileCommitted;
       ProjectReady] →
  passed DepsChosen h = true.
Proof.
  intros Hv Hp Hm.
  pose proof (passed_previous ShortcutChosen _ h eq_refl Hv) as H1.
  pose proof (passed_previous ScaffoldChosen _ h eq_refl Hv) as H2.
  pose proof (passed_previous TasksRendered _ h eq_refl Hv) as H3.
  pose proof (passed_previous LockfileCommitted _ h eq_refl Hv) as H4.
  pose proof (passed_previous ProjectReady _ h eq_refl Hv) as H5.
  repeat (apply elem_of_cons in Hm as [-> | Hm]; [auto 10|]).
  by apply elem_of_nil in Hm.
Qed.

(** Once [renderTasks] has resolved, all it waited for is over. *)
Lemma rendered_tasks h :
  valid h = true → passed TasksRendered h = true →
  tasks_fulfilled sess h = true.
Proof.
  intros Hv Hp.
  destruct (passed_ready _ _ Hv Hp) as (h2 & h1 & -> & _ & Hr).
  simpl in Hr. apply andb_prop in Hr as [_ Hr].
  apply (monotone_app _ _ (h2 ++ [Main TasksRendered])) in Hr.
  - by rewrite <-app_assoc in Hr.
  - unfold tasks_fulfilled, background_fulfilled.
    destruct (continueWithSetup sess);
      repeat first
        [ apply monotone_storefront_created | apply monotone_shortcut_done
        | apply monotone_routes_over | apply monotone_settled
        | apply monotone_const
        | apply (monotone_and (λ h, _) (λ h, _))
        | apply (monotone_or (λ h, _) (λ h, _)) ].
Qed.

(** A step settles once. *)
Lemma settle_once s h :
  valid h = true → resolved s h = true → rejected s h = true → False.
Proof.
  induction h as [|e h IH]; [done|].
  intros [Hv He]%valid_cons. unfold resolved. rewrite happened_cons.
  unfold rejected. simpl. fold (rejected s h). fold (resolved s h).
  intros [Hres|Hres]%orb_prop [Hrej|Hrej]%orb_prop.
  - apply bool_decide_eq_true in Hres as <-. done.
  - apply bool_decide_eq_true in Hres as <-.
    apply enabled_resolve in He as [_ He]. unfold settled in He.
    rewrite Hrej, orb_true_r in He. done.
  - destruct e as [| | |s' error]; try done.
    apply bool_decide_eq_true in Hrej as ->.
    apply enabled_reject in He as [_ He]. unfold settled in He.
    rewrite Hres in He. done.
  - auto.
Qed.

(** The steps whose outcome goes to the summary start after the summary
    has been created. *)
Lemma summary_step_after_deps s h :
  valid h = true → started s h = true →
  s ∈ [InstallDeps; CreateShortcut; SetupI18n; CommitI18n; SetupRoutes;
       CommitRoutes] →
  passed DepsChosen h = true.
Proof.
  intros Hv Hs Hin.
  assert (started InstallDeps h = true → passed DepsChosen h = true) as HD.
  { intros H%started_ready; [|done]. cbn [Local.ready] in H.
    by apply andb_prop in H as [[H _]%andb_prop _]. }
  assert (started CreateShortcut h = true → passed DepsChosen h = true) as HS.
  { intros H%started_ready; [|done]. cbn [Local.ready] in H.
    apply andb_prop in H as [[H _]%andb_prop _].
    apply (passed_deps ShortcutChosen); [done|done|in_list]. }
  assert (started SetupI18n h = true → passed DepsChosen h = true) as HI.
  { intros H%started_ready; [|done]. cbn [Local.ready] in H.
    apply andb_prop in H as [[H _]%andb_prop _].
    apply (passed_deps ScaffoldChosen); [done|done|in_list]. }
  assert (started SetupRoutes h = true → passed DepsChosen h = true) as HR.
  { intros H%started_ready; [|done]. cbn [Local.ready] in H.
    apply andb_prop in H as [H _]. auto. }
  repeat (apply elem_of_cons in Hin as [-> | Hin]; [auto|]);
    try (by apply elem_of_nil in Hin).
  - apply started_ready in Hs; [|done]. cbn [Local.ready] in Hs.
    apply resolved_started in Hs; auto.
  - apply started_ready in Hs; [|done]. cbn [Local.ready] in Hs.
    apply resolved_started in Hs; auto.
Qed.

(** *** The summary *)

Lemma summary_cons e h :
  setupSummary sess (e :: h)
  = if bool_decide (e = Main DepsChosen) then Some (initial_summary sess)
    else record sess e <$> setupSummary sess h.
Proof. by destruct e as [[]| | |]. Qed.

Lemma summary_exists h :
  passed DepsChosen h = true → is_Some (setupSummary sess h).
Proof.
  induction h as [|e h IH]; [done|].
  unfold passed. rewrite happened_cons, summary_cons.
  case_bool_decide as He.
  - subst e. by rewrite bool_decide_eq_true_2.
  - rewrite bool_decide_eq_false_2 by congruence. simpl.
    intros [s ->]%IH. by eexists.
Qed.

(** What the fields of the summary tell about the run so far. *)
Lemma summary_fields_sound h s :
  setupSummary sess h = Some s →
  cssStrategy s = chosenCss sess
  ∧ (depsInstalled s = true → Resolve InstallDeps ∈ h)
  ∧ (hasCreatedShortcut s = true →
       Resolve CreateShortcut ∈ h ∧ shortcutCreated sess = true)
  ∧ (is_Some (i18n s) →
       i18n s = Some (chosenI18n sess) ∧ continueWithSetup sess = true)
  ∧ (is_Some (routes s) →
       routes s = Some (chosenRoutes sess) ∧ continueWithSetup sess = true).
Proof.
  revert s. induction h as [|e h IH]; intros s; [done|].
  rewrite summary_cons. case_bool_decide as He.
  - intros [= <-]. simpl. repeat split; try done; by intros [].
  - destruct (setupSummary sess h) as [s'|]; [|done].
    simpl. intros [= <-].
    destruct (IH s' eq_refl) as (Hcss & Hdeps & Hshort & Hi18n & Hroutes).
    destruct e as [[]|[]|[]|[] ?]; simpl;
      try (destruct (continueWithSetup sess) eqn:Hc; simpl);
      (split; [exact Hcss|]);
      (split; [first [ intros H; right; exact (Hdeps H)
                     | intros _; by left ]|]);
      (split; [first [ intros H; destruct (Hshort H) as [??];
                       split; [by right | done]
                     | intros H; split; [by left | exact H] ]|]);
      (split; [first [ exact Hi18n | intros _; by split ]
              |first [ exact Hroutes | intros _; by split ]]).
Qed.

(** The rejection of a step whose errors are caught stays in its field of
    the summary. *)
Lemma error_recorded st error h :
  valid h = true → Reject st error ∈ h → on_failure st = Recorded →
  ∃ s, setupSummary sess h = Some s ∧ error_field st s = Some error.
Proof.
  intros Hv Hin Hrec.
  assert (st ∈ [InstallDeps; CreateShortcut; SetupI18n; CommitI18n;
                SetupRoutes; CommitRoutes]) as Hst.
  { destruct st; try done; in_list. }
  induction h as [|e h IH]; [by apply elem_of_nil in Hin|].
  apply valid_cons in Hv as [Hv He].
  rewrite summary_cons.
  apply elem_of_cons in Hin as [<- | Hin].
  - rewrite bool_decide_eq_false_2 by done.
    apply enabled_reject in He as [Hs _].
    destruct (summary_exists h) as [s' ->];
      [by eapply summary_step_after_deps|].
    simpl. eexists. split; [done|]. by destruct st.
  - destruct (IH Hv Hin) as (s' & Hs' & Herr).
    assert (rejected st h = true) as Hrej by (apply rejected_true; eauto).
    pose proof (rejected_started _ _ Hv Hrej) as Hstarted.
    case_bool_decide as Hdeps.
    + subst e. apply enabled_main in He as [He _].
      by rewrite (summary_step_after_deps st h) in He.
    + rewrite Hs'. simpl. eexists. split; [done|].
      destruct e as [m|s2|s2|s2 error2];
        [ destruct m, st; simpl; try done;
            by destruct (continueWithSetup sess)
        | by destruct st | by destruct s2, st |].
      apply enabled_reject in He as [Hs2 [Hres2 Hrej2]%orb_false_elim].
      pose proof (started_ready _ _ Hv Hs2) as Hr2.
      pose proof (started_ready _ _ Hv Hstarted) as Hr1.
      destruct s2; simpl; try exact Herr;
        destruct st; try done; simpl; try exact Herr; exfalso;
        cbn [Local.ready] in Hr1, Hr2; try congruence;
        by eapply settle_once.
Qed.

(** Once the scaffolding has been chosen, the choices are in the summary,
    whatever becomes of the steps. *)
Lemma choices_recorded h s :
  valid h = true → setupSummary sess h = Some s →
  passed ScaffoldChosen h = true → continueWithSetup sess = true →
  i18n s = Some (chosenI18n sess) ∧ routes s = Some (chosenRoutes sess).
Proof.
  revert s. induction h as [|e h IH]; intros s Hv Hs Hp Hc; [done|].
  apply valid_cons in Hv as [Hv He].
  rewrite summary_cons in Hs. unfold passed in Hp.
  rewrite happened_cons in Hp. fold (passed ScaffoldChosen h) in Hp.
  destruct (decide (e = Main DepsChosen)) as [->|Hdeps].
  - simpl in Hp. apply enabled_main in He as [He _].
    by rewrite (passed_deps ScaffoldChosen h) in He by (done || in_list).
  - rewrite bool_decide_eq_false_2 in Hs by done.
    destruct (setupSummary sess h) as [s'|] eqn:Hs'; [|done].
    injection Hs as <-.
    apply orb_prop in Hp as [He'|Hp].
    + apply bool_decide_eq_true in He' as <-. simpl. by rewrite Hc.
    + destruct (IH s' Hv eq_refl Hp Hc) as [Hi Hr].
      apply enabled_live in He as _.
      destruct e as [[]|[]|[]|[] ?]; simpl; try done.
      by rewrite Hc.
Qed.

(** *** What the end of the background work implies *)

Lemma shortcut_done_styled h :
  valid h = true → shortcut_done sess h = true → styled sess h = true.
Proof.
  intros Hv H. unfold shortcut_done in H.
  destruct (offersShortcut sess) eqn:Ho; [|done].
  apply resolved_ready in H; [|done]. cbn [Local.ready] in H.
  by apply andb_prop in H as [_ H].
Qed.

Lemma routes_over_i18n_over h :
  valid h = true → routes_over h = true →
  i18n_over h = true ∧ started SetupI18n h = true.
Proof.
  intros Hv H.
  assert (started SetupRoutes h = true) as Hs.
  { unfold routes_over in H. apply orb_prop in H as [H|H].
    - by apply rejected_started.
    - apply settled_started, started_ready in H; [|done..].
      cbn [Local.ready] in H. by apply resolved_started. }
  apply started_ready in Hs; [|done]. cbn [Local.ready] in Hs.
  by apply andb_prop in Hs as [??].
Qed.

Lemma background_styled h :
  valid h = true → background_fulfilled sess h = true →
  styled sess h = true.
Proof.
  intros Hv H. unfold background_fulfilled in H.
  apply shortcut_done_styled; [done|].
  destruct (continueWithSetup sess) eqn:Hc; [|done].
  apply routes_over_i18n_over in H as [_ H]; [|done].
  apply started_ready in H; [|done]. cbn [Local.ready] in H.
  by apply andb_prop in H as [_ H].
Qed.

Lemma ready_background h :
  valid h = true → Main ProjectReady ∈ h →
  background_fulfilled sess h = true.
Proof.
  intros Hv Hp%happened_true.
  eapply passed_previous in Hp; [|reflexivity|done].
  eapply passed_previous in Hp; [|reflexivity|done].
  apply rendered_tasks in Hp; [|done].
  unfold tasks_fulfilled in Hp.
  by apply andb_prop in Hp as [[_ Hp]%andb_prop _].
Qed.

(** A caught failure leaves its error in the summary, so an empty error
    field means that the part is over without a failure. *)
Lemma no_error_not_rejected st h s :
  valid h = true → setupSummary sess h = Some s →
  on_failure st = Recorded → error_field st s = None →
  rejected st h = false.
Proof.
  intros Hv Hs Hrec Hnone.
  destruct (rejected st h) eqn:Hrej; [|done].
  apply rejected_true in Hrej as [error Hin].
  destruct (error_recorded _ _ _ Hv Hin Hrec) as (s' & Hs' & Herr).
  congruence.
Qed.

(** C3 (amended): the flags [depsInstalled] and [hasCreatedShortcut] are
    set only once their step has run and succeeded.  The fields
    [cssStrategy], [i18n] and [routes] hold the choices made, and they are
    set when the choice is made, before the step runs.  In the summary of a
    run that reaches the final rendering, a style that is set means that
    the CSS setup succeeded, and [i18n] (or [routes]) set with no
    [i18nError] (or [routesError]) means that the i18n setup (or the
    generation of the routes) succeeded. *)
Theorem summary_fields h s :
  valid h = true → setupSummary sess h = Some s →
  (depsInstalled s = true → Start InstallDeps ∈ h ∧ Resolve InstallDeps ∈ h)
  ∧ (hasCreatedShortcut s = true →
       Start CreateShortcut ∈ h ∧ Resolve CreateShortcut ∈ h)
  ∧ cssStrategy s = chosenCss sess
  ∧ (is_Some (i18n s) → i18n s = Some (chosenI18n sess))
  ∧ (is_Some (routes s) → routes s = Some (chosenRoutes sess))
  ∧ (Main ScaffoldChosen ∈ h → continueWithSetup sess = true →
       i18n s = Some (chosenI18n sess) ∧ routes s = Some (chosenRoutes sess))
  ∧ (Main ProjectReady ∈ h →
       (is_Some (cssStrategy s) →
          Resolve SetupCss ∈ h ∧ Resolve CommitCss ∈ h)
       ∧ (is_Some (i18n s) → i18nError s = None →
          Resolve SetupI18n ∈ h ∧ Resolve CommitI18n ∈ h)
       ∧ (is_Some (routes s) → routesError s = None →
          Resolve SetupRoutes ∈ h ∧ Resolve CommitRoutes ∈ h)).
Proof.
  intros Hv Hs.
  destruct (summary_fields_sound _ _ Hs)
    as (Hcss & Hdeps & Hshort & Hi18n & Hroutes).
  assert (∀ st, Resolve st ∈ h → Start st ∈ h) as Hstart.
  { intros st H%happened_true. by apply happened_true, resolved_started. }
  split; [auto|]. split; [intros H; apply Hshort in H as [??]; auto|].
  split; [done|]. split; [by intros [? _]%Hi18n|].
  split; [by intros [? _]%Hroutes|].
  split; [intros Hsc%happened_true Hc; by apply (choices_recorded h)|].
  intros Hready. pose proof (ready_background _ Hv Hready) as Hbg.
  split; [|split].
  - rewrite Hcss. intros [c Hc].
    pose proof (background_styled _ Hv Hbg) as Hst.
    unfold styled in Hst. rewrite Hc in Hst.
    split; apply happened_true; [|done].
    apply resolved_ready in Hst; [|done]. done.
  - intros [_ Hc]%Hi18n Hnone.
    unfold background_fulfilled in Hbg. rewrite Hc in Hbg.
    apply routes_over_i18n_over in Hbg as [Hover _]; [|done].
    unfold i18n_over, settled in Hover.
    rewrite (no_error_not_rejected SetupI18n h s) in Hover by done.
    rewrite (no_error_not_rejected CommitI18n h s) in Hover by done.
    simpl in Hover. rewrite orb_false_r in Hover.
    split; apply happened_true; [|done].
    apply resolved_ready in Hover; [|done]. done.
  - intros [_ Hc]%Hroutes Hnone.
    unfold background_fulfilled in Hbg. rewrite Hc in Hbg.
    unfold routes_over, settled in Hbg.
    rewrite (no_error_not_rejected SetupRoutes h s) in Hbg by done.
    rewrite (no_error_not_rejected CommitRoutes h s) in Hbg by done.
    simpl in Hbg. rewrite orb_false_r in Hbg.
    split; apply happened_true; [|done].
    apply resolved_ready in Hbg; [|done]. done.
Qed.

(** *** Runs whose only failures are caught *)

Lemma only_caught_cons e h :
  only_caught (e :: h) = true →
  only_caught h = true.
Proof. simpl. by intros [_ ?]%andb_prop. Qed.

Lemma only_caught_alive h :
  only_caught h = true →
  aborted h = false ∧ returned h = passed ProjectReady h
  ∧ ∀ s, on_failure s ≠ Recorded → rejected s h = false.
Proof.
  induction h as [|e h IH]; [by repeat split|].
  simpl. intros [He (Ha & Hr & Hrej)%IH]%andb_prop.
  unfold passed. rewrite happened_cons. fold (passed ProjectReady h).
  unfold rejected in *. simpl. rewrite Ha, Hr.
  repeat split.
  - destruct e as [| | |s ?]; try done.
    apply bool_decide_eq_true in He. rewrite He. done.
  - destruct e as [[]| | |]; try done.
  - intros s Hs. rewrite (Hrej s Hs), orb_false_r.
    destruct e as [| | |s' ?]; try done.
    apply bool_decide_eq_true in He.
    apply bool_decide_eq_false. congruence.
Qed.

(** In such a run [renderTasks] cannot reject. *)
Lemma only_caught_tasks h error :
  only_caught h = true → chain_rejected_with error h = false.
Proof.
  induction h as [|e h IH]; [done|].
  simpl. intros [He ->%IH]%andb_prop. rewrite orb_false_r.
  destruct e as [| | |s ?]; try done.
  apply bool_decide_eq_true in He. rewrite He. done.
Qed.

Lemma step_listed s : s ∈ all_steps.
Proof. destruct s; in_list. Qed.

Lemma start_success s : Start s ∈ successes.
Proof.
  unfold successes. rewrite !elem_of_app. right; left.
  apply list_elem_of_fmap. exists s. split; [done|apply step_listed].
Qed.

Lemma resolve_success s : Resolve s ∈ successes.
Proof.
  unfold successes. rewrite !elem_of_app. right; right.
  apply list_elem_of_fmap. exists s. split; [done|apply step_listed].
Qed.

Lemma linked_mock :
  linked sess = negb (bool_decide (templateAction sess = Mock)).
Proof. unfold linked, storefrontInfo. by destruct (templateAction sess). Qed.

Ltac conj_true :=
  repeat first [ assumption | reflexivity | apply andb_true_intro; split ].

(** Progress: while the final summary has not been rendered, something
    other than a failure can happen. *)
Lemma progress h :
  valid h = true → only_caught h = true → passed Located h = true →
  (∀ e, e ∈ successes → enabled h e = false) →
  passed ProjectReady h = true.
Proof.
  intros Hv Hoc HL Hnext.
  destruct (only_caught_alive _ Hoc) as (Ha & Hr & Hrej).
  destruct (passed ProjectReady h) eqn:Hp; [done|]. exfalso.
  assert (∀ m, Main m ∈ successes → main_ready sess m h = true →
               passed m h = true) as Hmain.
  { intros m Hm Hready. specialize (Hnext _ Hm). unfold Local.enabled in Hnext.
    rewrite Ha, Hr, Hready in Hnext. by destruct (passed m h). }
  assert (∀ s, ready s h = true → started s h = true) as Hstart.
  { intros s Hready. pose proof (Hnext _ (start_success s)) as Hn.
    unfold Local.enabled in Hn. rewrite Ha, Hr, Hready in Hn.
    by destruct (started s h). }
  assert (∀ s, ready s h = true → settled s h = true) as Hsettle.
  { intros s Hs%Hstart. pose proof (Hnext _ (resolve_success s)) as Hn.
    unfold Local.enabled in Hn. rewrite Ha, Hr, Hs in Hn.
    by destruct (settled s h). }
  assert (∀ s, on_failure s ≠ Recorded → ready s h = true →
               resolved s h = true) as Hres.
  { intros s Hpol Hs%Hsettle. unfold settled in Hs.
    by rewrite (Hrej s Hpol), orb_false_r in Hs. }
  (* the prompts *)
  assert (passed LanguageChosen h = true) as HLang by (apply Hmain; [in_list|done]).
  assert (passed CssChosen h = true) as HCss by (apply Hmain; [in_list|done]).
  assert (passed DepsChosen h = true) as HDeps by (apply Hmain; [in_list|done]).
  assert (passed ShortcutChosen h = true) as HShort
    by (apply Hmain; [in_list|done]).
  assert (passed ScaffoldChosen h = true) as HScaf
    by (apply Hmain; [in_list|done]).
  (* the storefront *)
  assert (linked sess = true → storefront_created sess h = true) as Hsc.
  { intros Hl.
    assert (resolved CreateStorefront h = true) as Hcs
      by (apply Hres; [done|]; cbn [Local.ready]; conj_true).
    unfold storefront_created. destruct (storefrontJob sess) eqn:Hjob; [|done].
    apply Hres; [done|]. cbn [Local.ready]. conj_true. }
  (* the files *)
  assert (resolved CopyTemplate h = true) as Hcopy by (by apply Hres).
  assert (resolved GenerateProjectEntries h = true) as Hgen by (by apply Hres).
  assert (resolved ReplacePackageJson h = true) as Hpkg by (by apply Hres).
  assert (files_written sess h = true) as Hfiles.
  { unfold files_written. rewrite Hpkg. simpl.
    destruct (linked sess) eqn:Hl.
    - specialize (Hsc eq_refl).
      assert (resolved SetUserAccount h = true) as ->
        by (apply Hres; [done|]; cbn [Local.ready]; conj_true).
      assert (resolved SetStorefront h = true) as ->
        by (apply Hres; [done|]; cbn [Local.ready]; conj_true).
      apply Hres; [done|]. cbn [Local.ready]. rewrite Hl. conj_true.
    - rewrite linked_mock in Hl. apply negb_false_iff in Hl.
      pose proof Hl as ->%bool_decide_eq_true.
      apply Hres; [done|]. cbn [Local.ready].
      rewrite Hl, orb_true_r. conj_true. }
  assert (resolved TranspileProject h = true) as Htrans
    by (apply Hres; [done|]; cbn [Local.ready]; conj_true).
  assert (resolved CreateInitialCommit h = true) as Hinit by (by apply Hres).
  assert (styled sess h = true) as Hstyled.
  { unfold styled. destruct (chosenCss sess) eqn:Hcss; [|done].
    assert (resolved SetupCss h = true) as Hsetup.
    { apply Hres; [done|]. cbn [Local.ready]. rewrite Hcss. conj_true. }
    by apply Hres. }
  assert (shortcut_done sess h = true) as Hshort.
  { unfold shortcut_done. destruct (offersShortcut sess) eqn:Hoff; [|done].
    apply Hres; [done|]. cbn [Local.ready]. conj_true. }
  assert (background_fulfilled sess h = true) as Hbg.
  { unfold background_fulfilled.
    destruct (continueWithSetup sess) eqn:Hcont; [|done].
    assert (started SetupI18n h = true) as Hi18n
      by (apply Hstart; cbn [Local.ready]; conj_true).
    assert (i18n_over h = true) as Hover.
    { unfold i18n_over.
      assert (settled SetupI18n h = true) as Hs
        by (apply Hsettle; cbn [Local.ready]; conj_true).
      unfold settled in Hs. apply orb_prop in Hs as [Hs| ->]; [|done].
      rewrite (Hsettle CommitI18n Hs). apply orb_true_r. }
    unfold routes_over.
    assert (settled SetupRoutes h = true) as Hs
      by (apply Hsettle; cbn [Local.ready]; conj_true).
    unfold settled in Hs. apply orb_prop in Hs as [Hs| ->]; [|done].
    rewrite (Hsettle CommitRoutes Hs). apply orb_true_r. }
  assert (tasks_fulfilled sess h = true) as Htasks.
  { unfold tasks_fulfilled. rewrite Hbg.
    destruct (linked sess) eqn:Hl; simpl; [rewrite Hsc by done; simpl|];
      (destruct (shouldInstallDeps sess) eqn:Hinst; simpl; [|done]);
      apply Hsettle; cbn [Local.ready]; rewrite Hinst; conj_true. }
  assert (passed TasksRendered h = true) as HTasks.
  { apply Hmain; [in_list|]. simpl. conj_true. }
  assert (passed LockfileCommitted h = true) as HLock
    by (apply Hmain; [in_list|done]).
  assert (passed ProjectReady h = true) as HReady
    by (apply Hmain; [in_list|done]).
  congruence.
Qed.

(** *** The scheduler reaches the final summary *)

Lemma enabled_fresh h e : enabled h e = true → happened e h = false.
Proof.
  destruct e as [m|s|s|s error].
  - by intros [? _]%enabled_main.
  - by intros [? _]%enabled_start.
  - intros [_ H]%enabled_resolve. unfold settled in H.
    by apply orb_false_elim in H as [? _].
  - intros [_ H]%enabled_reject. unfold settled in H.
    apply orb_false_elim in H as [_ H].
    destruct (happened (Reject s error) h) eqn:Hh; [|done].
    apply happened_true in Hh.
    assert (rejected s h = true) by (apply rejected_true; eauto).
    congruence.
Qed.

Lemma remaining_le l e h : remaining l (e :: h) ≤ remaining l h.
Proof.
  induction l as [|x l IH]; simpl; [done|].
  rewrite happened_cons. destruct (bool_decide (x = e)), (happened x h);
    simpl; lia.
Qed.

Lemma remaining_lt l e h :
  e ∈ l → happened e h = false → remaining l (e :: h) < remaining l h.
Proof.
  induction l as [|x l IH]; intros Hin Hh; [by apply elem_of_nil in Hin|].
  simpl. pose proof (remaining_le l e h).
  apply elem_of_cons in Hin as [<- | Hin].
  - rewrite happened_cons, bool_decide_eq_true_2, Hh by done. simpl. lia.
  - specialize (IH Hin Hh). rewrite happened_cons.
    destruct (bool_decide (x = e)), (happened x h); simpl; lia.
Qed.

Lemma remaining_bound l h : remaining l h ≤ length l.
Proof.
  induction l as [|x l IH]; simpl; [done|]. destruct (happened x h); lia.
Qed.

Lemma next_some h e :
  next sess h = Some e → e ∈ successes ∧ enabled h e = true.
Proof.
  unfold next. intros [Hin He]%find_some. by apply list_elem_of_In in Hin.
Qed.

Lemma next_none h :
  next sess h = None → ∀ e, e ∈ successes → enabled h e = false.
Proof.
  unfold next. intros Hn e Hin%list_elem_of_In.
  exact (find_none _ _ Hn e Hin).
Qed.

Lemma success_no_failure e h :
  e ∈ successes → only_caught h = true → only_caught (e :: h) = true.
Proof.
  intros Hin Hh. simpl. rewrite Hh, andb_true_r.
  assert (forallb caught successes = true) as Hall by (by vm_compute).
  apply (proj1 (forallb_forall _ _) Hall). by apply list_elem_of_In.
Qed.

(** The scheduler only adds events that can happen, none of them a
    failure. *)
Lemma run_extends fuel h :
  valid h = true → only_caught h = true →
  valid (run sess fuel h) = true ∧ only_caught (run sess fuel h) = true
  ∧ ∃ k, run sess fuel h = k ++ h ∧ ∀ e, e ∈ k → e ∈ successes.
Proof.
  revert h. induction fuel as [|fuel IH]; intros h Hv Hoc; simpl.
  - repeat split; try done. exists []. split; [done|]. by intros ? ?%elem_of_nil.
  - destruct (next sess h) as [e|] eqn:Hn.
    + apply next_some in Hn as [Hin He].
      destruct (IH (e :: h)) as (Hv' & Hoc' & k & Hk & Hsucc).
      { by apply valid_cons. }
      { by apply success_no_failure. }
      repeat split; try done. exists (k ++ [e]).
      rewrite <-app_assoc. split; [done|].
      intros x [?| ->%list_elem_of_singleton]%elem_of_app; auto.
    + repeat split; try done. exists []. split; [done|].
      by intros ? ?%elem_of_nil.
Qed.

Lemma run_stuck fuel h :
  remaining successes h ≤ fuel → next sess (run sess fuel h) = None.
Proof.
  revert h. induction fuel as [|fuel IH]; intros h Hrem; simpl.
  - destruct (next sess h) as [e|] eqn:Hn; [|done].
    apply next_some in Hn as [Hin He%enabled_fresh].
    pose proof (remaining_lt _ _ _ Hin He). lia.
  - destruct (next sess h) as [e|] eqn:Hn; [|done].
    apply next_some in Hn as [Hin He%enabled_fresh].
    apply IH. pose proof (remaining_lt _ _ _ Hin He). lia.
Qed.

Lemma run_completes h :
  valid h = true → only_caught h = true → passed Located h = true →
  passed ProjectReady (run sess 64 h) = true.
Proof.
  intros Hv Hoc HL.
  destruct (run_extends 64 h Hv Hoc) as (Hv' & Hoc' & k & Hk & _).
  apply progress; try done.
  - rewrite Hk. apply monotone_app; [apply monotone_happened|done].
  - apply next_none, run_stuck.
    pose proof (remaining_bound successes h) as Hb.
    change (length successes) with 45 in Hb. lia.
Qed.

(** A run that got past the location of the project and in which nothing
    fails but the steps named has only failures that are caught. *)
Lemma named_failures_caught h :
  valid h = true → Main Located ∈ h →
  (∀ st error, Reject st error ∈ h →
     st ∈ [InstallDeps; SetupI18n; CommitI18n; SetupRoutes; CommitRoutes]) →
  (∀ error, Main (LockfileFailed error) ∉ h) →
  only_caught h = true.
Proof.
  intros Hv HL Hrej Hlock.
  assert (∀ st error, Reject st error ∈ h → on_failure st = Recorded) as Hrec.
  { intros st error Hin. specialize (Hrej st error Hin).
    set_unfold in Hrej.
    by destruct Hrej as [->|[->|[->|[->|[->|[]]]]]]. }
  apply forallb_forall. intros e Hin%list_elem_of_In.
  destruct e as [m| | |st error]; try done.
  - destruct m; try done.
    + destruct (occurred _ _ Hv Hin) as (h2 & h1 & _ & _ & He).
      destruct (occurred _ _ Hv HL) as (h2' & h1' & _ & _ & He').
      apply enabled_main in He as [_ He]. apply enabled_main in He' as [_ He'].
      simpl in He, He'.
      apply andb_prop in He as [_ He%bool_decide_eq_true].
      apply andb_prop in He' as [_ He'%bool_decide_eq_true].
      rewrite He in He'. by destruct He'.
    + destruct (occurred _ _ Hv Hin) as (h2 & h1 & -> & _ & He).
      apply enabled_main in He as [_ He]. simpl in He.
      apply andb_prop in He as [_ He].
      unfold chain_rejected_with in He.
      apply existsb_exists in He as (e' & Hin'%list_elem_of_In & He').
      destruct e' as [| | |st error']; try done.
      apply andb_prop in He' as [Hp%bool_decide_eq_true _].
      rewrite (Hrec st error') in Hp; [done|].
      apply elem_of_app. right. by right.
    + by destruct (Hlock error).
  - simpl. apply bool_decide_eq_true. by eapply Hrec.
Qed.

(** C4: in a run in which nothing fails but the installation of the
    dependencies, the i18n setup, the generation of the routes and the
    commits that follow the last two, every such failure is caught and
    kept in the summary, as [depsError], [i18nError] or [routesError]; it
    neither aborts the run nor makes the wait for the tasks fail; and the
    run goes on to the final summary: as long as the summary has not been
    rendered some event other than a failure can happen, and letting such
    events happen renders the summary, with the errors in it.  (The last
    commit, of the lockfile, is awaited without a handler; it is taken not
    to fail.) *)
Theorem per_step_failures_caught h :
  valid h = true → Main Located ∈ h →
  (∀ st error, Reject st error ∈ h →
     st ∈ [InstallDeps; SetupI18n; CommitI18n; SetupRoutes; CommitRoutes]) →
  (∀ error, Main (LockfileFailed error) ∉ h) →
  let kept s :=
    (∀ error, Reject InstallDeps error ∈ h → depsError s = Some error)
    ∧ (∀ error, Reject SetupI18n error ∈ h ∨ Reject CommitI18n error ∈ h →
         i18nError s = Some error)
    ∧ (∀ error, Reject SetupRoutes error ∈ h ∨ Reject CommitRoutes error ∈ h →
         routesError s = Some error) in
  ((∃ st error, Reject st error ∈ h) → is_Some (setupSummary sess h))
  ∧ (∀ s, setupSummary sess h = Some s → kept s)
  ∧ aborted h = false
  ∧ (∀ error, (Main (TasksFailed error) ∉ h)
              ∧ enabled h (Main (TasksFailed error)) = false)
  ∧ (Main ProjectReady ∉ h → ∃ e, e ∈ successes ∧ enabled h e = true)
  ∧ (let h' := run sess 64 h in
     valid h' = true
     ∧ (∃ k, h' = k ++ h ∧ ∀ e, e ∈ k → e ∈ successes)
     ∧ ∃ s, rendered sess h' = Some s ∧ kept s).
Proof.
  intros Hv HL Hnamed Hlock kept.
  pose proof (named_failures_caught h Hv HL Hnamed Hlock) as Hoc.
  apply happened_true in HL.
  destruct (only_caught_alive _ Hoc) as (Ha & Hr & Hrej).
  assert (∀ st error, Reject st error ∈ h → on_failure st = Recorded) as Hrec.
  { intros st error Hin. destruct (decide (on_failure st = Recorded)); [done|].
    assert (rejected st h = true) as H by (apply rejected_true; eauto).
    by rewrite Hrej in H. }
  assert (∀ h' s, valid h' = true → (∀ e, e ∈ h → e ∈ h') →
            setupSummary sess h' = Some s → kept s) as Hkept.
  { intros h' s Hv' Hsub Hs.
    assert (∀ st error, Reject st error ∈ h →
              error_field st s = Some error) as Herr.
    { intros st error Hin.
      destruct (error_recorded st error h' Hv' (Hsub _ Hin)) as (s' & Hs' & H);
        [by eapply Hrec | congruence]. }
    subst kept. cbv beta. split; [|split].
    - intros error Hin. exact (Herr InstallDeps error Hin).
    - intros error [Hin|Hin];
        [exact (Herr SetupI18n error Hin) | exact (Herr CommitI18n error Hin)].
    - intros error [Hin|Hin];
        [ exact (Herr SetupRoutes error Hin)
        | exact (Herr CommitRoutes error Hin) ]. }
  split; [|split; [|split; [|split; [|split]]]].
  - intros (st & error & Hin).
    destruct (error_recorded st error h Hv Hin) as (s & Hs & _);
      [by eapply Hrec | by exists s].
  - intros s Hs. by apply (Hkept h).
  - done.
  - intros error. split.
    + intros Hin. unfold only_caught in Hoc. rewrite forallb_forall in Hoc.
      by specialize (Hoc _ (proj1 (list_elem_of_In _ _) Hin)).
    + unfold Local.enabled. simpl.
      rewrite (only_caught_tasks _ _ Hoc), !andb_false_r. done.
  - intros Hnr.
    destruct (next sess h) as [e|] eqn:Hn.
    + exists e. by apply next_some.
    + exfalso. apply Hnr, happened_true.
      apply progress; try done. by apply next_none.
  - intros h'. subst h'.
    destruct (run_extends 64 h Hv Hoc) as (Hv' & Hoc' & k & Hk & Hsucc).
    split; [done|]. split; [by exists k|].
    pose proof (run_completes _ Hv Hoc HL) as Hready.
    unfold rendered. rewrite Hready.
    destruct (summary_exists (run sess 64 h)) as [s Hs].
    { apply (passed_deps ProjectReady); [done|done|in_list]. }
    exists s. split; [done|].
    apply (Hkept (run sess 64 h)); [done| |done].
    intros e Hin. rewrite Hk. apply elem_of_app. by right.
Qed.

Lemma start_inv s h2 h1 :
  valid (h2 ++ Start s :: h1) = true →
  valid h1 = true ∧ ready s h1 = true.
Proof.
  intros [Hv [_ Hr]%enabled_start]%valid_app%valid_cons. done.
Qed.

(** C6: the project entries are generated only after the copy of the
    template has completed; the project is transpiled only after every
    file-writing step before it has completed; the initial commit is made
    only after the transpilation has completed; and no step other than the
    creation of the storefront starts before the copy has completed, while
    the creation of the storefront can run at the same time as the copy. *)
Theorem file_steps_sequenced h :
  valid h = true →
  before (Resolve CopyTemplate) (Start GenerateProjectEntries) h
  ∧ (∀ w, w ∈ file_writes sess →
       before (Resolve w) (Start TranspileProject) h)
  ∧ before (Resolve TranspileProject) (Start CreateInitialCommit) h
  ∧ (∀ s, s ∉ [CreateStorefront; WaitForJob; CopyTemplate] →
       before (Resolve CopyTemplate) (Start s) h)
  ∧ (linked sess = true → is_Some (location sess) →
       ∃ h', valid h' = true
             ∧ running CopyTemplate h' ∧ running CreateStorefront h').
Proof.
  intros Hv. repeat split.
  - intros h2 h1 ->. apply start_inv in Hv as [Hv Hr].
    by apply happened_true.
  - intros w Hw h2 h1 ->. apply start_inv in Hv as [Hv Hr].
    apply happened_true. change (resolved w h1 = true).
    cbn [Local.ready] in Hr. unfold file_writes in Hw.
    chase Hv; simpl in Hw;
      repeat (apply elem_of_cons in Hw as [-> | Hw]; [done|]);
      by apply elem_of_nil in Hw.
  - intros h2 h1 ->. apply start_inv in Hv as [Hv Hr].
    by apply happened_true.
  - intros s Hs h2 h1 ->. pose proof Hv as [Hv1 Hr]%start_inv.
    apply happened_true. change (resolved CopyTemplate h1 = true).
    repeat (apply not_elem_of_cons in Hs as [? Hs]).
    destruct s; try done; cbn [Local.ready] in Hr; chase_to Hv1.
  - intros Hl Hloc.
    exists [Start CreateStorefront; Start CopyTemplate; Main Located].
    unfold running. cbn. rewrite Hl.
    rewrite (bool_decide_eq_true_2 _ Hloc). by vm_compute.
Qed.


(** *** When the wait for the tasks is over *)

(** What the end of the styling implies for the steps before it. *)
Lemma styled_chain h :
  valid h = true → styled sess h = true →
  resolved CreateInitialCommit h = true ∧ resolved TranspileProject h = true
  ∧ files_written sess h = true ∧ resolved ReplacePackageJson h = true
  ∧ resolved GenerateProjectEntries h = true
  ∧ resolved CopyTemplate h = true
  ∧ (is_Some (chosenCss sess) →
     resolved SetupCss h = true ∧ resolved CommitCss h = true).
Proof.
  intros Hv Hst.
  assert (resolved CreateInitialCommit h = true
          ∧ (is_Some (chosenCss sess) →
             resolved SetupCss h = true ∧ resolved CommitCss h = true))
    as [Hinit Hcss].
  { unfold styled in Hst. destruct (chosenCss sess) as [c|] eqn:Hc.
    - pose proof (resolved_ready _ _ Hv Hst) as Hsetup.
      cbn [Local.ready] in Hsetup.
      pose proof (resolved_ready _ _ Hv Hsetup) as Hr.
      cbn [Local.ready] in Hr. apply andb_prop in Hr as [_ Hr]. done.
    - split; [done|]. by intros [? [=]]. }
  pose proof (resolved_ready _ _ Hv Hinit) as Htrans.
  cbn [Local.ready] in Htrans.
  pose proof (resolved_ready _ _ Hv Htrans) as Hfiles.
  cbn [Local.ready] in Hfiles. apply andb_prop in Hfiles as [_ Hfiles].
  assert (resolved ReplacePackageJson h = true) as Hpkg.
  { unfold files_written in Hfiles. by apply andb_prop in Hfiles as [? _]. }
  pose proof (resolved_ready _ _ Hv Hpkg) as Hgen.
  cbn [Local.ready] in Hgen.
  pose proof (resolved_ready _ _ Hv Hgen) as Hcopy.
  cbn [Local.ready] in Hcopy.
  done.
Qed.

(** All that [renderTasks] waits for covers every step: one that could
    start has settled, and it has completed unless its failures are
    caught. *)
Lemma tasks_cover s h :
  valid h = true → tasks_fulfilled sess h = true → ready s h = true →
  resolved s h = true ∨ (on_failure s = Recorded ∧ rejected s h = true).
Proof.
  intros Hv Ht Hr. unfold tasks_fulfilled in Ht.
  apply andb_prop in Ht as [[Hsf Hbg]%andb_prop Hdeps].
  pose proof (background_styled _ Hv Hbg) as Hst.
  destruct (styled_chain _ Hv Hst)
    as (Hinit & Htrans & Hfiles & Hpkg & Hgen & Hcopy & Hcss).
  assert (continueWithSetup sess = true →
          routes_over h = true ∧ i18n_over h = true) as Hover.
  { intros Hc. unfold background_fulfilled in Hbg. rewrite Hc in Hbg.
    split; [done|]. by apply routes_over_i18n_over. }
  assert (started SetupI18n h = true → continueWithSetup sess = true)
    as Hcont.
  { intros H%started_ready; [|done]. cbn [Local.ready] in H.
    by apply andb_prop in H as [[_ ?]%andb_prop _]. }
  assert (∀ s', on_failure s' = Recorded → settled s' h = true →
            resolved s' h = true
            ∨ (on_failure s' = Recorded ∧ rejected s' h = true)) as Hset.
  { intros s' Hpol [?|?]%orb_prop; auto. }
  destruct s; cbn [Local.ready] in Hr.
  - (* CreateStorefront *)
    apply andb_prop in Hr as [_ Hl]. rewrite Hl in Hsf. simpl in Hsf.
    left. unfold storefront_created in Hsf.
    destruct (storefrontJob sess); [|done].
    apply resolved_ready in Hsf; [|done]. cbn [Local.ready] in Hsf.
    by apply andb_prop in Hsf as [? _].
  - (* WaitForJob *)
    apply andb_prop in Hr as [Hcs Hjob].
    apply resolved_ready in Hcs; [|done]. cbn [Local.ready] in Hcs.
    apply andb_prop in Hcs as [_ Hl]. rewrite Hl in Hsf. simpl in Hsf.
    left. unfold storefront_created in Hsf. by rewrite Hjob in Hsf.
  - by left.
  - by left.
  - by left.
  - (* SetUserAccount *)
    apply andb_prop in Hr as [_ Hl]. left.
    unfold files_written in Hfiles. rewrite Hl in Hfiles.
    by apply andb_prop in Hfiles as [_ [[? _]%andb_prop _]%andb_prop].
  - (* SetStorefront *)
    apply andb_prop in Hr as [[_ Hl]%andb_prop _]. left.
    unfold files_written in Hfiles. rewrite Hl in Hfiles.
    by apply andb_prop in Hfiles as [_ [[_ ?]%andb_prop _]%andb_prop].
  - (* WriteEnv *)
    apply andb_prop in Hr as [_ Hl]. left.
    unfold files_written in Hfiles.
    apply andb_prop in Hfiles as [_ Hfiles].
    destruct (linked sess); [by apply andb_prop in Hfiles as [_ ?]|].
    simpl in Hl. apply bool_decide_eq_true in Hl. by rewrite Hl in Hfiles.
  - by left.
  - by left.
  - (* SetupCss *)
    apply andb_prop in Hr as [[_ Hc%bool_decide_eq_true]%andb_prop _].
    left. by apply Hcss.
  - (* CommitCss *)
    apply resolved_ready in Hr; [|done]. cbn [Local.ready] in Hr.
    apply andb_prop in Hr as [[_ Hc%bool_decide_eq_true]%andb_prop _].
    left. by apply Hcss.
  - (* InstallDeps *)
    apply andb_prop in Hr as [[_ Hi]%andb_prop _]. rewrite Hi in Hdeps.
    by apply Hset.
  - (* CreateShortcut *)
    apply andb_prop in Hr as [[_ Ho]%andb_prop _]. left.
    assert (shortcut_done sess h = true) as Hsd.
    { unfold background_fulfilled in Hbg.
      destruct (continueWithSetup sess) eqn:Hc; [|done].
      apply routes_over_i18n_over in Hbg as [_ H]; [|done].
      apply started_ready in H; [|done]. cbn [Local.ready] in H.
      by apply andb_prop in H as [_ ?]. }
    unfold shortcut_done in Hsd. by rewrite Ho in Hsd.
  - (* SetupI18n *)
    apply andb_prop in Hr as [[_ Hc]%andb_prop _].
    destruct (Hover Hc) as [_ Hi]. unfold i18n_over in Hi.
    apply orb_prop in Hi as [Hi|Hi]; [by right|]. left.
    apply settled_started, started_ready in Hi; [|done..]. done.
  - (* CommitI18n *)
    pose proof (resolved_started _ _ Hv Hr) as Hi.
    destruct (Hover (Hcont Hi)) as [_ Ho]. unfold i18n_over in Ho.
    apply orb_prop in Ho as [Ho|Ho]; [|by apply Hset].
    destruct (settle_once _ _ Hv Hr Ho).
  - (* SetupRoutes *)
    apply andb_prop in Hr as [Hi _].
    destruct (Hover (Hcont Hi)) as [Ho _]. unfold routes_over in Ho.
    apply orb_prop in Ho as [Ho|Ho]; [by right|]. left.
    apply settled_started, started_ready in Ho; [|done..]. done.
  - (* CommitRoutes *)
    pose proof (resolved_ready _ _ Hv Hr) as Hi.
    cbn [Local.ready] in Hi. apply andb_prop in Hi as [Hi _].
    destruct (Hover (Hcont Hi)) as [Ho _]. unfold routes_over in Ho.
    apply orb_prop in Ho as [Ho|Ho]; [|by apply Hset].
    destruct (settle_once _ _ Hv Hr Ho).
Qed.

Lemma tasks_settled s h :
  valid h = true → tasks_fulfilled sess h = true → ready s h = true →
  started s h = true ∧ settled s h = true.
Proof.
  intros Hv Ht Hr.
  assert (settled s h = true) as Hs.
  { unfold settled.
    destruct (tasks_cover _ _ Hv Ht Hr) as [->|[_ ->]];
      [done | apply orb_true_r]. }
  split; [by apply settled_started | done].
Qed.

(** X16: once the wait for the tasks is over no step is under way, and all
    that happens afterwards is the main flow going on (to the commit of the
    lockfile and the final summary): no step starts or settles any more. *)
Theorem quiet_after_tasks h :
  valid h = true →
  (Main TasksRendered ∈ h → ∀ s, ¬ running s h)
  ∧ (∀ e h2 h1, h = h2 ++ e :: h1 → Main TasksRendered ∈ h1 →
       ∃ m, e = Main m).
Proof.
  intros Hv. split.
  - intros Hp%happened_true s [Hs Hset].
    pose proof (rendered_tasks _ Hv Hp) as Ht.
    pose proof (started_ready _ _ Hv Hs) as Hr.
    destruct (tasks_settled _ _ Hv Ht Hr) as [_ H]. congruence.
  - intros e h2 h1 -> Hp%happened_true.
    apply valid_app, valid_cons in Hv as [Hv He].
    pose proof (rendered_tasks _ Hv Hp) as Ht.
    assert (∀ s, started s h1 = true → settled s h1 = false → False) as Hrun.
    { intros s Hs Hset. pose proof (started_ready _ _ Hv Hs) as Hr.
      destruct (tasks_settled _ _ Hv Ht Hr) as [_ H]. congruence. }
    destruct e as [m|s|s|s error].
    + by exists m.
    + apply enabled_start in He as [Hs Hr].
      destruct (tasks_settled _ _ Hv Ht Hr) as [H _]. congruence.
    + apply enabled_resolve in He as [Hs Hset]. destruct (Hrun _ Hs Hset).
    + apply enabled_reject in He as [Hs Hset]. destruct (Hrun _ Hs Hset).
Qed.

(** X17: a failure that nothing catches puts an end to the setup.  After
    the rejection of a step other than the installation of the
    dependencies, the i18n setup, the generation of the routes and the
    commits of the last two, the wait for the tasks never completes, so
    the lockfile is not committed and no summary is rendered. *)
Theorem uncaught_failure_ends_setup st error h :
  valid h = true → Reject st error ∈ h → on_failure st ≠ Recorded →
  (Main TasksRendered ∉ h) ∧ (Main LockfileCommitted ∉ h)
  ∧ (Main ProjectReady ∉ h) ∧ rendered sess h = None.
Proof.
  intros Hv Hin Hpol.
  assert (Main TasksRendered ∉ h) as Htasks.
  { intros Hp%happened_true.
    pose proof (rendered_tasks _ Hv Hp) as Ht.
    assert (rejected st h = true) as Hrej by (apply rejected_true; eauto).
    pose proof (rejected_started _ _ Hv Hrej) as Hs.
    pose proof (started_ready _ _ Hv Hs) as Hr.
    destruct (tasks_cover _ _ Hv Ht Hr) as [Hres|[? _]]; [|done].
    destruct (settle_once _ _ Hv Hres Hrej). }
  assert (Main LockfileCommitted ∉ h) as Hlock.
  { intros Hp%happened_true. apply Htasks, happened_true.
    by apply (passed_previous LockfileCommitted). }
  assert (Main ProjectReady ∉ h) as Hready.
  { intros Hp%happened_true. apply Hlock, happened_true.
    by apply (passed_previous ProjectReady). }
  repeat split; try done.
  unfold rendered, passed, happened. by rewrite bool_decide_eq_false_2.
Qed.

(** X18: when [handleProjectLocation] gives no project the function
    returns at once: no step is started and nothing is rendered. *)
Theorem no_project_no_setup h :
  location sess = None → valid h = true →
  h = [] ∨ h = [Main ReturnedEarly].
Proof.
  intros Hloc. induction h as [|e h IH]; [by left|].
  intros [Hv He]%valid_cons. right.
  destruct (IH Hv) as [-> | ->].
  - unfold Local.enabled in He.
    destruct e as [m|s|s|s error]; [destruct m|destruct s..];
      try done; simpl in He; rewrite ?Hloc in He; try done;
      by vm_compute in He.
  - by apply enabled_live in He as [_ ?].
Qed.

(** *** The chain runs link by link *)

Lemma resolved_settled s h : resolved s h = true → settled s h = true.
Proof. unfold settled. by intros ->. Qed.

Lemma links_next k h :
  links_settled sess k h →
  (∀ a, chain_place a = Some k → started a h = true → settled a h = true) →
  links_settled sess (S k) h.
Proof.
  intros Hk Hnew a i Ha Hlt. destruct (decide (i = k)) as [->|]; [auto|].
  apply (Hk a i); [done|lia].
Qed.

Ltac one_link :=
  let a := fresh "a" in
  let Ha := fresh "Ha" in
  let Hs := fresh "Hs" in
  apply links_next; [|intros a Ha Hs; destruct a; try done; clear Ha].

Lemma links_copy h :
  resolved CopyTemplate h = true → links_settled sess 1 h.
Proof.
  intros Hcopy. one_link; [|by apply resolved_settled].
  intros a i _ Hlt. lia.
Qed.

Lemma links_entries h :
  valid h = true → resolved GenerateProjectEntries h = true →
  links_settled sess 2 h.
Proof.
  intros Hv Hgen. pose proof (resolved_ready _ _ Hv Hgen) as Hcopy.
  one_link; [by apply links_copy | by apply resolved_settled].
Qed.

Lemma links_files h :
  valid h = true → files_written sess h = true → links_settled sess 3 h.
Proof.
  intros Hv Hfiles. pose proof Hfiles as Hw. unfold files_written in Hw.
  apply andb_prop in Hw as [Hpkg Hw].
  pose proof (resolved_ready _ _ Hv Hpkg) as Hgen. cbn [Local.ready] in Hgen.
  one_link; [by apply links_entries|..];
    apply resolved_settled; [done|..];
    apply started_ready in Hs; try done; cbn [Local.ready] in Hs.
  - apply andb_prop in Hs as [_ Hl]. rewrite Hl in Hw.
    by apply andb_prop in Hw as [[? _]%andb_prop _].
  - apply andb_prop in Hs as [[_ Hl]%andb_prop _]. rewrite Hl in Hw.
    by apply andb_prop in Hw as [[_ ?]%andb_prop _].
  - apply andb_prop in Hs as [_ Hl].
    destruct (linked sess); [by apply andb_prop in Hw as [_ ?]|].
    simpl in Hl. apply bool_decide_eq_true in Hl. by rewrite Hl in Hw.
Qed.

Lemma links_transpiled h :
  valid h = true → resolved TranspileProject h = true →
  links_settled sess 4 h.
Proof.
  intros Hv Htrans. pose proof (resolved_ready _ _ Hv Htrans) as Hr.
  cbn [Local.ready] in Hr. apply andb_prop in Hr as [_ Hfiles].
  one_link; [by apply links_files | by apply resolved_settled].
Qed.

Lemma links_committed h :
  valid h = true → resolved CreateInitialCommit h = true →
  links_settled sess 5 h.
Proof.
  intros Hv Hinit. pose proof (resolved_ready _ _ Hv Hinit) as Hr.
  cbn [Local.ready] in Hr.
  one_link; [by apply links_transpiled | by apply resolved_settled].
Qed.

Lemma links_css h :
  valid h = true → resolved SetupCss h = true → links_settled sess 6 h.
Proof.
  intros Hv Hcss. pose proof (resolved_ready _ _ Hv Hcss) as Hr.
  cbn [Local.ready] in Hr. apply andb_prop in Hr as [_ Hinit].
  one_link; [by apply links_committed | by apply resolved_settled].
Qed.

Lemma links_styled h :
  valid h = true → styled sess h = true → links_settled sess 7 h.
Proof.
  intros Hv Hst. unfold styled in Hst.
  destruct (chosenCss sess) as [c|] eqn:Hc.
  - pose proof (resolved_ready _ _ Hv Hst) as Hcss. cbn [Local.ready] in Hcss.
    one_link; [by apply links_css | by apply resolved_settled].
  - assert (started SetupCss h = false) as Hno.
    { destruct (started SetupCss h) eqn:Hs; [|done].
      apply started_ready in Hs; [|done]. cbn [Local.ready] in Hs.
      rewrite Hc in Hs. by rewrite andb_false_r in Hs. }
    one_link; [one_link; [by apply links_committed|]|].
    + congruence.
    + apply started_ready, resolved_started in Hs; [|done..]. congruence.
Qed.

Lemma links_shortcut h :
  valid h = true → shortcut_done sess h = true → links_settled sess 8 h.
Proof.
  intros Hv Hsd. pose proof (shortcut_done_styled _ Hv Hsd) as Hst.
  one_link; [by apply links_styled|]. apply resolved_settled.
  apply started_ready in Hs; [|done]. cbn [Local.ready] in Hs.
  apply andb_prop in Hs as [[_ Ho]%andb_prop _].
  unfold shortcut_done in Hsd. by rewrite Ho in Hsd.
Qed.

Lemma links_i18n h :
  valid h = true → started SetupI18n h = true → settled SetupI18n h = true →
  links_settled sess 9 h.
Proof.
  intros Hv Hs Hset. pose proof (started_ready _ _ Hv Hs) as Hr.
  cbn [Local.ready] in Hr. apply andb_prop in Hr as [_ Hsd].
  one_link. by apply links_shortcut.
Qed.

Lemma links_i18n_over h :
  valid h = true → started SetupI18n h = true → i18n_over h = true →
  links_settled sess 10 h.
Proof.
  intros Hv Hs Hover. unfold i18n_over in Hover.
  one_link.
  - apply links_i18n; [done..|]. unfold settled.
    apply orb_prop in Hover as [->|Hover]; [apply orb_true_r|].
    apply settled_started, started_ready in Hover; [|done..].
    cbn [Local.ready] in Hover. by rewrite Hover.
  - apply orb_prop in Hover as [Hover|Hover]; [|done].
    apply started_ready in Hs0; [|done]. cbn [Local.ready] in Hs0.
    destruct (settle_once _ _ Hv Hs0 Hover).
Qed.

Lemma links_routes h :
  valid h = true → resolved SetupRoutes h = true → links_settled sess 11 h.
Proof.
  intros Hv Hroutes.
  pose proof (resolved_ready _ _ Hv Hroutes) as Hr.
  cbn [Local.ready] in Hr. apply andb_prop in Hr as [Hs Hover].
  one_link; [by apply links_i18n_over | by apply resolved_settled].
Qed.

(** A step that has started finds the links before it settled. *)
Lemma started_links b j h :
  valid h = true → chain_place b = Some j → started b h = true →
  links_settled sess j h.
Proof.
  intros Hv Hb Hs. pose proof (started_ready _ _ Hv Hs) as Hr.
  destruct b; simpl in Hb; try done; injection Hb as <-;
    cbn [Local.ready] in Hr;
    repeat match goal with
           | H : _ && _ = true |- _ => apply andb_prop in H as [? ?]
           end.
  - intros a i _ Hlt. lia.
  - by apply links_copy.
  - by apply links_entries.
  - by apply links_entries.
  - by apply links_entries.
  - by apply links_entries.
  - by apply links_files.
  - by apply links_transpiled.
  - by apply links_committed.
  - by apply links_css.
  - by apply links_styled.
  - by apply links_shortcut.
  - apply links_i18n; [done| by apply resolved_started
                      | by apply resolved_settled].
  - by apply links_i18n_over.
  - by apply links_routes.
Qed.

(** X19: the chain of the background work runs link by link.  A step of
    the chain starts only when every step of an earlier place of the chain
    that has started has settled, so two steps of different places of the
    chain never run at the same time; this holds for the four commits,
    which never overlap with each other or with another step of the chain.
    The creation of the storefront and the installation of the
    dependencies are no links of the chain, and nothing is said of them
    here. *)
Theorem chain_link_by_link a b i j h :
  valid h = true → chain_place a = Some i → chain_place b = Some j → i < j →
  (started a h = true → started b h = true → settled a h = true)
  ∧ ¬ (running a h ∧ running b h)
  ∧ (∀ h2 h1, h = h2 ++ Start b :: h1 → ¬ running a h1).
Proof.
  intros Hv Ha Hb Hlt.
  assert (∀ h', valid h' = true → started a h' = true →
            started b h' = true → settled a h' = true) as Hseq.
  { intros h' Hv' Hsa Hsb. by apply (started_links b j h' Hv' Hb Hsb a i). }
  split; [by auto|]. split.
  - intros [[Hsa Hset] [Hsb _]]. rewrite Hseq in Hset; done.
  - intros h2 h1 -> [Hsa Hset].
    apply valid_app in Hv. pose proof Hv as [Hv1 He]%valid_cons.
    assert (settled a (Start b :: h1) = true) as H.
    { apply Hseq; [done| |].
      - by apply monotone_happened.
      - unfold started. rewrite happened_cons.
        by rewrite bool_decide_eq_true_2. }
    unfold settled, resolved, rejected in *.
    rewrite happened_cons in H. simpl in H.
    congruence.
Qed.

(** *** The flags of the summary *)

Lemma not_settled_fresh s h :
  settled s h = false →
  resolved s h = false ∧ ∀ error, Reject s error ∉ h.
Proof.
  intros [Hres Hrej]%orb_false_elim. split; [done|].
  intros error Hin.
  assert (rejected s h = true) by (apply rejected_true; eauto). congruence.
Qed.

(** The fields that the steps set hold what the run so far tells. *)
Lemma summary_flags h s :
  valid h = true → setupSummary sess h = Some s →
  language s = chosenLanguage sess
  ∧ packageManager s = chosenPackageManager sess
  ∧ depsInstalled s = resolved InstallDeps h
  ∧ (∀ error, depsError s = Some error ↔ Reject InstallDeps error ∈ h)
  ∧ hasCreatedShortcut s
    = resolved CreateShortcut h && shortcutCreated sess.
Proof.
  revert s. induction h as [|e h IH]; intros s Hv Hs; [done|].
  apply valid_cons in Hv as [Hv He].
  rewrite summary_cons in Hs.
  unfold resolved. rewrite !happened_cons.
  fold (resolved InstallDeps h). fold (resolved CreateShortcut h).
  setoid_rewrite elem_of_cons.
  destruct (decide (e = Main DepsChosen)) as [->|Hdeps].
  - rewrite bool_decide_eq_true_2 in Hs by done. injection Hs as <-.
    apply enabled_main in He as [Hp _].
    assert (∀ st, st ∈ [InstallDeps; CreateShortcut] →
              started st h = false) as Hnot.
    { intros st Hst. destruct (started st h) eqn:Hstarted; [|done].
      rewrite (summary_step_after_deps st h) in Hp; [done..|].
      apply elem_of_cons in Hst as [->|Hst]; [in_list|].
      apply elem_of_cons in Hst as [->|Hst]; [in_list|].
      by apply elem_of_nil in Hst. }
    assert (∀ st, st ∈ [InstallDeps; CreateShortcut] →
              resolved st h = false) as Hres.
    { intros st Hst. destruct (resolved st h) eqn:Hr; [|done].
      apply resolved_started in Hr; [|done]. by rewrite Hnot in Hr. }
    simpl. rewrite !Hres by in_list.
    repeat split; try done. intros [[=]|Hin].
    assert (rejected InstallDeps h = true) as Hrej
      by (apply rejected_true; eauto).
    apply rejected_started in Hrej; [|done].
    rewrite Hnot in Hrej; [done|in_list].
  - rewrite bool_decide_eq_false_2 in Hs by done.
    destruct (setupSummary sess h) as [s'|] eqn:Hs'; [|done].
    injection Hs as <-.
    destruct (IH s' Hv eq_refl) as (Hlang & Hpm & Hinst & Herr & Hshort).
    assert (∀ st error,
              e = Reject st error ∨ e = Resolve st →
              resolved st h = false ∧ ∀ error', Reject st error' ∉ h)
      as Hfresh.
    { intros st error [-> | ->]; apply not_settled_fresh.
      - by apply enabled_reject in He as [_ ?].
      - by apply enabled_resolve in He as [_ ?]. }
    destruct e as [m|st|st|st error].
    + destruct m; simpl; try destruct (continueWithSetup sess); simpl;
        (repeat split; try done); try (by apply Herr);
        try (intros [[=]|?]; by apply Herr);
        try (intros ?; right; by apply Herr).
    + simpl. repeat split; try done; try (by apply Herr).
      * intros ?. right. by apply Herr.
      * intros [[=]|?]. by apply Herr.
    + destruct (Hfresh st [] (or_intror eq_refl)) as [Hres _].
      destruct st; simpl; rewrite ?Hres in *;
        (repeat split; try done); try (by apply Herr);
        try (intros [[=]|?]; by apply Herr);
        try (intros ?; right; by apply Herr).
    + destruct (Hfresh st error (or_introl eq_refl)) as [_ Hnone].
      destruct st; simpl;
        (repeat split; try done); try (by apply Herr);
        try (intros [[=]|?]; by apply Herr);
        try (intros ?; right; by apply Herr).
      * intros [= <-]. by left.
      * intros [[= <-]|Hin]; [done|]. by destruct (Hnone _ Hin).
Qed.

(** X20: the flags of the summary handed to the final rendering.  With
    the installation asked for, either [depsInstalled] is set and there is
    no [depsError], or it is not set and [depsError] holds the error of the
    failed installation; without it neither is set.  [hasCreatedShortcut]
    is what [createShortcut] resolved to, and false when no shortcut was
    offered.  [language] and [packageManager] are the choices made, and
    [i18n] and [routes] are set exactly when the user went on with the
    scaffolding. *)
Theorem final_summary_flags h s :
  valid h = true → rendered sess h = Some s →
  (if shouldInstallDeps sess
   then (depsInstalled s = true ∧ depsError s = None
         ∧ Resolve InstallDeps ∈ h)
        ∨ (depsInstalled s = false
           ∧ ∃ error, depsError s = Some error
                      ∧ Reject InstallDeps error ∈ h)
   else depsInstalled s = false ∧ depsError s = None
        ∧ Start InstallDeps ∉ h)
  ∧ hasCreatedShortcut s = offersShortcut sess && shortcutCreated sess
  ∧ language s = chosenLanguage sess
  ∧ packageManager s = chosenPackageManager sess
  ∧ i18n s = (if continueWithSetup sess then Some (chosenI18n sess)
              else None)
  ∧ routes s = (if continueWithSetup sess then Some (chosenRoutes sess)
                else None).
Proof.
  intros Hv Hr. unfold rendered in Hr.
  destruct (passed ProjectReady h) eqn:Hp; [|done].
  destruct (summary_flags _ _ Hv Hr) as (Hlang & Hpm & Hinst & Herr & Hshort).
  destruct (summary_fields_sound _ _ Hr) as (_ & _ & _ & Hi18n & Hroutes).
  assert (passed TasksRendered h = true) as Htasks.
  { apply (passed_previous LockfileCommitted); [done..|].
    by apply (passed_previous ProjectReady). }
  pose proof (rendered_tasks _ Hv Htasks) as Ht.
  assert (∀ st, ready st h = false → started st h = false) as Hnever.
  { intros st Hno. destruct (started st h) eqn:Hs; [|done].
    apply started_ready in Hs; [|done]. congruence. }
  split; [|split; [|split; [done|split; [done|]]]].
  - destruct (shouldInstallDeps sess) eqn:Hask.
    + unfold tasks_fulfilled in Ht. rewrite Hask in Ht.
      apply andb_prop in Ht as [_ Hset]. simpl in Hset.
      apply orb_prop in Hset as [Hres|Hrej].
      * left. rewrite Hinst. split; [done|].
        split; [|by apply happened_true].
        destruct (depsError s) as [error|] eqn:Hd; [|done].
        pose proof (proj1 (Herr error) eq_refl) as Hin.
        assert (rejected InstallDeps h = true) as Hrej
          by (apply rejected_true; eauto).
        destruct (settle_once _ _ Hv Hres Hrej).
      * right. pose proof Hrej as [error Hin]%rejected_true.
        split; [|exists error; split; [by apply Herr | done]].
        rewrite Hinst. destruct (resolved InstallDeps h) eqn:Hres; [|done].
        destruct (settle_once _ _ Hv Hres Hrej).
    + assert (started InstallDeps h = false) as Hno.
      { apply Hnever. cbn [Local.ready]. rewrite Hask.
        by rewrite andb_false_r. }
      split; [|split].
      * rewrite Hinst. destruct (resolved InstallDeps h) eqn:Hres; [|done].
        apply resolved_started in Hres; congruence.
      * destruct (depsError s) as [error|] eqn:Hd; [|done].
        pose proof (proj1 (Herr error) eq_refl) as Hin.
        assert (rejected InstallDeps h = true) as Hrej
          by (apply rejected_true; eauto).
        apply rejected_started in Hrej; congruence.
      * intros Hin%happened_true. unfold started in Hno. congruence.
  - rewrite Hshort. destruct (offersShortcut sess) eqn:Ho.
    + assert (resolved CreateShortcut h = true) as ->; [|done].
      unfold tasks_fulfilled in Ht.
      apply andb_prop in Ht as [[_ Hbg]%andb_prop _].
      assert (shortcut_done sess h = true) as Hsd.
      { unfold background_fulfilled in Hbg.
        destruct (continueWithSetup sess) eqn:Hc; [|done].
        apply routes_over_i18n_over in Hbg as [_ H]; [|done].
        apply started_ready in H; [|done]. cbn [Local.ready] in H.
        by apply andb_prop in H as [_ ?]. }
      unfold shortcut_done in Hsd. by rewrite Ho in Hsd.
    + assert (resolved CreateShortcut h = false) as ->; [|done].
      destruct (resolved CreateShortcut h) eqn:Hres; [|done].
      apply resolved_started in Hres; [|done].
      rewrite Hnever in Hres; [done|]. cbn [Local.ready]. rewrite Ho.
      by rewrite andb_false_r.
  - assert (passed ScaffoldChosen h = true) as Hsc
      by (by apply (passed_previous TasksRendered)).
    destruct (continueWithSetup sess) eqn:Hc.
    + by destruct (choices_recorded h s Hv Hr Hsc Hc).
    + split.
      * destruct (i18n s) eqn:Hi; [|done].
        destruct Hi18n as [_ ?]; [by eexists|congruence].
      * destruct (routes s) eqn:Hro; [|done].
        destruct Hroutes as [_ ?]; [by eexists|congruence].
Qed.
End Runs.

Example rename_sample_package :
  rename_package sample_hyphenate (Some sample_storefront) sample_project
    (sample_package (lit "hello-world"))
  = sample_package (lit "snow-devil").
Proof. by vm_compute. Qed.



(** A linked storefront runs through without a failure. *)
Example linked_run_completes :
  let h := run link_session 64 [] in
  Local.valid link_session h = true ∧ length h = 37
  ∧ depsInstalled <$> rendered link_session h = Some true.
Proof. intros h. repeat split; by vm_compute. Qed.

(** In a run that has just started to generate the project entries the
    copy is over; and while the template is being copied for a linked
    storefront, the storefront can be under creation. *)
Lemma file_steps_sequenced_witness :
  Resolve CopyTemplate ∈ [Resolve CopyTemplate; Start CopyTemplate; Main Located]
  ∧ ∃ h, Local.valid link_session h = true
         ∧ running CopyTemplate h ∧ running CreateStorefront h.
Proof.
  assert (Local.valid link_session
            [Start GenerateProjectEntries; Resolve CopyTemplate;
             Start CopyTemplate; Main Located] = true) as Hv
    by (by vm_compute).
  pose proof (file_steps_sequenced link_session _ Hv)
    as (Hgen & _ & _ & _ & Hboth).
  split.
  - exact (Hgen [] _ eq_refl).
  - apply Hboth; [by vm_compute | by eexists].
Defined.

(** The installation, the i18n setup and the generation of the routes
    fail; the run then goes on to the final summary, which names the three
    errors. *)
Lemma per_step_failures_caught_witness :
  ∃ s, rendered install_session (run install_session 64 failed_steps)
       = Some s
       ∧ depsError s = Some (lit "ETIMEDOUT")
       ∧ i18nError s = Some (lit "EACCES")
       ∧ routesError s = Some (lit "ENOSPC").
Proof.
  assert (Local.valid install_session failed_steps = true) as Hv
    by (by vm_compute).
  assert (Main Located ∈ failed_steps) as HL by decide_closed.
  destruct (per_step_failures_caught install_session failed_steps Hv HL)
    as (_ & _ & _ & _ & _ & _ & _ & s & Hs & Hdeps & Hi18n & Hroutes).
  - intros st error Hin%list_elem_of_In. vm_compute in Hin.
    repeat (destruct Hin as [Hin|Hin];
            [try discriminate; injection Hin as <- <-; by repeat constructor|]).
    done.
  - intros error Hin%list_elem_of_In. vm_compute in Hin.
    repeat (destruct Hin as [Hin|Hin]; [discriminate|]). done.
  - exists s. split; [exact Hs|]. split; [|split].
    + apply Hdeps. decide_closed.
    + apply Hi18n. left. decide_closed.
    + apply Hroutes. left. decide_closed.
Defined.

(** C3 as stated fails: in this run the i18n setup and the generation of
    the routes both fail, and the summary handed to the final rendering
    still has [i18n] and [routes] set (next to the two errors). *)
Lemma summary_lists_failed_steps :
  Local.valid mock_session failed_scaffold = true
  ∧ (Resolve SetupI18n ∉ failed_scaffold)
  ∧ (Resolve SetupRoutes ∉ failed_scaffold)
  ∧ ∃ s, rendered mock_session failed_scaffold = Some s
         ∧ i18n s = Some (lit "subfolders") ∧ routes s = Some true
         ∧ i18nError s = Some (lit "EACCES")
         ∧ routesError s = Some (lit "ENOSPC").
Proof.
  split; [by vm_compute|].
  split; [decide_closed|]. split; [decide_closed|].
  eexists. split; [by vm_compute|]. by vm_compute.
Qed.

Lemma summary_fields_witness :
  ∃ s, setupSummary mock_session failed_scaffold = Some s
       ∧ cssStrategy s = None ∧ depsInstalled s = false.
Proof.
  assert (Local.valid mock_session failed_scaffold = true) as Hv
    by (by vm_compute).
  eexists. split; [by vm_compute|].
  split;
    [ exact (proj1 (proj2 (proj2
               (summary_fields mock_session failed_scaffold _ Hv eq_refl))))
    | reflexivity ].
Defined.


(** In the run in which the scaffolding fails twice nothing is under way
    at the end. *)
Lemma quiet_after_tasks_witness :
  Local.valid mock_session failed_scaffold = true
  ∧ ∀ s, ¬ running s failed_scaffold.
Proof.
  assert (Local.valid mock_session failed_scaffold = true) as Hv
    by (by vm_compute).
  split; [exact Hv|].
  apply (proj1 (quiet_after_tasks mock_session failed_scaffold Hv)).
  decide_closed.
Defined.

(** Git refuses the first commit: nothing is rendered. *)
Lemma uncaught_failure_ends_setup_witness :
  rendered mock_session failed_commit = None.
Proof.
  assert (Local.valid mock_session failed_commit = true) as Hv
    by (by vm_compute).
  refine (proj2 (proj2 (proj2
            (uncaught_failure_ends_setup mock_session CreateInitialCommit
               (lit "EPERM") failed_commit Hv _ _)))); [decide_closed|done].
Defined.

Lemma no_project_no_setup_witness :
  let h := [Main ReturnedEarly] in h = [] ∨ h = [Main ReturnedEarly].
Proof.
  apply (no_project_no_setup lost_session); [done | by vm_compute].
Defined.

(** In the run of the linked storefront the first commit is over when the
    commit of the styling starts. *)
Lemma chain_link_by_link_witness :
  settled CreateInitialCommit (run link_session 64 []) = true.
Proof.
  assert (Local.valid link_session (run link_session 64 []) = true) as Hv
    by (by vm_compute).
  refine (proj1 (chain_link_by_link link_session CreateInitialCommit CommitCss
                   4 6 _ Hv eq_refl eq_refl _) _ _);
    [lia | by vm_compute..].
Defined.

Lemma final_summary_flags_witness :
  ∃ s, rendered link_session (run link_session 64 []) = Some s
       ∧ hasCreatedShortcut s = true.
Proof.
  assert (Local.valid link_session (run link_session 64 []) = true) as Hv
    by (by vm_compute).
  destruct (rendered link_session (run link_session 64 [])) as [s|] eqn:Hr;
    [|by vm_compute in Hr].
  exists s. split; [done|].
  exact (proj1 (proj2 (final_summary_flags link_session _ s Hv Hr))).
Defined.

(** *** The filter of the copy *)

Lemma match_once_inv p ats e s segs :
  match_here (Atom p Once :: ats) e s = Some segs →
  ∃ c s' segs', s = c :: s' ∧ p c = true
                ∧ match_here ats e s' = Some segs'.
Proof.
  destruct s as [|c s]; [done|]. rewrite JSRegExpFacts.match_here_once.
  destruct (p c) eqn:Hc; [|done].
  destruct (match_here ats e s) as [segs'|] eqn:Hm; [|done].
  intros _. by exists c, s, segs'.
Qed.

Lemma match_app_directory s :
  is_Some (match_here (atoms app_directory_re) false s)
  ↔ ∃ a p p' rest,
      s = slash :: a :: p :: p' :: slash :: rest
      ∧ letter 97 a = true ∧ letter 112 p = true ∧ letter 112 p' = true.
Proof.
  split.
  - intros [segs Hm]. cbn [atoms app_directory_re] in Hm.
    apply match_once_inv in Hm as (c1 & s1 & segs1 & -> & H1 & Hm).
    apply match_once_inv in Hm as (c2 & s2 & segs2 & -> & H2 & Hm).
    apply match_once_inv in Hm as (c3 & s3 & segs3 & -> & H3 & Hm).
    apply match_once_inv in Hm as (c4 & s4 & segs4 & -> & H4 & Hm).
    apply match_once_inv in Hm as (c5 & s5 & segs5 & -> & H5 & Hm).
    apply N.eqb_eq in H1 as <-. apply N.eqb_eq in H5 as <-.
    by exists c2, c3, c4, s5.
  - intros (a & p & p' & rest & -> & Ha & Hp & Hp'). simpl.
    rewrite Ha, Hp, Hp'. simpl. by eexists.
Qed.

(** X21: the filter of the copy of the template.  A path is left out
    exactly when it holds [/app/] somewhere, in upper or lower case: so is
    everything below a directory named [app], and so is every file of the
    template when the path of the template itself has such a directory in
    it, since a path that goes on from a path left out is left out too. *)
Theorem copy_filter_app_directory (filepath : text) :
  (copy_filter filepath = false
   ↔ ∃ before a p p' rest,
       filepath = before ++ slash :: a :: p :: p' :: slash :: rest
       ∧ letter 97 a = true ∧ letter 112 p = true ∧ letter 112 p' = true)
  ∧ (∀ below, copy_filter filepath = false →
       copy_filter (filepath ++ below) = false)
  ∧ (∀ below, copy_filter (filepath ++ lit "/app/" ++ below) = false).
Proof.
  assert (∀ path,
            copy_filter path = false
            ↔ ∃ before a p p' rest,
                path = before ++ slash :: a :: p :: p' :: slash :: rest
                ∧ letter 97 a = true ∧ letter 112 p = true
                ∧ letter 112 p' = true) as Hiff.
  { intros path. unfold copy_filter.
    rewrite negb_false_iff, bool_decide_eq_true. split.
    - intros [[[before segs] post] Hs].
      apply JSRegExpFacts.search_sound in Hs as (-> & Hm & _).
      destruct (proj1 (match_app_directory _) (ex_intro _ segs Hm))
        as (a & p & p' & rest & Heq & ?).
      exists before, a, p, p', rest. by rewrite Heq.
    - intros (before & a & p & p' & rest & -> & Ha & Hp & Hp').
      destruct (search app_directory_re _) as [found|] eqn:Hs; [by eexists|].
      eapply JSRegExpFacts.search_none in Hs; [|reflexivity].
      cbn [at_end app_directory_re] in Hs.
      destruct (proj2 (match_app_directory
                         (slash :: a :: p :: p' :: slash :: rest)))
        as [segs Hm]; [by exists a, p, p', rest|].
      congruence. }
  split; [apply Hiff|]. split.
  - intros below (before & a & p & p' & rest & -> & ?)%Hiff.
    apply Hiff. exists before, a, p, p', (rest ++ below).
    by rewrite <-app_assoc.
  - intros below. apply Hiff. by exists filepath, 97%N, 112%N, 112%N, below.
Qed.

(** The files of the [app] directory are left out, the directory itself
    and the other files are copied. *)
Example copy_filter_sample :
  copy_filter (lit "/cli/starter/app/root.tsx") = false
  ∧ copy_filter (lit "/cli/starter/APP/root.tsx") = false
  ∧ copy_filter (lit "/cli/starter/app") = true
  ∧ copy_filter (lit "/cli/starter/package.json") = true
  ∧ copy_filter (lit "/home/app/cli/starter/package.json") = false.
Proof. repeat split; by vm_compute. Qed.

(** *** The new name as a replacement pattern *)

Section PackageNamePattern.

Variable hyphenate : text → text.







End PackageNamePattern.


(** *** Beside the chain *)

(** X23: the installation of the dependencies is no link of the chain.
    Whenever it has been asked for and the user goes on with the
    scaffolding, there is a run without any failure in which the
    installation is still under way while the i18n setup is under way. *)
Theorem install_beside_scaffolding (sess : Session) :
  is_Some (location sess) → shouldInstallDeps sess = true →
  continueWithSetup sess = true →
  ∃ h, Local.valid sess h = true ∧ only_caught h = true
       ∧ running InstallDeps h ∧ running SetupI18n h.
Proof.
  destruct sess as [[mock i18n routes] action store place job lang css pm
                      install offers created confirms chosen generated].
  unfold continueWithSetup. simpl.
  intros [project ->] -> Hcont.
  set (link := if mock then false
               else match action with Link => true | Mock => false end).
  set (whole step := [Start step; Resolve step]).
  exists (rev
    ((Main <$> [Located; LanguageChosen; CssChosen; DepsChosen;
                ShortcutChosen; ScaffoldChosen])
     ++ (if link
         then whole CreateStorefront ++ (if job then whole WaitForJob else [])
         else [])
     ++ whole CopyTemplate ++ whole GenerateProjectEntries
     ++ whole ReplacePackageJson
     ++ (if link then whole SetUserAccount ++ whole SetStorefront else [])
     ++ whole WriteEnv
     ++ whole TranspileProject ++ whole CreateInitialCommit
     ++ match css with
        | Some _ => whole SetupCss ++ whole CommitCss
        | None => []
        end
     ++ [Start InstallDeps]
     ++ (if offers then whole CreateShortcut else [])
     ++ [Start SetupI18n])).
  subst link whole.
  destruct mock, action, job, css, offers, i18n, routes, confirms;
    try discriminate Hcont; repeat split; by vm_compute.
Qed.

Lemma install_beside_scaffolding_witness :
  ∃ h, Local.valid install_session h = true ∧ only_caught h = true
       ∧ running InstallDeps h ∧ running SetupI18n h.
Proof.
  apply install_beside_scaffolding; [by eexists | done | done].
Defined.
End LocalFacts.
